(** * Batch rename tool: matching, naming and execution core

    A shallow embedding of [FileRenameTool] (file_rename_tool_optimized.py):
    the file-name sanitizer, the mapping load and validation, the matcher,
    the preview generation and the execution loop, with the properties of
    the design document proved (or refuted) on them.

    Python strings are sequences of Unicode code points and [len] counts
    code points, so a string is modelled as a list of code points. *)

From Stdlib Require Import ZArith NArith Lia Ascii String DecimalString.
From stdpp Require Import base decidable list gmap sets sorting.

Local Open Scope Z_scope.

(* ===================================================================== *)
(** ** Strings *)
(* ===================================================================== *)

Abbreviation str := (list N).

(** Code points of an ASCII literal. *)
Definition lit (s : string) : str :=
  List.map N_of_ascii (list_ascii_of_string s).

(** [len(s)] as a Python integer. *)
Definition len (s : str) : Z := Z.of_nat (length s).

Definition str_eqb (a b : str) : bool := bool_decide (a = b).

(** [prefix in s] at the head of [s] (str.startswith). *)
Fixpoint startswith (s prefix : str) {struct prefix} : bool :=
  match prefix, s with
  | [], _ => true
  | p :: ps, c :: cs => (p =? c)%N && startswith cs ps
  | _ :: _, [] => false
  end.

(** [sub in s]: substring test. *)
Fixpoint contains (s sub : str) : bool :=
  startswith s sub ||
  match s with
  | [] => false
  | _ :: cs => contains cs sub
  end.

(** [str(n)] for a non-negative integer. *)
Definition decimal (n : nat) : str :=
  lit (NilZero.string_of_uint (Nat.to_uint n)).

(** ASCII case folding, the part of [str.lower] that the scenarios use. *)
Definition ascii_lower_char (c : N) : N :=
  if ((65 <=? c) && (c <=? 90))%N then (c + 32)%N else c.

Definition ascii_lower (s : str) : str := List.map ascii_lower_char s.

(** Character classes.  [is_space] is the set shared by the [\s] class of
    [re] on [str] patterns and by [str.strip()]: the code points for which
    [str.isspace] holds. *)
Definition reserved_char (c : N) : bool :=
  bool_decide (c ∈ [60; 62; 58; 34; 47; 92; 124; 63; 42]%N).
  (* <  >  :  quote  /  \  |  ?  * *)

Definition control_char (c : N) : bool :=
  ((c <=? 31) || (c =? 127))%N.

Definition is_space (c : N) : bool :=
  (((9 <=? c) && (c <=? 13)) || ((28 <=? c) && (c <=? 32)) ||
   (c =? 133) || (c =? 160) || (c =? 5760) ||
   ((8192 <=? c) && (c <=? 8202)) || (c =? 8232) || (c =? 8233) ||
   (c =? 8239) || (c =? 8287) || (c =? 12288))%N.

Definition DOT : N := 46.
Definition SPACE : N := 32.
Definition is_dot (c : N) : bool := (c =? DOT)%N.

(** [re.sub(r'[...]', '', s)] for a one-character class. *)
Definition remove_chars (cls : N -> bool) (s : str) : str :=
  List.filter (fun c => negb (cls c)) s.

(** [re.sub(r'\.{2,}', '.', s)]: of each run of dots only one is kept. *)
Fixpoint collapse_dots (s : str) : str :=
  match s with
  | [] => []
  | c :: t =>
      match t with
      | d :: _ => if is_dot c && is_dot d then collapse_dots t
                  else c :: collapse_dots t
      | [] => [c]
      end
  end.

(** [re.sub(r'\s+', ' ', s)]: each maximal run of white space becomes one
    space. *)
Fixpoint collapse_ws (s : str) : str :=
  match s with
  | [] => []
  | c :: t =>
      if is_space c then
        match t with
        | d :: _ => if is_space d then collapse_ws t
                    else SPACE :: collapse_ws t
        | [] => [SPACE]
        end
      else c :: collapse_ws t
  end.

(** [str.strip()] with no argument. *)
Fixpoint lstrip (s : str) : str :=
  match s with
  | [] => []
  | c :: t => if is_space c then lstrip t else s
  end.

Fixpoint rstrip (s : str) : str :=
  match s with
  | [] => []
  | c :: t =>
      match rstrip t with
      | [] => if is_space c then [] else [c]
      | r => c :: r
      end
  end.

Definition strip (s : str) : str := rstrip (lstrip s).

(* ===================================================================== *)
(** ** os.path on Windows (ntpath) *)
(* ===================================================================== *)

Definition SEP : N := 92.     (* backslash *)
Definition ALTSEP : N := 47.  (* slash *)
Definition COLON : N := 58.
Definition is_sep (c : N) : bool := ((c =? SEP) || (c =? ALTSEP))%N.

(** [p.rfind(c)] for a character class: the last index, or -1. *)
Fixpoint rfind_from (cls : N -> bool) (p : str) (i acc : Z) : Z :=
  match p with
  | [] => acc
  | c :: t => rfind_from cls t (i + 1) (if cls c then i else acc)
  end.

Definition rfind (cls : N -> bool) (p : str) : Z := rfind_from cls p 0 (-1).

(** [p[a:b]] for [0 <= a]. *)
Definition slice (p : str) (a b : Z) : str :=
  take (Z.to_nat (b - a)) (drop (Z.to_nat a) p).

(** [os.path.splitext]: the extension starts at the last dot, provided the
    dot comes after the last separator and some character between them is
    not a dot (leading dots do not start an extension). *)
Definition splitext (p : str) : str * str :=
  let sepIndex := rfind is_sep p in
  let dotIndex := rfind is_dot p in
  if (sepIndex <? dotIndex) &&
     existsb (fun c => negb (is_dot c)) (slice p (sepIndex + 1) dotIndex)
  then (take (Z.to_nat dotIndex) p, drop (Z.to_nat dotIndex) p)
  else (p, []).

(** [os.path.basename]: what follows the last separator, a drive letter
    prefix being set aside first.  (A UNC share root is not told apart; no
    name this program builds starts with a separator.) *)
Definition drop_drive (p : str) : str :=
  match p with
  | _ :: c :: rest => if (c =? COLON)%N then rest else p
  | _ => p
  end.

Definition basename (p : str) : str :=
  let q := drop_drive p in
  drop (Z.to_nat (rfind is_sep q + 1)) q.

(* ===================================================================== *)
(** ** The sanitizer *)
(* ===================================================================== *)

Definition MAX_FILENAME_LENGTH : Z := 255.

(** The fallback label of the source, U+672A U+547D U+540D. *)
Definition UNNAMED : str := [26410; 21629; 21517]%N.

Definition is_empty_list {A} (l : list A) : bool :=
  match l with [] => true | _ => false end.

Definition is_empty (s : str) : bool := is_empty_list s.

(** The four substitutions and the trim, before the length limit. *)
Definition clean (filename : str) : str :=
  let sanitized := remove_chars reserved_char filename in
  let sanitized := remove_chars control_char sanitized in
  let sanitized := collapse_dots sanitized in
  strip (collapse_ws sanitized).

(** The length limit of [_sanitize_filename]. *)
Definition limit_length (sanitized : str) : str :=
  let '(name, ext) := splitext sanitized in
  if MAX_FILENAME_LENGTH <? len sanitized then
    let max_name_length := MAX_FILENAME_LENGTH - len ext in
    if 0 <? max_name_length
    then take (Z.to_nat max_name_length) name ++ ext
    else take (Z.to_nat MAX_FILENAME_LENGTH) sanitized
  else sanitized.

Definition _sanitize_filename (filename : str) : str :=
  if is_empty filename then UNNAMED
  else
    let sanitized := limit_length (clean filename) in
    if is_empty sanitized then UNNAMED else sanitized.


(* ===================================================================== *)
(** ** Containers and sorting *)
(* ===================================================================== *)

(** A Python [dict] keyed by strings: iteration follows insertion order, so
    it is kept as an association list with one binding per key. *)
Definition dict (V : Type) : Type := list (str * V).

Fixpoint dict_get {V} (d : dict V) (k : str) : option V :=
  match d with
  | [] => None
  | (k', v) :: t => if str_eqb k k' then Some v else dict_get t k
  end.

(** [d[k] = v]: an existing key keeps its place. *)
Fixpoint dict_set {V} (d : dict V) (k : str) (v : V) : dict V :=
  match d with
  | [] => [(k, v)]
  | (k', v') :: t =>
      if str_eqb k k' then (k', v) :: t else (k', v') :: dict_set t k v
  end.

Definition dict_keys {V} (d : dict V) : list str := List.map fst d.

(** [d[k].append(x)] on a [defaultdict(list)]. *)
Fixpoint dict_append {V} (d : dict (list V)) (k : str) (x : V)
  : dict (list V) :=
  match d with
  | [] => [(k, [x])]
  | (k', l) :: t =>
      if str_eqb k k' then (k', l ++ [x]) :: t
      else (k', l) :: dict_append t k x
  end.

(** [sorted]: a stable sort.  [before y x] says that [y] must come strictly
    before [x]; elements that neither precedes keep their order. *)
Fixpoint insert_sorted {A} (before : A -> A -> bool) (x : A) (l : list A)
  : list A :=
  match l with
  | [] => [x]
  | y :: t => if before y x then y :: insert_sorted before x t
              else x :: y :: t
  end.

Definition sorted_by {A} (before : A -> A -> bool) (l : list A) : list A :=
  foldr (insert_sorted before) [] l.

(** The order of [str]: lexicographic on code points. *)
Fixpoint str_ltb (a b : str) : bool :=
  match a, b with
  | _, [] => false
  | [], _ :: _ => true
  | x :: a', y :: b' => (x <? y)%N || ((x =? y)%N && str_ltb a' b')
  end.

(** [sorted(l)] on strings and [sorted(l, key=len, reverse=True)]. *)
Definition sorted (l : list str) : list str := sorted_by str_ltb l.

Definition sorted_len_desc (l : list str) : list str :=
  sorted_by (fun y x => len x <? len y) l.

(** [Series.unique()]: first occurrences, in order of appearance. *)
Fixpoint unique_from (seen : list str) (l : list str) : list str :=
  match l with
  | [] => []
  | x :: t => if bool_decide (x ∈ seen) then unique_from seen t
              else x :: unique_from (x :: seen) t
  end.

Definition unique (l : list str) : list str := unique_from [] l.

(** [Series.duplicated(keep=False)]: the mask of the values that occur
    more than once. *)
Definition occurrences (x : str) (l : list str) : nat :=
  length (List.filter (str_eqb x) l).

Definition duplicated (l : list str) : list bool :=
  List.map (fun x => (1 <? occurrences x l)%nat) l.

(** [df[mask]]. *)
Fixpoint select {A} (l : list A) (mask : list bool) : list A :=
  match l, mask with
  | x :: t, b :: m => if b then x :: select t m else select t m
  | _, _ => []
  end.

(* ===================================================================== *)
(** ** Collaborators *)
(* ===================================================================== *)

(** What the program asks of the file system, kept as a log of calls. *)
Inductive action :=
| MakeDirs (path : str)
| Copy2 (src dst : str)
| CopyTree (src dst : str)
| MakeArchiveZip (base_name root_dir base_dir : str)
| Run7z (dst src : str)      (* 7z.exe a -t7z abspath(dst) abspath(src) *)
| RunRar (dst src : str).    (* Rar.exe a -r abspath(dst) abspath(src) *)

(** The library and system services the program calls and does not
    define: [str.lower], the state of the file system, [os.path.exists],
    [shutil.which], and the calls that change the file system, each of
    which returns the new state and, when it raises, the text the handler
    builds from the exception. *)
Class Runtime := {
  lower : str -> str;
  World : Type;
  path_exists : World -> str -> bool;
  which : World -> str -> bool;
  perform : action -> World -> World * option str
}.

(** [os.path.join(a, b)] for a [b] that has neither drive nor root, which
    is the case of every name joined here: a separator is put between the
    two unless [a] is empty, ends with one, or is a bare drive letter with
    its colon.  (A bare UNC share root is treated as a folder.) *)
Definition ends_with_sep (a : str) : bool :=
  match last a with
  | Some c => is_sep c
  | None => false
  end.

Definition is_bare_drive (a : str) : bool :=
  match a with
  | [_; c] => (c =? COLON)%N
  | _ => false
  end.

Definition path_join (a b : str) : str :=
  if is_empty_list a || ends_with_sep a || is_bare_drive a then a ++ b
  else a ++ [SEP] ++ b.

(* ===================================================================== *)
(** ** Settings, records, session *)
(* ===================================================================== *)

Inductive rename_mode := ModeFile | ModeFolder.          (* 文件 / 文件夹 *)
Inductive match_type := Contains | Exact.                (* 包含 / 精确 *)
Inductive duplicate_handling := Suffix | Skip.           (* 序号 / 跳过 *)
Inductive compress_format := Zip | SevenZ | Rar.

Definition is_folder (m : rename_mode) : bool :=
  match m with ModeFolder => true | ModeFile => false end.

Definition is_suffix (d : duplicate_handling) : bool :=
  match d with Suffix => true | Skip => false end.

Definition is_skip (d : duplicate_handling) : bool :=
  match d with Skip => true | Suffix => false end.

Definition format_name (f : compress_format) : str :=
  match f with
  | Zip => lit "zip"
  | SevenZ => lit "7z"
  | Rar => lit "rar"
  end.

Record config := {
  source_folder_path : str;
  target_folder_path : str;
  rename_mode_var : rename_mode;
  match_type_var : match_type;
  duplicate_handling_var : duplicate_handling;
  compress_folder_var : bool;
  compress_format_var : compress_format
}.

(** The status column.  The source stores text: six constants and, for a
    failure, [STATUS_ERROR_PREFIX] followed by the message cut to 60
    characters; [status_text] gives that text back. *)
Inductive status :=
| STATUS_PENDING
| STATUS_SUCCESS
| STATUS_SKIPPED
| STATUS_UNMATCHED
| STATUS_PREVIEW_CONFLICT
| STATUS_TARGET_EXISTS
| STATUS_ERROR (detail : str).

Definition STATUS_ERROR_PREFIX : str := [38169; 35823; 58; 32]%N.

Definition status_text (s : status) : str :=
  match s with
  | STATUS_PENDING => [24453; 22788; 29702]
  | STATUS_SUCCESS => [25104; 21151]
  | STATUS_SKIPPED => [24050; 36339; 36807]
  | STATUS_UNMATCHED => [26410; 21305; 37197]
  | STATUS_PREVIEW_CONFLICT => [39044; 35272; 20914; 31361]
  | STATUS_TARGET_EXISTS => [30446; 26631; 24050; 23384; 22312]
  | STATUS_ERROR detail => STATUS_ERROR_PREFIX ++ detail
  end%N.

Definition is_pending (s : status) : bool :=
  match s with STATUS_PENDING => true | _ => false end.

Definition is_success (s : status) : bool :=
  match s with STATUS_SUCCESS => true | _ => false end.

Definition is_error (s : status) : bool :=
  match s with STATUS_ERROR _ => true | _ => false end.

Definition is_unmatched (s : status) : bool :=
  match s with STATUS_UNMATCHED => true | _ => false end.

(** One line of the result table: [(index, key, source, target, status)]. *)
Record tree_row := {
  row_index : Z;
  row_key : str;
  row_source : str;
  row_target : str;
  row_status : status
}.

Definition set_status (r : tree_row) (s : status) : tree_row :=
  {| row_index := row_index r; row_key := row_key r;
     row_source := row_source r; row_target := row_target r;
     row_status := s |}.

(** The fields of the tool that the three phases share. *)
Record session := {
  file_mapping : dict str;
  matched_files : dict (list str);
  tree : list tree_row
}.

(* ===================================================================== *)
(** ** load_files: mapping load, validation, matching *)
(* ===================================================================== *)

(** A row of the table restricted to the two chosen columns; [None] is a
    missing cell (NaN), [Some s] the text [astype(str)] gives. *)
Definition raw_row : Type := option str * option str.

(** [df.dropna(subset=[name_col, filename_col])]. *)
Definition dropna (rows : list raw_row) : list (str * str) :=
  omap (fun r => match r with
                 | (Some k, Some v) => Some (k, v)
                 | _ => None
                 end) rows.

(** [.astype(str).str.strip()] on both columns. *)
Definition strip_columns (rows : list (str * str)) : list (str * str) :=
  List.map (fun r => (strip r.1, strip r.2)) rows.

Inductive load_error :=
| DuplicateKey (duplicate_names : list str)
| DuplicateTarget (conflicting_rows : list (str * str)). (* (target, key) *)

(** [df.sort_values(by=filename_col)]: the rows by ascending target name,
    in the order of [str].  Among rows of one target name the order is the
    library's; they are kept in table order here. *)
Definition sort_values (df : list (str * str)) : list (str * str) :=
  sorted_by (fun y x => str_ltb y.2 x.2) df.

Section Load.
Context `{Runtime}.

(** The two checks of [load_files] on the trimmed rows, then the
    dictionary.  The target collision dialog lists the conflicting rows
    sorted by target name, each as the target name and its key. *)
Definition build_mapping (df : list (str * str))
  : load_error + dict str :=
  let is_duplicate_series := duplicated (List.map (fun r => lower r.1) df) in
  let name_duplicates := select df is_duplicate_series in
  if negb (is_empty_list name_duplicates) then
    inl (DuplicateKey (sorted (unique (List.map fst name_duplicates))))
  else
    let filename_duplicates :=
      select df (duplicated (List.map snd df)) in
    if negb (is_empty_list filename_duplicates) then
      inl (DuplicateTarget
             (List.map (fun r => (r.2, r.1))
                       (sort_values filename_duplicates)))
    else
      inr (fold_left (fun d r => dict_set d r.1 r.2) df []).

Definition load_mapping (rows : list raw_row) : load_error + dict str :=
  build_mapping (strip_columns (dropna rows)).

(** The test of one key against one entry. *)
Definition match_found (mt : match_type) (name item_name : str) : bool :=
  let item_base_name := (splitext item_name).1 in
  match mt with
  | Contains => contains (lower item_name) (lower name)
  | Exact => str_eqb (lower item_base_name) (lower name)
  end.

Record match_state := {
  ms_matched : dict (list str);
  ms_processed : gset str;
  ms_unmatched : list str
}.

(** The body of the loop over [source_items]. *)
Definition match_item (mt : match_type) (sorted_names : list str)
    (st : match_state) (item_name : str) : match_state :=
  if bool_decide (item_name ∈ ms_processed st) then st
  else
    match List.find (fun name => match_found mt name item_name)
                    sorted_names with
    | Some name =>
        {| ms_matched := dict_append (ms_matched st) name item_name;
           ms_processed := {[ item_name ]} ∪ ms_processed st;
           ms_unmatched := ms_unmatched st |}
    | None =>
        {| ms_matched := ms_matched st;
           ms_processed := ms_processed st;
           ms_unmatched := ms_unmatched st ++ [item_name] |}
    end.

Definition match_items (mt : match_type) (mapping : dict str)
    (source_items : list str) : match_state :=
  let sorted_names := sorted_len_desc (dict_keys mapping) in
  fold_left (match_item mt sorted_names) source_items
    {| ms_matched := []; ms_processed := ∅; ms_unmatched := [] |}.

Definition NOT_AVAILABLE : str := lit "N/A".

(** The rows inserted for the unmatched entries, numbered from 1. *)
Definition unmatched_rows (unmatched_items : list str) : list tree_row :=
  imap (fun i item_name =>
          {| row_index := Z.of_nat i + 1; row_key := NOT_AVAILABLE;
             row_source := item_name; row_target := [];
             row_status := STATUS_UNMATCHED |}) unmatched_items.

(** [load_files], the selections being complete and the two columns
    present.  [source_items] is the listing of the source folder for the
    chosen kind.  The matches and the table are cleared first; a
    validation error returns before [file_mapping] is assigned. *)
Definition load_files (cfg : config) (rows : list raw_row)
    (source_items : list str) (app : session)
  : session * option load_error :=
  match load_mapping rows with
  | inl err =>
      ({| file_mapping := file_mapping app; matched_files := [];
          tree := [] |}, Some err)
  | inr mapping =>
      let st := match_items (match_type_var cfg) mapping source_items in
      ({| file_mapping := mapping; matched_files := ms_matched st;
          tree := unmatched_rows (ms_unmatched st) |}, None)
  end.
End Load.

(* ===================================================================== *)
(** ** generate_preview *)
(* ===================================================================== *)

Record preview_state := {
  target_filenames_in_preview : gset str;
  item_index : Z;
  preview_tree : list tree_row
}.

(** [tree.insert(, end, values=...)] followed by [item_index += 1]. *)
Definition emit (st : preview_state) (reserved : gset str)
    (name original_item target : str) (s : status) : preview_state :=
  {| target_filenames_in_preview := reserved;
     item_index := item_index st + 1;
     preview_tree :=
       preview_tree st ++
       [{| row_index := item_index st; row_key := name;
           row_source := original_item; row_target := target;
           row_status := s |}] |}.

Section Preview.
Context `{Runtime}.

(** The name of the mapping after the mode and compression settings. *)
Definition base_target_name_of (cfg : config) (mapping : dict str)
    (name : str) : str :=
  let base_target_name_from_csv :=
    _sanitize_filename (default UNNAMED (dict_get mapping name)) in
  let base_name_for_ops := (splitext base_target_name_from_csv).1 in
  match rename_mode_var cfg with
  | ModeFile => base_target_name_from_csv
  | ModeFolder =>
      if compress_folder_var cfg
      then base_name_for_ops ++ [DOT] ++
           format_name (compress_format_var cfg)
      else base_target_name_from_csv
  end.

(** [final_target_name] before the second sanitizing: the name with
    [_{i+1}] put before the extension when the key has several
    entries and the policy adds a number. *)
Definition candidate_name (dup : duplicate_handling) (group_size : nat)
    (base_target_name : str) (i : nat) : str :=
  if (1 <? group_size)%nat && is_suffix dup then
    let '(target_main, target_ext) := splitext base_target_name in
    target_main ++ lit "_" ++ decimal (i + 1) ++ target_ext
  else base_target_name.

(** The name after [_sanitize_filename(os.path.basename(...))]. *)
Definition final_target_name_of (cfg : config) (group_size : nat)
    (base_target_name : str) (i : nat) : str :=
  _sanitize_filename
    (basename (candidate_name (duplicate_handling_var cfg) group_size
                              base_target_name i)).

(** [final_target_name.lower() in (fn.lower() for fn in reserved)]. *)
Definition in_preview (reserved : gset str) (final_target_name : str)
  : bool :=
  existsb (fun fn => str_eqb (lower final_target_name) (lower fn))
          (elements reserved).

(** The status of a target name, given the names reserved so far. *)
Definition resolve_status (cfg : config) (w : World)
    (reserved : gset str) (final_target_name : str) : status :=
  if in_preview reserved final_target_name then STATUS_PREVIEW_CONFLICT
  else if path_exists w (path_join (target_folder_path cfg)
                                   final_target_name)
  then STATUS_TARGET_EXISTS
  else STATUS_PENDING.

(** The body of the loop over [enumerate(original_items)]. *)
Definition preview_entry (cfg : config) (w : World) (name : str)
    (group_size : nat) (base_target_name : str)
    (i : nat) (original_item : str) (st : preview_state)
  : preview_state :=
  let final_target_name :=
    final_target_name_of cfg group_size base_target_name i in
  let s := resolve_status cfg w (target_filenames_in_preview st)
                          final_target_name in
  let reserved :=
    if is_pending s
    then {[ final_target_name ]} ∪ target_filenames_in_preview st
    else target_filenames_in_preview st in
  emit st reserved name original_item final_target_name s.

Fixpoint preview_entries (cfg : config) (w : World) (name : str)
    (group_size : nat) (base_target_name : str)
    (i : nat) (original_items : list str) (st : preview_state)
  : preview_state :=
  match original_items with
  | [] => st
  | original_item :: rest =>
      preview_entries cfg w name group_size base_target_name (S i) rest
        (preview_entry cfg w name group_size base_target_name
                       i original_item st)
  end.

(** The rows of a key whose entries are all skipped. *)
Definition skip_entries (name base_target_name : str)
    (original_items : list str) (st : preview_state) : preview_state :=
  fold_left
    (fun st original_item =>
       emit st (target_filenames_in_preview st) name original_item
            base_target_name STATUS_SKIPPED)
    original_items st.

(** The body of the loop over [matched_files.items()]. *)
Definition preview_group (cfg : config) (w : World) (mapping : dict str)
    (st : preview_state) (group : str * list str) : preview_state :=
  let '(name, original_items) := group in
  let base_target_name := base_target_name_of cfg mapping name in
  if (1 <? length original_items)%nat &&
     is_skip (duplicate_handling_var cfg)
  then skip_entries name base_target_name original_items st
  else preview_entries cfg w name (length original_items)
                       base_target_name 0 original_items st.

Definition preview_groups (cfg : config) (w : World) (mapping : dict str)
    (groups : dict (list str)) : preview_state :=
  fold_left (preview_group cfg w mapping) groups
    {| target_filenames_in_preview := ∅; item_index := 1;
       preview_tree := [] |}.

(** [generate_preview]: without matches the table is left as it is;
    otherwise it is rebuilt, the unmatched rows of the old table being
    put back after the new rows. *)
Definition generate_preview (cfg : config) (w : World) (app : session)
  : session :=
  if is_empty_list (matched_files app) then app
  else
    let items_to_keep :=
      List.filter (fun r => is_unmatched (row_status r)) (tree app) in
    let st := preview_groups cfg w (file_mapping app)
                             (matched_files app) in
    {| file_mapping := file_mapping app;
       matched_files := matched_files app;
       tree := preview_tree st ++ items_to_keep |}.
End Preview.

(* ===================================================================== *)
(** ** execute_rename *)
(* ===================================================================== *)

Record summary := {
  success_count : Z;
  skip_count : Z;
  error_count : Z
}.

(** How a call of [execute_rename] ends: the three early returns, each
    with its dialog, or the loop over the table and the summary dialog. *)
Inductive execute_result :=
| NoPendingItems
| NotConfirmed
| DependencyMissing (tool : str)
| TargetFolderError (message : str)
| Completed (counts : summary).

(** The texts of the two failures raised by the checks made again at
    execution time: the exception name, a colon, the message. *)
Definition MSG_TARGET_EXISTS : str :=
  lit "FileExistsError: " ++ [30446; 26631; 24050; 23384; 22312]%N.

Definition MSG_SOURCE_MISSING : str :=
  lit "FileNotFoundError: " ++ [28304; 19981; 23384; 22312]%N.

Definition is_compressing (cfg : config) : bool :=
  compress_folder_var cfg && is_folder (rename_mode_var cfg).

Definition src_path_of (cfg : config) (r : tree_row) : str :=
  path_join (source_folder_path cfg) (row_source r).

Definition dst_path_of (cfg : config) (r : tree_row) : str :=
  path_join (target_folder_path cfg) (row_target r).

(** The one call made for a record once both checks have passed. *)
Definition record_action (cfg : config) (r : tree_row) : action :=
  let original_name := row_source r in
  let src_path := src_path_of cfg r in
  let dst_path := dst_path_of cfg r in
  if is_compressing cfg then
    match compress_format_var cfg with
    | Zip => MakeArchiveZip (splitext dst_path).1
                            (source_folder_path cfg) original_name
    | SevenZ => Run7z dst_path src_path
    | Rar => RunRar dst_path src_path
    end
  else
    match rename_mode_var cfg with
    | ModeFile => Copy2 src_path dst_path
    | ModeFolder => CopyTree src_path dst_path
    end.

(** The archiver looked up before any record is processed. *)
Definition required_tool (cfg : config) : option str :=
  if is_compressing cfg then
    match compress_format_var cfg with
    | Zip => None
    | SevenZ => Some (lit "7z.exe")
    | Rar => Some (lit "Rar.exe")
    end
  else None.

Definition add_success (c : summary) : summary :=
  {| success_count := success_count c + 1; skip_count := skip_count c;
     error_count := error_count c |}.

Definition add_skip (c : summary) : summary :=
  {| success_count := success_count c; skip_count := skip_count c + 1;
     error_count := error_count c |}.

Definition add_error (c : summary) : summary :=
  {| success_count := success_count c; skip_count := skip_count c;
     error_count := error_count c + 1 |}.

Definition no_counts : summary :=
  {| success_count := 0; skip_count := 0; error_count := 0 |}.

Section Execute.
Context `{Runtime}.

(** The loop state: the file system, the calls made so far (oldest
    first), the three counters and the rows already visited. *)
Record execute_state := {
  ex_world : World;
  ex_calls : list action;
  ex_counts : summary;
  ex_tree : list tree_row
}.

(** The handler of the [try]: the record gets the error text cut to 60
    characters. *)
Definition fail_row (st : execute_state) (w : World)
    (calls : list action) (r : tree_row) (error_msg : str)
  : execute_state :=
  {| ex_world := w; ex_calls := calls;
     ex_counts := add_error (ex_counts st);
     ex_tree := ex_tree st ++
                [set_status r (STATUS_ERROR (take 60 error_msg))] |}.

(** The body of the loop over the rows of the table. *)
Definition execute_row (cfg : config) (st : execute_state) (r : tree_row)
  : execute_state :=
  if negb (is_pending (row_status r)) then
    {| ex_world := ex_world st; ex_calls := ex_calls st;
       ex_counts :=
         if negb (is_success (row_status r)) &&
            negb (is_error (row_status r))
         then add_skip (ex_counts st) else ex_counts st;
       ex_tree := ex_tree st ++ [r] |}
  else if path_exists (ex_world st) (dst_path_of cfg r) then
    fail_row st (ex_world st) (ex_calls st) r MSG_TARGET_EXISTS
  else if negb (path_exists (ex_world st) (src_path_of cfg r)) then
    fail_row st (ex_world st) (ex_calls st) r MSG_SOURCE_MISSING
  else
    let a := record_action cfg r in
    match perform a (ex_world st) with
    | (w, None) =>
        {| ex_world := w; ex_calls := ex_calls st ++ [a];
           ex_counts := add_success (ex_counts st);
           ex_tree := ex_tree st ++ [set_status r STATUS_SUCCESS] |}
    | (w, Some error_msg) =>
        fail_row st w (ex_calls st ++ [a]) r error_msg
    end.

Definition execute_rows (cfg : config) (rows : list tree_row)
    (st : execute_state) : execute_state :=
  fold_left (execute_row cfg) rows st.

(** [shutil.which] on the archiver, when one is needed. *)
Definition missing_tool (cfg : config) (w : World) : option str :=
  match required_tool cfg with
  | Some tool => if which w tool then None else Some tool
  | None => None
  end.

(** The result of a call: the session, the file system, the calls made
    and how the call ended. *)
Record execution := {
  after_session : session;
  after_world : World;
  calls_made : list action;
  ending : execute_result
}.

Definition unchanged (app : session) (w : World) (e : execute_result)
  : execution :=
  {| after_session := app; after_world := w; calls_made := [];
     ending := e |}.

(** [execute_rename]; [confirmed] is the answer to the confirmation
    dialog. *)
Definition execute_rename (cfg : config) (confirmed : bool) (w : World)
    (app : session) : execution :=
  let pending_items :=
    List.filter (fun r => is_pending (row_status r)) (tree app) in
  if is_empty_list pending_items then unchanged app w NoPendingItems
  else if negb confirmed then unchanged app w NotConfirmed
  else
    match missing_tool cfg w with
    | Some tool => unchanged app w (DependencyMissing tool)
    | None =>
        let mk := MakeDirs (target_folder_path cfg) in
        match perform mk w with
        | (w1, Some message) =>
            {| after_session := app; after_world := w1;
               calls_made := [mk]; ending := TargetFolderError message |}
        | (w1, None) =>
            let st := execute_rows cfg (tree app)
                        {| ex_world := w1; ex_calls := [mk];
                           ex_counts := no_counts; ex_tree := [] |} in
            {| after_session :=
                 {| file_mapping := file_mapping app;
                    matched_files := matched_files app;
                    tree := ex_tree st |};
               after_world := ex_world st;
               calls_made := ex_calls st;
               ending := Completed (ex_counts st) |}
        end
    end.
End Execute.

(* ===================================================================== *)
(** ** A file system for the scenarios *)
(* ===================================================================== *)

(** The path a call creates. *)
Definition created (a : action) : str :=
  match a with
  | MakeDirs p => p
  | Copy2 _ dst | CopyTree _ dst | Run7z dst _ | RunRar dst _ => dst
  | MakeArchiveZip base_name _ _ => base_name ++ lit ".zip"
  end.

(** The list of the paths that exist; every call succeeds and creates its
    destination, every tool is installed, and case folding is that of
    ASCII (the scenarios use ASCII names only). *)
Definition sim_runtime : Runtime :=
  {| lower := ascii_lower;
     World := list str;
     path_exists := fun w p => bool_decide (p ∈ w);
     which := fun _ _ => true;
     perform := fun a w => (created a :: w, None) |}.

(** A session with nothing loaded, and the default settings of the tool
    (files, substring match, numbered duplicates, no compression). *)
Definition empty_session : session :=
  {| file_mapping := []; matched_files := []; tree := [] |}.

Definition default_config (source target : str) : config :=
  {| source_folder_path := source; target_folder_path := target;
     rename_mode_var := ModeFile; match_type_var := Contains;
     duplicate_handling_var := Suffix; compress_folder_var := false;
     compress_format_var := Zip |}.

(* ===================================================================== *)
(** ** Notions used in the statements *)
(* ===================================================================== *)

(** A character the sanitizer lets through. *)
Definition safe_char (c : N) : Prop :=
  reserved_char c = false ∧ control_char c = false.

(** The target names of the rows whose status is pending. *)
Definition pending_targets (rows : list tree_row) : list str :=
  List.map row_target
    (List.filter (fun r => is_pending (row_status r)) rows).

(** The order of [sorted] on strings, as a relation. *)
Definition str_le (a b : str) : Prop := str_ltb b a = false.

(** The rows the summary counts as skipped. *)
Definition counted_as_skipped (r : tree_row) : bool :=
  negb (is_pending (row_status r)) && negb (is_success (row_status r)) &&
  negb (is_error (row_status r)).

(** The shape of a cleaned name: [head_is cls s] tests the first
    character; [no_double_dot] and [ws_normal] say that no two dots are
    adjacent, and that white space occurs only as single spaces. *)
Definition head_is (cls : N -> bool) (s : str) : bool :=
  match s with
  | c :: _ => cls c
  | [] => false
  end.

Fixpoint no_double_dot (s : str) : Prop :=
  match s with
  | [] => True
  | c :: t => is_dot c && head_is is_dot t = false ∧ no_double_dot t
  end.

Fixpoint ws_normal (s : str) : Prop :=
  match s with
  | [] => True
  | c :: t =>
      (is_space c = true -> c = SPACE ∧ head_is is_space t = false) ∧
      ws_normal t
  end.

Section PreviewNotions.
Context `{Runtime}.

(** A row is in order when it was skipped or its status is the one the
    three tests give against the pending rows before it. *)
Definition rows_resolved cfg w (rows : list tree_row) : Prop :=
  forall j r, rows !! j = Some r ->
    row_status r = STATUS_SKIPPED ∨
    row_status r =
      resolve_status cfg w (list_to_set (pending_targets (take j rows)))
                     (row_target r).

Definition preview_inv cfg w st : Prop :=
  target_filenames_in_preview st =
    list_to_set (pending_targets (preview_tree st)) ∧
  rows_resolved cfg w (preview_tree st).
End PreviewNotions.

(* ===================================================================== *)
(** ** Scenarios *)
(* ===================================================================== *)

Definition scenario_config : config := default_config (lit "in") (lit "out").

(** One key, Bob, mapped to Bob.pdf, with two matched entries. *)
Definition bob_session : session :=
  {| file_mapping := [(lit "Bob", lit "Bob.pdf")];
     matched_files := [(lit "Bob", [lit "bob1.pdf"; lit "bob2.pdf"])];
     tree := [] |}.

(** Two keys whose target names differ by case only. *)
Definition report_session : session :=
  {| file_mapping := [(lit "A", lit "Report.pdf"); (lit "B", lit "report.pdf")];
     matched_files := [(lit "A", [lit "a.txt"]); (lit "B", [lit "b.txt"])];
     tree := [] |}.

Definition mk_row (i : Z) (key source target : string) (s : status)
  : tree_row :=
  {| row_index := i; row_key := lit key; row_source := lit source;
     row_target := lit target; row_status := s |}.

(** What the loop of [execute_rename] may leave in place of a row: the row
    itself unless it was pending, and then the row with a success or an
    error status. *)
Definition row_result (r r' : tree_row) : Prop :=
  if is_pending (row_status r)
  then exists s, r' = set_status r s ∧
                 (s = STATUS_SUCCESS ∨ exists detail, s = STATUS_ERROR detail)
  else r' = r.

Definition is_terminal (s : status) : bool :=
  match s with
  | STATUS_SUCCESS | STATUS_SKIPPED | STATUS_ERROR _ => true
  | _ => false
  end.

(** A table after a first run on the Bob scenario: one record copied, one
    skipped, one failed; and a table with a pending record next to a
    successful one. *)
Definition finished_session : session :=
  {| file_mapping := []; matched_files := [];
     tree := [mk_row 1 "Bob" "bob1.pdf" "Bob_1.pdf" STATUS_SUCCESS;
              mk_row 2 "Al" "al.pdf" "Al.pdf" STATUS_SKIPPED;
              mk_row 3 "Cy" "cy.pdf" "Cy.pdf"
                     (STATUS_ERROR MSG_SOURCE_MISSING)] |}.

Definition mixed_session : session :=
  {| file_mapping := []; matched_files := [];
     tree := [mk_row 1 "Bob" "bob1.pdf" "Bob_1.pdf" STATUS_PENDING;
              mk_row 2 "Al" "al.pdf" "Al.pdf" STATUS_SUCCESS;
              mk_row 3 "Cy" "cy.pdf" "Cy.pdf" STATUS_SKIPPED] |}.

Definition scenario_world : list str := [lit "in\bob1.pdf"].

(* ===================================================================== *)
(** ** log_operation and update_button_states *)
(* ===================================================================== *)

(** [operation_log] holds at most this many lines. *)
Definition MAX_LOG_LINES : nat := 1000.

(** The effect of [log_operation] on [operation_log]: the line (the time
    stamp and the message, already put together) is appended, and the
    oldest line is popped when the list has grown past the bound. *)
Definition log_operation (operation_log : list str) (full_message : str)
  : list str :=
  let operation_log := operation_log ++ [full_message] in
  if (MAX_LOG_LINES <? length operation_log)%nat
  then drop 1 operation_log
  else operation_log.

(** The button states of [update_button_states] that depend on the
    session: preview needs matches, execute needs a pending row. *)
Definition preview_enabled (app : session) : bool :=
  negb (is_empty_list (matched_files app)).

Definition execute_enabled (app : session) : bool :=
  existsb (fun r => is_pending (row_status r)) (tree app).

(** [_update_folder_options_state]: outside the folder mode the
    compression box is unticked. *)
Definition _update_folder_options_state (cfg : config) : config :=
  match rename_mode_var cfg with
  | ModeFolder => cfg
  | ModeFile =>
      {| source_folder_path := source_folder_path cfg;
         target_folder_path := target_folder_path cfg;
         rename_mode_var := rename_mode_var cfg;
         match_type_var := match_type_var cfg;
         duplicate_handling_var := duplicate_handling_var cfg;
         compress_folder_var := false;
         compress_format_var := compress_format_var cfg |}
  end.

(* ===================================================================== *)
(** ** Further notions used in the statements *)
(* ===================================================================== *)

(** The entries of a key in [matched_files], none when the key is absent. *)
Definition group_of (d : dict (list str)) (k : str) : list str :=
  default [] (dict_get d k).

(** All the entries of [matched_files], group after group. *)
Definition all_matched (d : dict (list str)) : list str :=
  concat (List.map snd d).

(** The keys of [matched_files], each repeated once per entry. *)
Definition all_matched_keys (d : dict (list str)) : list str :=
  concat (List.map (fun g => List.map (fun _ => g.1) g.2) d).

(** A character the cleaning steps delete or trim away. *)
Definition blank_char (c : N) : Prop :=
  reserved_char c = true ∨ control_char c = true ∨ is_space c = true.

(** A name the cleaning steps leave as it is. *)
Definition clean_name (s : str) : Prop :=
  Forall safe_char s ∧ no_double_dot s ∧ ws_normal s ∧
  head_is is_space s = false ∧ rstrip s = s.

Section MatchNotions.
Context `{Runtime}.
Implicit Types (mt : match_type) (names items : list str) (st : match_state).

(** The key an entry goes to: the first of the sorted keys that matches. *)
Definition first_match (mt : match_type) (sorted_names : list str)
    (item_name : str) : option str :=
  List.find (fun name => match_found mt name item_name) sorted_names.

Definition has_match (mt : match_type) (sorted_names : list str)
    (item_name : str) : bool :=
  match first_match mt sorted_names item_name with
  | Some _ => true
  | None => false
  end.

Definition goes_to (mt : match_type) (sorted_names : list str)
    (k item_name : str) : bool :=
  match first_match mt sorted_names item_name with
  | Some name => str_eqb name k
  | None => false
  end.
(** What holds after the entries [items] have been scanned. *)
Definition matched_so_far mt names items st : Prop :=
  ms_unmatched st =
    List.filter (fun x => negb (has_match mt names x)) items ∧
  (forall x, x ∈ ms_processed st <->
             x ∈ items ∧ has_match mt names x = true) ∧
  (forall k x, x ∈ group_of (ms_matched st) k ->
               x ∈ items ∧ first_match mt names x = Some k) ∧
  NoDup (dict_keys (ms_matched st)) ∧
  (forall k l, (k, l) ∈ ms_matched st -> l ≠ [] ∧ k ∈ names) ∧
  (NoDup items ->
     (forall k, group_of (ms_matched st) k =
                List.filter (goes_to mt names k) items) ∧
     all_matched (ms_matched st) ≡ₚ List.filter (has_match mt names) items).
End MatchNotions.

(** The file system of the scenarios on a machine without any archiver,
    and settings that ask for a 7z archive of each folder. *)
Definition no_tools_runtime : Runtime :=
  {| lower := ascii_lower;
     World := list str;
     path_exists := fun w p => bool_decide (p ∈ w);
     which := fun _ _ => false;
     perform := fun a w => (created a :: w, None) |}.

Definition archive_config : config :=
  {| source_folder_path := lit "in"; target_folder_path := lit "out";
     rename_mode_var := ModeFolder; match_type_var := Contains;
     duplicate_handling_var := Suffix; compress_folder_var := true;
     compress_format_var := SevenZ |}.

(* ===================================================================== *)
(** ** Sessions the tool can be in *)
(* ===================================================================== *)

(** [dropna] keeps a row when both of its cells are present. *)
Definition cells_present (r : raw_row) : bool :=
  match r with
  | (Some _, Some _) => true
  | _ => false
  end.

(** The effect of [reset_all] on the session: once the user has
    confirmed, mapping, matches and table are cleared. *)
Definition reset_all (confirmed : bool) (app : session) : session :=
  if confirmed
  then {| file_mapping := []; matched_files := []; tree := [] |}
  else app.

Section Reachable.
Context `{Runtime}.

(** The sessions that a sequence of the user's actions leads to, from the
    start of the program: reset, load, preview and execute, in any order,
    with any settings, any table and any state of the file system at each
    step.  A load that stops on an exception after its first lines has
    cleared matches and table, and may or may not have assigned a new
    mapping. *)
Inductive reachable : session -> Prop :=
| reachable_start : reachable empty_session
| reachable_reset confirmed app :
    reachable app -> reachable (reset_all confirmed app)
| reachable_load cfg rows source_items app :
    reachable app -> reachable (load_files cfg rows source_items app).1
| reachable_load_stopped mapping app :
    reachable app ->
    reachable {| file_mapping := mapping; matched_files := []; tree := [] |}
| reachable_preview cfg w app :
    reachable app -> reachable (generate_preview cfg w app)
| reachable_execute cfg confirmed w app :
    reachable app ->
    reachable (after_session (execute_rename cfg confirmed w app)).
End Reachable.

(** A table with one key whose target name has 255 characters, and the
    listing of a folder with two entries that match the key. *)
Definition long_name : str := repeat 97%N 251 ++ lit ".pdf".

Definition long_name_rows : list raw_row :=
  [(Some (lit "Bob"), Some long_name)].

Definition bob_listing : list str := [lit "bob1.pdf"; lit "bob2.pdf"].

(** A table with one key, and a listing with one entry that matches it and
    one that does not. *)
Definition bob_rows : list raw_row :=
  [(Some (lit "Bob"), Some (lit "Bob.pdf"))].

Definition bob_and_other_listing : list str :=
  [lit "bob1.pdf"; lit "notes.txt"].
(* ===================================================================== *)
(** ** Sanitizer: what every output satisfies *)
(* ===================================================================== *)

Section Chars.
Variable P : N -> Prop.

Lemma remove_chars_Forall cls s :
  Forall P s -> Forall P (remove_chars cls s).
Proof.
  unfold remove_chars. induction 1 as [|c t Hc Ht IH]; simpl; [constructor|].
  destruct (cls c); simpl; auto.
Qed.

Lemma collapse_dots_Forall s : Forall P s -> Forall P (collapse_dots s).
Proof.
  induction 1 as [|c t Hc Ht IH]; [constructor|].
  cbn [collapse_dots]. destruct t as [|d t']; [auto|].
  destruct (is_dot c && is_dot d); auto.
Qed.

Lemma collapse_ws_Forall s :
  P SPACE -> Forall P s -> Forall P (collapse_ws s).
Proof.
  intros Hsp. induction 1 as [|c t Hc Ht IH]; [constructor|].
  cbn [collapse_ws]. destruct (is_space c); [|auto].
  destruct t as [|d t']; [auto|]. destruct (is_space d); auto.
Qed.

Lemma lstrip_Forall s : Forall P s -> Forall P (lstrip s).
Proof.
  induction 1 as [|c t Hc Ht IH]; simpl; [constructor|].
  destruct (is_space c); auto.
Qed.

Lemma rstrip_Forall s : Forall P s -> Forall P (rstrip s).
Proof.
  induction 1 as [|c t Hc Ht IH]; simpl; [constructor|].
  destruct (rstrip t); [destruct (is_space c)|]; auto.
Qed.

Lemma strip_Forall s : Forall P s -> Forall P (strip s).
Proof. intros. apply rstrip_Forall, lstrip_Forall; assumption. Qed.
End Chars.

Lemma remove_chars_none cls s :
  Forall (fun c => cls c = false) (remove_chars cls s).
Proof.
  unfold remove_chars. induction s as [|c t IH]; simpl; [constructor|].
  destruct (cls c) eqn:E; simpl; auto.
Qed.

Lemma clean_safe filename : Forall safe_char (clean filename).
Proof.
  unfold clean. apply strip_Forall, collapse_ws_Forall; [by vm_compute|].
  apply collapse_dots_Forall.
  eapply Forall_impl with
    (P := fun c => reserved_char c = false ∧ control_char c = false);
    [|auto].
  apply Forall_and. split.
  - apply remove_chars_Forall, remove_chars_none.
  - apply remove_chars_none.
Qed.

Lemma splitext_app p name ext : splitext p = (name, ext) -> p = name ++ ext.
Proof.
  unfold splitext.
  destruct (_ && _); intros [= <- <-];
    [symmetry; apply take_drop | by rewrite app_nil_r].
Qed.

Lemma limit_length_Forall (P : N -> Prop) s :
  Forall P s -> Forall P (limit_length s).
Proof.
  intros H. unfold limit_length.
  destruct (splitext s) as [name ext] eqn:E.
  apply splitext_app in E. subst s. apply Forall_app in H as [Hn He].
  destruct (_ <? _); [|by apply Forall_app].
  destruct (_ <? _).
  - apply Forall_app; split; [by apply Forall_take|done].
  - apply Forall_take. by apply Forall_app.
Qed.

Lemma limit_length_le s : len (limit_length s) <= MAX_FILENAME_LENGTH.
Proof.
  unfold limit_length, len, MAX_FILENAME_LENGTH.
  destruct (splitext s) as [name ext].
  destruct (Z.ltb_spec 255 (Z.of_nat (length s))); [|lia].
  destruct (Z.ltb_spec 0 (255 - Z.of_nat (length ext))).
  - rewrite length_app, length_take. lia.
  - rewrite length_take. lia.
Qed.

Lemma limit_length_short s :
  len s <= MAX_FILENAME_LENGTH -> limit_length s = s.
Proof.
  unfold limit_length. intros H. destruct (splitext s).
  destruct (Z.ltb_spec MAX_FILENAME_LENGTH (len s)); [lia|done].
Qed.

Lemma UNNAMED_safe : Forall safe_char UNNAMED.
Proof. repeat constructor. Qed.

(** C7. For every input the sanitizer (a total function: no path of it
    fails) returns a non-empty string of at most 255 code points that holds
    none of the reserved characters and no control character. *)
Theorem sanitize_filename_valid (filename : str) :
  _sanitize_filename filename ≠ [] ∧
  len (_sanitize_filename filename) <= 255 ∧
  Forall (fun c => reserved_char c = false ∧ control_char c = false)
         (_sanitize_filename filename).
Proof.
  unfold _sanitize_filename.
  destruct (is_empty filename).
  { split; [done|]. split; [by vm_compute|apply UNNAMED_safe]. }
  destruct (limit_length (clean filename)) as [|c r] eqn:E; simpl.
  { split; [done|]. split; [by vm_compute|apply UNNAMED_safe]. }
  split; [done|]. rewrite <- E. split.
  - apply limit_length_le.
  - apply limit_length_Forall, clean_safe.
Qed.

Example sanitize_ex1 :
  _sanitize_filename (lit "a<b>..c  d.txt ") = lit "ab.c d.txt".
Proof. vm_compute. reflexivity. Qed.

Example splitext_ex1 : splitext (lit ".bashrc") = (lit ".bashrc", []).
Proof. vm_compute. reflexivity. Qed.

Example splitext_ex2 : splitext (lit "a.tar.gz") = (lit "a.tar", lit ".gz").
Proof. vm_compute. reflexivity. Qed.

Example decimal_ex : decimal 12 = lit "12".
Proof. vm_compute. reflexivity. Qed.


Example path_join_ex1 : path_join (lit "C:\out") (lit "a.txt") = lit "C:\out\a.txt".
Proof. vm_compute. reflexivity. Qed.

Example path_join_ex2 : path_join (lit "C:/out/") (lit "a.txt") = lit "C:/out/a.txt".
Proof. vm_compute. reflexivity. Qed.

Example path_join_ex3 : path_join (lit "C:") (lit "a.txt") = lit "C:a.txt".
Proof. vm_compute. reflexivity. Qed.

Example basename_ex1 : basename (lit "C:\out\a.txt") = lit "a.txt".
Proof. vm_compute. reflexivity. Qed.

(** The status column as text: the tests of the source on the text are the
    tests on the constructor. *)
Lemma error_prefix_iff (s : status) :
  startswith (status_text s) STATUS_ERROR_PREFIX = is_error s.
Proof. destruct s; vm_compute; reflexivity. Qed.

Lemma status_text_pending (s : status) :
  status_text s = status_text STATUS_PENDING <-> s = STATUS_PENDING.
Proof. split; [|by intros ->]. destruct s; try done. Qed.

Lemma status_text_success (s : status) :
  status_text s = status_text STATUS_SUCCESS <-> s = STATUS_SUCCESS.
Proof. split; [|by intros ->]. destruct s; try done. Qed.

Lemma status_text_unmatched (s : status) :
  status_text s = status_text STATUS_UNMATCHED <-> s = STATUS_UNMATCHED.
Proof. split; [|by intros ->]. destruct s; try done. Qed.

(* ===================================================================== *)
(** ** Sorting *)
(* ===================================================================== *)

Section Sorting.
Context {A : Type} (before : A -> A -> bool).

Let le (a b : A) : Prop := before b a = false.

Lemma insert_sorted_perm x l : insert_sorted before x l ≡ₚ x :: l.
Proof.
  induction l as [|y t IH]; simpl; [done|].
  destruct (before y x); [|done].
  rewrite IH. apply Permutation_swap.
Qed.

Lemma sorted_by_perm l : sorted_by before l ≡ₚ l.
Proof.
  induction l as [|x t IH]; simpl; [done|].
  rewrite insert_sorted_perm. by rewrite IH.
Qed.

Hypothesis before_asym : forall x y, before x y = true -> before y x = false.
Hypothesis le_trans : forall a b c, le a b -> le b c -> le a c.

Lemma insert_sorted_sorted x l :
  StronglySorted le l -> StronglySorted le (insert_sorted before x l).
Proof.
  induction 1 as [|y t Ht IH Hy]; simpl; [repeat constructor|].
  destruct (before y x) eqn:E.
  - constructor; [done|].
    rewrite insert_sorted_perm. constructor; [|done].
    by apply before_asym.
  - constructor; [by constructor|].
    constructor; [done|].
    eapply Forall_impl; [exact Hy|]. intros z Hz.
    by apply le_trans with y.
Qed.

Lemma sorted_by_sorted l : StronglySorted le (sorted_by before l).
Proof.
  induction l as [|x t IH]; simpl; [constructor|].
  by apply insert_sorted_sorted.
Qed.
End Sorting.

Lemma StronglySorted_mono {A} (R R' : A -> A -> Prop) l :
  (forall a b, R a b -> R' a b) -> StronglySorted R l -> StronglySorted R' l.
Proof.
  intros HR. induction 1 as [|x t Ht IH Hx]; constructor; [done|].
  eapply Forall_impl; [exact Hx|]. auto.
Qed.

(** Longest keys first, and keys of one length in their original order. *)
Lemma sorted_len_desc_sorted l :
  StronglySorted (fun a b => len b <= len a) (sorted_len_desc l).
Proof.
  unfold sorted_len_desc.
  eapply StronglySorted_mono; [|apply sorted_by_sorted].
  - intros a b Hab. simpl in Hab. by apply Z.ltb_ge in Hab.
  - intros x y Hxy. apply Z.ltb_lt in Hxy. apply Z.ltb_ge. lia.
  - intros a b c Hab Hbc. apply Z.ltb_ge in Hab, Hbc. apply Z.ltb_ge. lia.
Qed.

Lemma sorted_len_desc_perm l : sorted_len_desc l ≡ₚ l.
Proof. apply sorted_by_perm. Qed.

Lemma str_ltb_irrefl a : str_ltb a a = false.
Proof.
  induction a as [|x a IH]; simpl; [done|].
  rewrite N.ltb_irrefl, N.eqb_refl. done.
Qed.

Lemma str_ltb_asym a b : str_ltb a b = true -> str_ltb b a = false.
Proof.
  revert b. induction a as [|x a IH]; intros [|y b]; simpl; try done.
  destruct (N.ltb_spec x y), (N.ltb_spec y x), (N.eqb_spec x y),
    (N.eqb_spec y x); simpl; try done; try lia.
  apply IH.
Qed.

Lemma str_le_trans a b c : str_le a b -> str_le b c -> str_le a c.
Proof.
  unfold str_le. revert b c.
  induction a as [|x a IH]; intros [|y b] [|z c]; simpl; try done.
  destruct (N.ltb_spec y x), (N.ltb_spec z y), (N.ltb_spec z x),
    (N.eqb_spec y x), (N.eqb_spec z y), (N.eqb_spec z x);
    simpl; try done; try lia.
  apply IH.
Qed.

Lemma str_le_antisym a b : str_le a b -> str_le b a -> a = b.
Proof.
  unfold str_le. revert b.
  induction a as [|x a IH]; intros [|y b]; simpl; try done.
  destruct (N.ltb_spec y x), (N.ltb_spec x y), (N.eqb_spec y x),
    (N.eqb_spec x y); simpl; try done; try lia.
  intros. f_equal; [done|]. by apply IH.
Qed.

Lemma sorted_sorted l : StronglySorted str_le (sorted l).
Proof.
  apply (sorted_by_sorted str_ltb).
  - apply str_ltb_asym.
  - intros a b c. apply str_le_trans.
Qed.

Lemma sorted_perm l : sorted l ≡ₚ l.
Proof. apply sorted_by_perm. Qed.

(* ===================================================================== *)
(** ** Matching *)
(* ===================================================================== *)

(** C1. Keys An and Anna under the substring test, entries
    Anna_report.pdf, Andy.txt, Bob.txt: the keys are tried longest first
    (Anna, then An), Anna_report.pdf goes to the group of Anna, Andy.txt
    to the group of An, and Bob.txt to the unmatched entries. *)
Theorem matcher_an_anna (t1 t2 : str) :
  let mapping := [(lit "An", t1); (lit "Anna", t2)] in
  let st := @match_items sim_runtime Contains mapping
              [lit "Anna_report.pdf"; lit "Andy.txt"; lit "Bob.txt"] in
  sorted_len_desc (dict_keys mapping) = [lit "Anna"; lit "An"] ∧
  ms_matched st = [(lit "Anna", [lit "Anna_report.pdf"]);
                   (lit "An", [lit "Andy.txt"])] ∧
  ms_unmatched st = [lit "Bob.txt"].
Proof. repeat split; vm_compute; reflexivity. Qed.

(* ===================================================================== *)
(** ** Sanitizer: a second pass *)
(* ===================================================================== *)

Lemma remove_chars_id cls s :
  Forall (fun c => cls c = false) s -> remove_chars cls s = s.
Proof.
  unfold remove_chars. induction 1 as [|c t Hc Ht IH]; simpl; [done|].
  rewrite Hc. simpl. by rewrite IH.
Qed.

Lemma space_not_dot c : is_space c = true -> is_dot c = false.
Proof.
  unfold is_dot, DOT. destruct (N.eqb_spec c 46) as [->|]; [|done].
  by vm_compute.
Qed.

Lemma head_dot_collapse_dots s :
  head_is is_dot (collapse_dots s) = head_is is_dot s.
Proof.
  induction s as [|c t IH]; [done|].
  cbn [collapse_dots]. destruct t as [|d t']; [done|].
  destruct (is_dot c) eqn:Ec, (is_dot d) eqn:Ed;
    cbn [andb head_is]; rewrite ?Ec; try done.
  rewrite IH. cbn [head_is]. done.
Qed.

Lemma collapse_dots_no_double_dot s : no_double_dot (collapse_dots s).
Proof.
  induction s as [|c t IH]; [done|].
  cbn [collapse_dots]. destruct t as [|d t'].
  { simpl. by rewrite andb_false_r. }
  destruct (is_dot c && is_dot d) eqn:E; [done|].
  split; [|done]. by rewrite head_dot_collapse_dots.
Qed.

Lemma collapse_dots_id s : no_double_dot s -> collapse_dots s = s.
Proof.
  induction s as [|c t IH]; [done|]. intros [Hc Ht].
  cbn [collapse_dots]. destruct t as [|d t']; [done|].
  simpl in Hc. rewrite Hc. by rewrite IH.
Qed.

Lemma collapse_ws_cons c t :
  collapse_ws (c :: t) =
  if is_space c then
    match t with
    | d :: _ => if is_space d then collapse_ws t else SPACE :: collapse_ws t
    | [] => [SPACE]
    end
  else c :: collapse_ws t.
Proof. reflexivity. Qed.

Lemma head_dot_collapse_ws_space t c :
  is_space c = true -> head_is is_dot (collapse_ws (c :: t)) = false.
Proof.
  revert c. induction t as [|d t IH]; intros c Ec;
    rewrite collapse_ws_cons, Ec; [done|].
  destruct (is_space d) eqn:Ed; [by apply IH|done].
Qed.

Lemma head_dot_collapse_ws s :
  head_is is_dot (collapse_ws s) = head_is is_dot s.
Proof.
  destruct s as [|c t]; [done|].
  destruct (is_space c) eqn:Ec.
  - rewrite (head_dot_collapse_ws_space t c Ec). cbn [head_is].
    by rewrite (space_not_dot c Ec).
  - by rewrite collapse_ws_cons, Ec.
Qed.

Lemma collapse_ws_no_double_dot s :
  no_double_dot s -> no_double_dot (collapse_ws s).
Proof.
  induction s as [|c t IH]; [done|]. intros [Hc Ht].
  rewrite collapse_ws_cons. destruct (is_space c) eqn:Ec.
  - destruct t as [|d t']; [done|].
    destruct (is_space d); [by apply IH|].
    split; [done|by apply IH].
  - split; [|by apply IH]. by rewrite head_dot_collapse_ws.
Qed.

Lemma collapse_ws_ws_normal s : ws_normal (collapse_ws s).
Proof.
  induction s as [|c t IH]; [done|].
  rewrite collapse_ws_cons. destruct (is_space c) eqn:Ec.
  - destruct t as [|d t']; [done|].
    destruct (is_space d) eqn:Ed; [done|].
    split; [|done]. intros _. split; [done|].
    rewrite collapse_ws_cons, Ed. cbn [head_is]. done.
  - split; [|done]. intros Hc. congruence.
Qed.

Lemma collapse_ws_id s : ws_normal s -> collapse_ws s = s.
Proof.
  induction s as [|c t IH]; [done|]. intros [Hc Ht].
  rewrite collapse_ws_cons. destruct (is_space c) eqn:Ec.
  - destruct (Hc eq_refl) as [-> Hh].
    destruct t as [|d t']; [done|].
    cbn [head_is] in Hh. rewrite Hh. by rewrite IH.
  - by rewrite IH.
Qed.

(** [lstrip] keeps a suffix, [rstrip] a prefix with the same head. *)
Lemma lstrip_suffix s : exists pre, s = pre ++ lstrip s.
Proof.
  induction s as [|c t [pre IH]]; [by exists []|]. simpl.
  destruct (is_space c); [|by exists []].
  exists (c :: pre). simpl. by f_equal.
Qed.

Lemma lstrip_head s : head_is is_space (lstrip s) = false.
Proof.
  induction s as [|c t IH]; [done|]. simpl.
  destruct (is_space c) eqn:E; [done|]. simpl. done.
Qed.

Lemma lstrip_id s : head_is is_space s = false -> lstrip s = s.
Proof. destruct s as [|c t]; [done|]. simpl. by intros ->. Qed.

Lemma rstrip_head s d r : rstrip s = d :: r -> exists t, s = d :: t.
Proof.
  destruct s as [|c t]; [done|]. simpl.
  destruct (rstrip t); [destruct (is_space c)|]; intros [= <- <-]; eauto.
Qed.

Lemma head_is_rstrip cls s :
  head_is cls (rstrip s) = true -> head_is cls s = true.
Proof.
  destruct (rstrip s) as [|d r] eqn:E; [done|].
  apply rstrip_head in E as [t ->]. done.
Qed.

Lemma rstrip_idem s : rstrip (rstrip s) = rstrip s.
Proof.
  induction s as [|c t IH]; [done|]. simpl.
  destruct (rstrip t) as [|d r] eqn:E.
  - destruct (is_space c) eqn:Ec; [done|]. simpl. by rewrite Ec.
  - change (rstrip (c :: d :: r)) with
      (match rstrip (d :: r) with
       | [] => if is_space c then [] else [c]
       | r0 => c :: r0
       end).
    by rewrite IH.
Qed.

Lemma no_double_dot_app_r pre s : no_double_dot (pre ++ s) -> no_double_dot s.
Proof. induction pre as [|c t IH]; [done|]. intros [_ Ht]. auto. Qed.

Lemma ws_normal_app_r pre s : ws_normal (pre ++ s) -> ws_normal s.
Proof. induction pre as [|c t IH]; [done|]. intros [_ Ht]. auto. Qed.

Lemma rstrip_no_double_dot s : no_double_dot s -> no_double_dot (rstrip s).
Proof.
  induction s as [|c t IH]; [done|]. intros [Hc Ht]. simpl.
  destruct (rstrip t) as [|d r] eqn:E.
  - destruct (is_space c); [done|]. simpl. by rewrite andb_false_r.
  - split; [|by apply IH].
    apply rstrip_head in E as [t' ->]. exact Hc.
Qed.

Lemma rstrip_ws_normal s : ws_normal s -> ws_normal (rstrip s).
Proof.
  induction s as [|c t IH]; [done|]. intros [Hc Ht]. simpl.
  destruct (rstrip t) as [|d r] eqn:E.
  - destruct (is_space c) eqn:Ec; [done|]. simpl. split; [congruence|done].
  - split; [|by apply IH].
    apply rstrip_head in E as [t' ->]. exact Hc.
Qed.

Lemma strip_id s :
  head_is is_space s = false -> rstrip s = s -> strip s = s.
Proof. unfold strip. intros Hh Hr. by rewrite (lstrip_id s Hh). Qed.

Lemma strip_idem s : strip (strip s) = strip s.
Proof.
  apply strip_id; [|apply rstrip_idem].
  unfold strip. destruct (head_is is_space (rstrip (lstrip s))) eqn:E; [|done].
  apply head_is_rstrip in E. by rewrite lstrip_head in E.
Qed.

(** The cleaning steps leave a cleaned name as it is. *)
Lemma clean_idem filename : clean (clean filename) = clean filename.
Proof.
  pose proof (clean_safe filename) as Hsafe.
  assert (no_double_dot (clean filename)) as Hdd.
  { unfold clean, strip. apply rstrip_no_double_dot.
    destruct (lstrip_suffix
                (collapse_ws (collapse_dots
                   (remove_chars control_char
                      (remove_chars reserved_char filename))))) as [pre E].
    eapply (no_double_dot_app_r pre). rewrite <- E.
    apply collapse_ws_no_double_dot, collapse_dots_no_double_dot. }
  assert (ws_normal (clean filename)) as Hws.
  { unfold clean, strip. apply rstrip_ws_normal.
    destruct (lstrip_suffix
                (collapse_ws (collapse_dots
                   (remove_chars control_char
                      (remove_chars reserved_char filename))))) as [pre E].
    eapply (ws_normal_app_r pre). rewrite <- E.
    apply collapse_ws_ws_normal. }
  assert (strip (clean filename) = clean filename) as Hst.
  { unfold clean. apply strip_idem. }
  unfold clean at 1.
  rewrite (remove_chars_id reserved_char).
  2:{ eapply Forall_impl; [exact Hsafe|]. by intros c [? ?]. }
  rewrite (remove_chars_id control_char).
  2:{ eapply Forall_impl; [exact Hsafe|]. by intros c [? ?]. }
  rewrite (collapse_dots_id _ Hdd), (collapse_ws_id _ Hws). exact Hst.
Qed.

Lemma sanitize_short x :
  len (clean x) <= MAX_FILENAME_LENGTH ->
  _sanitize_filename x =
  if is_empty x then UNNAMED
  else if is_empty (clean x) then UNNAMED else clean x.
Proof.
  intros Hlen. unfold _sanitize_filename.
  by rewrite (limit_length_short _ Hlen).
Qed.

(** C6, as stated, fails: 254 letters, a space and one more letter are cut
    to 254 letters and the space, which a second pass trims away. *)
Lemma sanitize_not_idempotent :
  let x := repeat 97%N 254 ++ lit " b" in
  _sanitize_filename x = repeat 97%N 254 ++ lit " " ∧
  _sanitize_filename (_sanitize_filename x) = repeat 97%N 254 ∧
  _sanitize_filename (_sanitize_filename x) ≠ _sanitize_filename x.
Proof.
  split; [by vm_compute|]. split; [by vm_compute|].
  intros E. apply (f_equal length) in E. vm_compute in E. discriminate.
Qed.

(* ===================================================================== *)
(** ** Preview *)
(* ===================================================================== *)

Lemma pending_targets_app l1 l2 :
  pending_targets (l1 ++ l2) = pending_targets l1 ++ pending_targets l2.
Proof. unfold pending_targets. by rewrite List.filter_app, List.map_app. Qed.

Lemma elem_of_pending_targets x rows :
  x ∈ pending_targets rows <->
  exists i r, rows !! i = Some r ∧ row_status r = STATUS_PENDING ∧
              row_target r = x.
Proof.
  unfold pending_targets. rewrite list_elem_of_In, in_map_iff. split.
  - intros (r & <- & Hr). apply filter_In in Hr as [Hr Hp].
    apply list_elem_of_In, list_elem_of_lookup in Hr as [i Hi].
    exists i, r. repeat split; [done|]. by destruct (row_status r).
  - intros (i & r & Hi & Hp & <-). exists r. split; [done|].
    apply filter_In. split; [|by rewrite Hp].
    apply list_elem_of_In, list_elem_of_lookup. eauto.
Qed.

Section PreviewFacts.
Context `{Runtime}.
Implicit Types (cfg : config) (w : World) (st : preview_state).

(** The membership test of the source, read on the set. *)
Lemma in_preview_spec (reserved : gset str) c :
  in_preview reserved c = true <->
  exists fn, fn ∈ reserved ∧ lower fn = lower c.
Proof.
  unfold in_preview. rewrite existsb_exists. split.
  - intros (fn & Hin & Heq). exists fn.
    apply list_elem_of_In, elem_of_elements in Hin.
    unfold str_eqb in Heq. apply bool_decide_eq_true in Heq. done.
  - intros (fn & Hin & Heq). exists fn. split.
    + by apply list_elem_of_In, elem_of_elements.
    + unfold str_eqb. by apply bool_decide_eq_true.
Qed.

Lemma rows_resolved_snoc cfg w rows r :
  rows_resolved cfg w rows ->
  (row_status r = STATUS_SKIPPED ∨
   row_status r =
     resolve_status cfg w (list_to_set (pending_targets rows))
                    (row_target r)) ->
  rows_resolved cfg w (rows ++ [r]).
Proof.
  intros Hrows Hr j r' Hj.
  apply lookup_app_Some in Hj as [Hj|[Hlen Hj]].
  - rewrite take_app_le by (apply lookup_lt_Some in Hj; lia). eauto.
  - apply list_lookup_singleton_Some in Hj as [Hj <-].
    assert (j = length rows) as -> by lia.
    by rewrite take_app_length.
Qed.

Lemma preview_entry_inv cfg w name n base i item st :
  preview_inv cfg w st ->
  preview_inv cfg w (preview_entry cfg w name n base i item st).
Proof.
  intros [Hres Hrows]. unfold preview_entry, emit. split; simpl.
  - rewrite pending_targets_app. unfold pending_targets at 2. simpl.
    destruct (is_pending _); simpl; rewrite Hres.
    + rewrite list_to_set_app_L. simpl.
      apply set_eq. intros x. set_unfold. tauto.
    + by rewrite app_nil_r.
  - apply rows_resolved_snoc; [done|]. right. simpl. by rewrite Hres.
Qed.

Lemma preview_entries_inv cfg w name n base items :
  forall i st, preview_inv cfg w st ->
    preview_inv cfg w (preview_entries cfg w name n base i items st).
Proof.
  induction items as [|item rest IH]; intros i st Hst; simpl; [done|].
  by apply IH, preview_entry_inv.
Qed.

Lemma skip_entries_inv cfg w name base items :
  forall st, preview_inv cfg w st ->
    preview_inv cfg w (skip_entries name base items st).
Proof.
  unfold skip_entries.
  induction items as [|item rest IH]; intros st Hst; simpl; [done|].
  apply IH. destruct Hst as [Hres Hrows]. unfold emit. split; simpl.
  - rewrite pending_targets_app. unfold pending_targets at 2. simpl.
    by rewrite app_nil_r.
  - apply rows_resolved_snoc; [done|]. by left.
Qed.

Lemma preview_group_inv cfg w mapping st g :
  preview_inv cfg w st -> preview_inv cfg w (preview_group cfg w mapping st g).
Proof.
  intros Hst. destruct g as [name items]. unfold preview_group.
  destruct (_ && _).
  - by apply skip_entries_inv.
  - by apply preview_entries_inv.
Qed.

Lemma preview_groups_inv cfg w mapping groups :
  preview_inv cfg w (preview_groups cfg w mapping groups).
Proof.
  unfold preview_groups.
  assert (preview_inv cfg w
            {| target_filenames_in_preview := ∅; item_index := 1;
               preview_tree := [] |}) as Hinit.
  { split; [done|]. intros j r Hj. done. }
  revert Hinit. generalize {| target_filenames_in_preview := ∅;
                              item_index := 1; preview_tree := [] |}.
  induction groups as [|g rest IH]; intros st Hst; simpl; [done|].
  by apply IH, preview_group_inv.
Qed.

(** The table after a preview: the new rows, then the unmatched rows
    that were in the table before. *)
Lemma generate_preview_tree cfg w app :
  matched_files app ≠ [] ->
  tree (generate_preview cfg w app) =
  preview_tree (preview_groups cfg w (file_mapping app)
                               (matched_files app)) ++
  List.filter (fun r => is_unmatched (row_status r)) (tree app).
Proof.
  intros Hne. unfold generate_preview.
  destruct (matched_files app); [done|]. done.
Qed.

Lemma generated_row cfg w app j r :
  matched_files app ≠ [] ->
  tree (generate_preview cfg w app) !! j = Some r ->
  row_status r ≠ STATUS_UNMATCHED ->
  let rows := preview_tree (preview_groups cfg w (file_mapping app)
                                           (matched_files app)) in
  rows !! j = Some r ∧
  take j (tree (generate_preview cfg w app)) = take j rows.
Proof.
  intros Hne Hj Hst rows. rewrite generate_preview_tree in * by done.
  fold rows in Hj |- *.
  apply lookup_app_Some in Hj as [Hj|[Hlen Hj]].
  - split; [done|]. apply lookup_lt_Some in Hj.
    rewrite take_app_le by lia. done.
  - apply list_elem_of_lookup_2, list_elem_of_In, filter_In in Hj.
    destruct Hj as [_ Hu]. by destruct (row_status r).
Qed.

Lemma clash_spec rows j c :
  (exists fn, fn ∈ (list_to_set (pending_targets (take j rows)) : gset str) ∧
              lower fn = lower c) <->
  (exists i r', (i < j)%nat ∧ rows !! i = Some r' ∧
                row_status r' = STATUS_PENDING ∧
                lower (row_target r') = lower c).
Proof.
  split.
  - intros (fn & Hin & Heq).
    apply elem_of_list_to_set, elem_of_pending_targets in Hin
      as (i & r' & Hi & Hp & <-).
    apply lookup_take_Some in Hi as [Hi Hlt]. eauto 10.
  - intros (i & r' & Hlt & Hi & Hp & Heq). exists (row_target r').
    split; [|done].
    apply elem_of_list_to_set, elem_of_pending_targets.
    exists i, r'. split; [|done]. by apply lookup_take_Some.
Qed.
End PreviewFacts.

Section PreviewClaims.
Context `{Runtime}.
Implicit Types (cfg : config) (w : World) (st : preview_state).

Lemma preview_entries_rows cfg w name n base items :
  forall i0 st,
  exists rows,
    preview_tree (preview_entries cfg w name n base i0 items st) =
      preview_tree st ++ rows ∧
    length rows = length items ∧
    forall i item, items !! i = Some item ->
      exists r, rows !! i = Some r ∧ row_key r = name ∧
                row_source r = item ∧
                row_index r = item_index st + Z.of_nat i ∧
                row_target r = final_target_name_of cfg n base (i0 + i).
Proof.
  induction items as [|item rest IH]; intros i0 st.
  { exists []. simpl. rewrite app_nil_r. repeat split; [done..|].
    intros i item Hi. done. }
  cbn [preview_entries].
  destruct (IH (S i0) (preview_entry cfg w name n base i0 item st))
    as (rows & Htree & Hlen & Hrows).
  eexists (_ :: rows). split; [|split].
  - rewrite Htree. unfold preview_entry, emit. simpl.
    rewrite <- app_assoc. reflexivity.
  - simpl. by rewrite Hlen.
  - intros [|i] item' Hi.
    + injection Hi as <-. eexists. split; [reflexivity|]. simpl.
      rewrite Nat.add_0_r. repeat split. lia.
    + destruct (Hrows i item' Hi) as (r & Hr & Hk & Hs & Hidx & Ht).
      exists r. repeat split; try done.
      * rewrite Hidx. unfold preview_entry, emit. simpl. lia.
      * rewrite Ht. f_equal. lia.
Qed.

(** C2. In every preview generation the status of a candidate that is
    not skipped is settled in this order: equal, case-insensitively, to
    a name the run has reserved — preview conflict; otherwise present
    in the target folder — target exists; otherwise pending, and the
    name joins the reserved names.  First for one entry, against the set
    of the run; then for every row of a generated table, where the
    names reserved so far are the targets of the pending rows above. *)
Theorem preview_outcome_order cfg w :
  (forall name n base i item st,
     let c := final_target_name_of cfg n base i in
     let reserved := target_filenames_in_preview st in
     let st' := preview_entry cfg w name n base i item st in
     let clash := exists fn, fn ∈ reserved ∧ lower fn = lower c in
     let present :=
       path_exists w (path_join (target_folder_path cfg) c) in
     exists s,
       preview_tree st' =
         preview_tree st ++
         [{| row_index := item_index st; row_key := name;
             row_source := item; row_target := c; row_status := s |}] ∧
       (clash ->
          s = STATUS_PREVIEW_CONFLICT ∧
          target_filenames_in_preview st' = reserved) ∧
       (¬ clash -> present = true ->
          s = STATUS_TARGET_EXISTS ∧
          target_filenames_in_preview st' = reserved) ∧
       (¬ clash -> present = false ->
          s = STATUS_PENDING ∧
          target_filenames_in_preview st' = {[ c ]} ∪ reserved)) ∧
  (forall app j r,
     matched_files app ≠ [] ->
     tree (generate_preview cfg w app) !! j = Some r ->
     row_status r ≠ STATUS_SKIPPED ->
     row_status r ≠ STATUS_UNMATCHED ->
     let clash :=
       exists i r', (i < j)%nat ∧
         tree (generate_preview cfg w app) !! i = Some r' ∧
         row_status r' = STATUS_PENDING ∧
         lower (row_target r') = lower (row_target r) in
     let present :=
       path_exists w (path_join (target_folder_path cfg)
                                (row_target r)) in
     (clash -> row_status r = STATUS_PREVIEW_CONFLICT) ∧
     (¬ clash -> present = true -> row_status r = STATUS_TARGET_EXISTS) ∧
     (¬ clash -> present = false -> row_status r = STATUS_PENDING)).
Proof.
  split.
  - intros name n base i item st c reserved st' clash present.
    exists (resolve_status cfg w reserved c).
    split; [reflexivity|].
    subst st'. unfold preview_entry, emit. simpl.
    fold c. fold reserved. unfold resolve_status. fold present.
    destruct (in_preview reserved c) eqn:Ein.
    + apply in_preview_spec in Ein.
      repeat split; try done; intros Hn; by destruct Hn.
    + assert (¬ clash) as Hno.
      { intros Hc. apply in_preview_spec in Hc. congruence. }
      destruct present eqn:Ep; simpl; repeat split; try done.
  - intros app j r Hne Hj Hskip Hunm clash present.
    destruct (generated_row cfg w app j r Hne Hj Hunm) as [Hrow Htake].
    destruct (preview_groups_inv cfg w (file_mapping app)
                (matched_files app)) as [_ Hrows].
    destruct (Hrows j r Hrow) as [Hs|Hs]; [done|].
    assert (clash <->
            in_preview
              (list_to_set
                 (pending_targets
                    (take j (preview_tree
                               (preview_groups cfg w (file_mapping app)
                                  (matched_files app))))))
              (row_target r) = true) as Hclash.
    { rewrite in_preview_spec, clash_spec. subst clash.
      split; intros (i & r' & Hlt & Hi & Hrest); exists i, r';
        (split; [done|]); (split; [|done]).
      - rewrite <- (lookup_take_lt _ j i) in Hi by lia.
        rewrite Htake in Hi. by rewrite lookup_take_lt in Hi by lia.
      - rewrite <- (lookup_take_lt _ j i) by lia.
        rewrite Htake. by rewrite lookup_take_lt by lia. }
    unfold resolve_status in Hs. fold present in Hs.
    destruct (in_preview _ _) eqn:Ein.
    + repeat split; try done. all: intros Hn; destruct Hn; by apply Hclash.
    + assert (¬ clash) as Hno.
      { intros Hc. apply Hclash in Hc. congruence. }
      destruct present; repeat split; try done.
Qed.

(** C10. A name joins the reserved names only with a pending row: at
    the end of a preview run the reserved names are the targets of the
    pending rows of the table, and a row marked as a preview conflict
    always has above it a pending row with the same name up to case —
    never only a skipped, conflicting or already-existing one. *)
Theorem reserved_only_when_pending cfg w app :
  matched_files app ≠ [] ->
  let st := preview_groups cfg w (file_mapping app) (matched_files app) in
  let table := tree (generate_preview cfg w app) in
  (forall x, x ∈ target_filenames_in_preview st <->
             exists j r, table !! j = Some r ∧
                         row_status r = STATUS_PENDING ∧
                         row_target r = x) ∧
  (forall j r, table !! j = Some r ->
     row_status r = STATUS_PREVIEW_CONFLICT ->
     exists i r', (i < j)%nat ∧ table !! i = Some r' ∧
                  row_status r' = STATUS_PENDING ∧
                  lower (row_target r') = lower (row_target r)).
Proof.
  intros Hne st table.
  destruct (preview_groups_inv cfg w (file_mapping app)
              (matched_files app)) as [Hres Hrows].
  fold st in Hres, Hrows. split.
  - intros x. rewrite Hres, elem_of_list_to_set, elem_of_pending_targets.
    subst table. rewrite generate_preview_tree by done. fold st.
    split; intros (j & r & Hj & Hp & Ht).
    + exists j, r. split; [|done]. by apply lookup_app_l_Some.
    + apply lookup_app_Some in Hj as [Hj|[_ Hj]]; [eauto|].
      apply list_elem_of_lookup_2, list_elem_of_In, filter_In in Hj.
      destruct Hj as [_ Hu]. rewrite Hp in Hu. done.
  - intros j r Hj Hc.
    assert (row_status r ≠ STATUS_UNMATCHED) as Hunm by (by rewrite Hc).
    destruct (generated_row cfg w app j r Hne Hj Hunm) as [Hrow Htake].
    fold st in Hrow, Htake. fold table in Htake.
    destruct (Hrows j r Hrow) as [Hs|Hs]; [congruence|].
    rewrite Hc in Hs. unfold resolve_status in Hs.
    destruct (in_preview _ _) eqn:Ein.
    2:{ by destruct (path_exists _ _). }
    apply in_preview_spec, clash_spec in Ein
      as (i & r' & Hlt & Hi & Hrest).
    exists i, r'. split; [done|]. split; [|done].
    rewrite <- (lookup_take_lt _ j i) by lia.
    rewrite Htake. by rewrite lookup_take_lt by lia.
Qed.
End PreviewClaims.

Lemma preview_outcome_order_witness :
  row_status (mk_row 2 "B" "b.txt" "report.pdf" STATUS_PREVIEW_CONFLICT) =
  STATUS_PREVIEW_CONFLICT.
Proof.
  refine (proj1 (proj2 (@preview_outcome_order sim_runtime
                          scenario_config []) report_session 1%nat
                   (mk_row 2 "B" "b.txt" "report.pdf"
                           STATUS_PREVIEW_CONFLICT) _ _ _ _) _).
  - vm_compute. discriminate.
  - vm_compute. reflexivity.
  - vm_compute. discriminate.
  - vm_compute. discriminate.
  - exists 0%nat, (mk_row 1 "A" "a.txt" "Report.pdf" STATUS_PENDING).
    repeat split; [lia|vm_compute; reflexivity..].
Defined.

Lemma reserved_only_when_pending_witness :
  exists i r', (i < 1)%nat ∧
    tree (@generate_preview sim_runtime scenario_config [] report_session)
      !! i = Some r' ∧
    row_status r' = STATUS_PENDING ∧
    ascii_lower (row_target r') = ascii_lower (lit "report.pdf").
Proof.
  refine (proj2 (@reserved_only_when_pending sim_runtime scenario_config []
                   report_session _) 1%nat
            (mk_row 2 "B" "b.txt" "report.pdf" STATUS_PREVIEW_CONFLICT)
            _ _).
  - vm_compute. discriminate.
  - vm_compute. reflexivity.
  - vm_compute. reflexivity.
Defined.

(* ===================================================================== *)
(** ** Mapping load and validation *)
(* ===================================================================== *)

Lemma select_map_map {A B} (g : B -> bool) (h : A -> B) (l : list A) :
  select l (List.map g (List.map h l)) = List.filter (fun x => g (h x)) l.
Proof.
  induction l as [|x t IH]; simpl; [done|].
  destruct (g (h x)); by rewrite IH.
Qed.

Lemma occurrences_cons x y l :
  occurrences x (y :: l) =
  ((if str_eqb x y then 1 else 0) + occurrences x l)%nat.
Proof. unfold occurrences. simpl. by destruct (str_eqb x y). Qed.

Lemma occurrences_pos x l : (0 < occurrences x l)%nat <-> x ∈ l.
Proof.
  induction l as [|y t IH].
  { split; [by vm_compute; lia|by intros ?%not_elem_of_nil]. }
  rewrite occurrences_cons, elem_of_cons. unfold str_eqb.
  destruct (bool_decide_reflect (x = y)) as [->|Hne].
  - split; [by left|lia].
  - simpl. rewrite IH. intuition congruence.
Qed.

(** A value occurs more than once when it sits at two positions. *)
Lemma occurrences_twice x l :
  (1 < occurrences x l)%nat <->
  exists a b, a ≠ b ∧ l !! a = Some x ∧ l !! b = Some x.
Proof.
  induction l as [|y t IH].
  { split; [by vm_compute; lia|]. by intros (a & b & _ & Ha & _). }
  rewrite occurrences_cons. unfold str_eqb.
  destruct (bool_decide_reflect (x = y)) as [->|Hne]; split.
  - intros Hocc.
    assert (0 < occurrences y t)%nat as Hpos by lia.
    apply occurrences_pos, list_elem_of_lookup in Hpos as [b Hb].
    exists 0%nat, (S b). done.
  - intros (a & b & Hab & Ha & Hb).
    destruct a as [|a], b as [|b]; try done; simpl in *.
    + apply list_elem_of_lookup_2, occurrences_pos in Hb. lia.
    + apply list_elem_of_lookup_2, occurrences_pos in Ha. lia.
    + assert (1 < occurrences y t)%nat; [|lia].
      apply IH. exists a, b. split; [congruence|done].
  - simpl. intros (a & b & Hab & Ha & Hb)%IH.
    exists (S a), (S b). split; [congruence|done].
  - intros (a & b & Hab & Ha & Hb). simpl. apply IH.
    destruct a as [|a], b as [|b]; simpl in *; try congruence.
    exists a, b. split; [congruence|done].
Qed.

Lemma no_duplicates_NoDup (l : list str) :
  (forall x, x ∈ l -> ¬ (1 < occurrences x l)%nat) -> NoDup l.
Proof.
  intros Hocc. apply NoDup_alt. intros i j x Hi Hj.
  destruct (decide (i = j)) as [|Hne]; [done|].
  destruct (Hocc x); [by eapply list_elem_of_lookup_2|].
  apply occurrences_twice. eauto.
Qed.

Lemma elem_of_unique_from seen l x :
  x ∈ unique_from seen l <-> x ∈ l ∧ x ∉ seen.
Proof.
  revert seen. induction l as [|y t IH]; intros seen; simpl.
  { split; [by intros ?%not_elem_of_nil|by intros [?%not_elem_of_nil _]]. }
  destruct (bool_decide_reflect (y ∈ seen)) as [Hin|Hout].
  - rewrite IH, elem_of_cons. intuition congruence.
  - rewrite !elem_of_cons, IH, elem_of_cons.
    destruct (decide (x = y)) as [->|]; intuition congruence.
Qed.

Lemma unique_from_NoDup seen l : NoDup (unique_from seen l).
Proof.
  revert seen. induction l as [|y t IH]; intros seen; simpl; [constructor|].
  destruct (bool_decide (y ∈ seen)); [apply IH|].
  constructor; [|apply IH].
  rewrite elem_of_unique_from, elem_of_cons. intuition congruence.
Qed.

Lemma elem_of_unique l x : x ∈ unique l <-> x ∈ l.
Proof.
  unfold unique. rewrite elem_of_unique_from.
  split; [by intros [? _]|]. intros ?. split; [done|apply not_elem_of_nil].
Qed.

Lemma dict_set_fresh {V} (d : dict V) k v :
  k ∉ dict_keys d -> dict_set d k v = d ++ [(k, v)].
Proof.
  unfold dict_keys. induction d as [|[k' v'] t IH]; simpl; [done|].
  rewrite not_elem_of_cons. intros [Hne Ht]. unfold str_eqb.
  rewrite bool_decide_eq_false_2 by done. by rewrite IH.
Qed.

Lemma dict_of_distinct_rows (df : list (str * str)) :
  forall d, NoDup (dict_keys (d ++ df)) ->
    fold_left (fun d r => dict_set d r.1 r.2) df d = d ++ df.
Proof.
  induction df as [|[k v] t IH]; intros d Hnd; simpl.
  { by rewrite app_nil_r. }
  rewrite dict_set_fresh.
  - rewrite IH; rewrite <- app_assoc; done.
  - unfold dict_keys in *. rewrite List.map_app in Hnd. simpl in Hnd.
    apply NoDup_app in Hnd as (_ & Hdisj & _).
    intros Hin. apply (Hdisj k Hin). by left.
Qed.

Section LoadFacts.
Context `{Runtime}.

(** The rows the first check selects. *)
Lemma name_duplicates_spec (df : list (str * str)) :
  select df (duplicated (List.map (fun r => lower r.1) df)) =
  List.filter
    (fun r => (1 <? occurrences (lower r.1)
                      (List.map (fun r => lower r.1) df))%nat) df.
Proof.
  unfold duplicated.
  apply (select_map_map
           (fun x => (1 <? occurrences x
                             (List.map (fun r => lower r.1) df))%nat)
           (fun r : str * str => lower r.1)).
Qed.

Lemma lower_key_twice (df : list (str * str)) k :
  (1 < occurrences (lower k) (List.map (fun r => lower r.1) df))%nat <->
  exists a b ra rb, a ≠ b ∧ df !! a = Some ra ∧ df !! b = Some rb ∧
                    lower ra.1 = lower k ∧ lower rb.1 = lower k.
Proof.
  rewrite occurrences_twice. split.
  - intros (a & b & Hab & Ha & Hb).
    change (List.map ?f ?l) with (f <$> l) in Ha, Hb.
    apply list_lookup_fmap_Some in Ha as (ra & Hra & Ea).
    apply list_lookup_fmap_Some in Hb as (rb & Hrb & Eb).
    exists a, b, ra, rb. done.
  - intros (a & b & ra & rb & Hab & Ha & Hb & Ea & Eb).
    exists a, b. split; [done|].
    change (List.map ?f ?l) with (f <$> l).
    rewrite !list_lookup_fmap, Ha, Hb. simpl. by rewrite Ea, Eb.
Qed.

(** When the first check passes, the keys are pairwise distinct. *)
Lemma keys_distinct (df : list (str * str)) :
  select df (duplicated (List.map (fun r => lower r.1) df)) = [] ->
  NoDup (dict_keys df).
Proof.
  rewrite name_duplicates_spec. intros Hnil.
  apply NoDup_alt. intros i j k Hi Hj.
  destruct (decide (i = j)) as [|Hne]; [done|].
  unfold dict_keys in Hi, Hj.
  change (List.map ?f ?l) with (f <$> l) in Hi, Hj.
  apply list_lookup_fmap_Some in Hi as (ri & Hri & Ei).
  apply list_lookup_fmap_Some in Hj as (rj & Hrj & Ej).
  assert (ri ∈ List.filter
            (fun r => (1 <? occurrences (lower r.1)
                              (List.map (fun r => lower r.1) df))%nat) df)
    as Hin; [|rewrite Hnil in Hin; by apply not_elem_of_nil in Hin].
  apply list_elem_of_In, filter_In. split.
  - by eapply list_elem_of_In, list_elem_of_lookup_2.
  - apply Nat.ltb_lt, lower_key_twice.
    exists i, j, ri, rj. repeat split; try done. congruence.
Qed.

Lemma build_mapping_ok (df : list (str * str)) m :
  build_mapping df = inr m -> m = df ∧ NoDup (dict_keys df).
Proof.
  unfold build_mapping.
  destruct (select df (duplicated (List.map (fun r => lower r.1) df)))
    as [|r0 t0] eqn:E1; simpl; [|done].
  destruct (select df (duplicated (List.map snd df))); simpl; [|done].
  intros [= <-]. pose proof (keys_distinct df E1) as Hnd.
  split; [|done]. by rewrite (dict_of_distinct_rows df []).
Qed.

Lemma elem_of_trimmed_rows (rows : list raw_row) k v :
  (k, v) ∈ strip_columns (dropna rows) <->
  exists k0 v0, (Some k0, Some v0) ∈ rows ∧ k = strip k0 ∧ v = strip v0.
Proof.
  unfold strip_columns, dropna.
  change (List.map ?f ?l) with (f <$> l).
  rewrite list_elem_of_fmap. split.
  - intros ([k0 v0] & [= -> ->] & Hin).
    apply list_elem_of_omap in Hin as ([[k1|] [v1|]] & Hin & [= <- <-]).
    eauto.
  - intros (k0 & v0 & Hin & -> & ->). exists (k0, v0). split; [done|].
    apply list_elem_of_omap. exists (Some k0, Some v0). done.
Qed.

(** C4. When two of the rows that reach validation have keys equal up to
    case, the load fails with the key collision error: it reports the
    conflicting keys — every key that shares its lower-case form with
    another row — each once and in sorted order; no mapping is assigned
    (the previous one stays), and no match and no table row is left. *)
Theorem duplicate_keys_rejected (cfg : config) (rows : list raw_row)
    (source_items : list str) (app : session)
    (a b : nat) (ra rb : str * str) :
  let df := strip_columns (dropna rows) in
  a ≠ b -> df !! a = Some ra -> df !! b = Some rb ->
  lower ra.1 = lower rb.1 ->
  exists names,
    load_mapping rows = inl (DuplicateKey names) ∧
    StronglySorted str_le names ∧ NoDup names ∧
    (forall k, k ∈ names <->
       exists i j ri rj, i ≠ j ∧ df !! i = Some ri ∧ df !! j = Some rj ∧
                         ri.1 = k ∧ lower rj.1 = lower k) ∧
    load_files cfg rows source_items app =
      ({| file_mapping := file_mapping app; matched_files := [];
          tree := [] |}, Some (DuplicateKey names)).
Proof.
  intros df Hab Ha Hb Hlow.
  set (dups := List.filter
       (fun r => (1 <? occurrences (lower r.1)
                         (List.map (fun r => lower r.1) df))%nat) df).
  assert (ra ∈ dups) as Hra.
  { apply list_elem_of_In, filter_In. split.
    - by eapply list_elem_of_In, list_elem_of_lookup_2.
    - apply Nat.ltb_lt, lower_key_twice. exists a, b, ra, rb. done. }
  assert (load_mapping rows =
          inl (DuplicateKey (sorted (unique (List.map fst dups))))) as Hload.
  { unfold load_mapping, build_mapping. fold df.
    rewrite name_duplicates_spec. fold dups.
    destruct dups; [by apply not_elem_of_nil in Hra|done]. }
  exists (sorted (unique (List.map fst dups))).
  split; [done|]. split; [apply sorted_sorted|]. split; [|split].
  - rewrite sorted_perm. apply unique_from_NoDup.
  - intros k. rewrite sorted_perm, elem_of_unique.
    change (List.map ?f ?l) with (f <$> l). rewrite list_elem_of_fmap.
    split.
    + intros (r & -> & Hr). apply list_elem_of_In, filter_In in Hr.
      destruct Hr as [Hr Hocc].
      apply list_elem_of_In, list_elem_of_lookup in Hr as [i Hi].
      apply Nat.ltb_lt, lower_key_twice in Hocc
        as (x & y & rx & ry & Hxy & Hx & Hy & Ex & Ey).
      destruct (decide (x = i)) as [->|Hne].
      * exists i, y, r, ry. done.
      * exists i, x, r, rx. done.
    + intros (i & j & ri & rj & Hij & Hi & Hj & <- & Hl).
      exists ri. split; [done|].
      apply list_elem_of_In, filter_In. split.
      * by eapply list_elem_of_In, list_elem_of_lookup_2.
      * apply Nat.ltb_lt, lower_key_twice. exists i, j, ri, rj. done.
  - unfold load_files. by rewrite Hload.
Qed.

End LoadFacts.

Lemma duplicate_keys_rejected_witness :
  exists names,
    @load_mapping sim_runtime
      [(Some (lit "b"), Some (lit "x.pdf")); (Some (lit "A "), Some (lit "y.pdf"));
       (None, Some (lit "w.pdf")); (Some (lit " a"), Some (lit "z.pdf"))]
    = inl (DuplicateKey names) ∧ names = [lit "A"; lit "a"].
Proof.
  destruct (@duplicate_keys_rejected sim_runtime scenario_config
              [(Some (lit "b"), Some (lit "x.pdf"));
               (Some (lit "A "), Some (lit "y.pdf"));
               (None, Some (lit "w.pdf"));
               (Some (lit " a"), Some (lit "z.pdf"))]
              [] empty_session 1%nat 2%nat
              (lit "A", lit "y.pdf") (lit "a", lit "z.pdf"))
    as (names & Hload & _).
  - lia.
  - vm_compute. reflexivity.
  - vm_compute. reflexivity.
  - vm_compute. reflexivity.
  - exists names. split; [exact Hload|].
    vm_compute in Hload. injection Hload as <-. reflexivity.
Defined.

(** C5, as stated, fails: a key or a target made of blanks only is a
    present cell; it is trimmed to the empty string and stays in the
    mapping. *)
Lemma blank_fields_kept :
  @load_mapping sim_runtime
    [(Some (lit "  "), Some (lit "x.pdf")); (Some (lit "k"), Some (lit " "))]
  = inr [([], lit "x.pdf"); (lit "k", [])].
Proof. vm_compute. reflexivity. Qed.

(* ===================================================================== *)
(** ** Execution *)
(* ===================================================================== *)

Section ExecuteFacts.
Context `{Runtime}.
Implicit Types (cfg : config) (st : execute_state) (r : tree_row).

(** The three ways the loop body treats a pending record, and the one way
    it treats any other. *)
Lemma execute_row_not_pending cfg st r :
  is_pending (row_status r) = false ->
  execute_row cfg st r =
  {| ex_world := ex_world st; ex_calls := ex_calls st;
     ex_counts := if counted_as_skipped r then add_skip (ex_counts st)
                  else ex_counts st;
     ex_tree := ex_tree st ++ [r] |}.
Proof.
  intros Hp. unfold execute_row, counted_as_skipped. by rewrite Hp.
Qed.

Lemma execute_row_target_exists cfg st r :
  is_pending (row_status r) = true ->
  path_exists (ex_world st) (dst_path_of cfg r) = true ->
  execute_row cfg st r =
  fail_row st (ex_world st) (ex_calls st) r MSG_TARGET_EXISTS.
Proof. intros Hp Hd. unfold execute_row. by rewrite Hp, Hd. Qed.

Lemma execute_row_source_missing cfg st r :
  is_pending (row_status r) = true ->
  path_exists (ex_world st) (dst_path_of cfg r) = false ->
  path_exists (ex_world st) (src_path_of cfg r) = false ->
  execute_row cfg st r =
  fail_row st (ex_world st) (ex_calls st) r MSG_SOURCE_MISSING.
Proof. intros Hp Hd Hs. unfold execute_row. by rewrite Hp, Hd, Hs. Qed.

Lemma execute_row_attempt cfg st r :
  is_pending (row_status r) = true ->
  path_exists (ex_world st) (dst_path_of cfg r) = false ->
  path_exists (ex_world st) (src_path_of cfg r) = true ->
  ex_calls (execute_row cfg st r) = ex_calls st ++ [record_action cfg r] ∧
  exists s, ex_tree (execute_row cfg st r) = ex_tree st ++ [set_status r s] ∧
            (s = STATUS_SUCCESS ∨ exists detail, s = STATUS_ERROR detail).
Proof.
  intros Hp Hd Hs. unfold execute_row. rewrite Hp, Hd, Hs. simpl.
  destruct (perform _ _) as [w' [msg|]]; simpl; split; eauto.
Qed.

(** One step of the loop, summed up. *)
Lemma execute_row_step cfg st r :
  exists r' acts,
    ex_tree (execute_row cfg st r) = ex_tree st ++ [r'] ∧
    row_result r r' ∧
    ex_calls (execute_row cfg st r) = ex_calls st ++ acts ∧
    (acts = [] ∨
     (row_status r = STATUS_PENDING ∧ acts = [record_action cfg r])) ∧
    skip_count (ex_counts (execute_row cfg st r)) =
      skip_count (ex_counts st) + (if counted_as_skipped r then 1 else 0) ∧
    success_count (ex_counts (execute_row cfg st r)) +
      error_count (ex_counts (execute_row cfg st r)) =
      success_count (ex_counts st) + error_count (ex_counts st) +
      (if is_pending (row_status r) then 1 else 0).
Proof.
  unfold row_result.
  destruct (is_pending (row_status r)) eqn:Hp.
  - assert (row_status r = STATUS_PENDING) as Hst
      by (by destruct (row_status r)).
    assert (counted_as_skipped r = false) as Hc
      by (unfold counted_as_skipped; by rewrite Hp).
    rewrite Hc. unfold execute_row. rewrite Hp. simpl.
    destruct (path_exists (ex_world st) (dst_path_of cfg r)).
    { eexists _, []. simpl. rewrite app_nil_r.
      repeat split; eauto; simpl; lia. }
    destruct (path_exists (ex_world st) (src_path_of cfg r)); simpl.
    2:{ eexists _, []. simpl. rewrite app_nil_r.
        repeat split; eauto; simpl; lia. }
    destruct (perform _ _) as [w' [msg|]]; simpl;
      eexists _, [_]; repeat split; eauto; simpl; lia.
  - rewrite (execute_row_not_pending cfg st r Hp). simpl.
    exists r, []. rewrite app_nil_r. repeat split; eauto.
    + destruct (counted_as_skipped r); simpl; lia.
    + destruct (counted_as_skipped r); simpl; lia.
Qed.

Lemma execute_rows_app cfg l1 l2 st :
  execute_rows cfg (l1 ++ l2) st =
  execute_rows cfg l2 (execute_rows cfg l1 st).
Proof. unfold execute_rows. apply fold_left_app. Qed.

Lemma execute_rows_snoc cfg l r st :
  execute_rows cfg (l ++ [r]) st = execute_row cfg (execute_rows cfg l st) r.
Proof. by rewrite execute_rows_app. Qed.

(** The loop, summed up. *)
Lemma execute_rows_run cfg rows :
  forall st,
  exists rows' acts,
    ex_tree (execute_rows cfg rows st) = ex_tree st ++ rows' ∧
    Forall2 row_result rows rows' ∧
    ex_calls (execute_rows cfg rows st) = ex_calls st ++ acts ∧
    Forall (fun a => exists r, r ∈ rows ∧ row_status r = STATUS_PENDING ∧
                               a = record_action cfg r) acts ∧
    skip_count (ex_counts (execute_rows cfg rows st)) =
      skip_count (ex_counts st) +
      Z.of_nat (length (List.filter counted_as_skipped rows)) ∧
    success_count (ex_counts (execute_rows cfg rows st)) +
      error_count (ex_counts (execute_rows cfg rows st)) =
      success_count (ex_counts st) + error_count (ex_counts st) +
      Z.of_nat (length (List.filter (fun r => is_pending (row_status r))
                                    rows)).
Proof.
  induction rows as [|r rest IH]; intros st.
  { exists [], []. simpl. rewrite !app_nil_r.
    repeat split; try done; try constructor; lia. }
  change (execute_rows cfg (r :: rest) st)
    with (execute_rows cfg rest (execute_row cfg st r)).
  destruct (execute_row_step cfg st r)
    as (r' & a1 & Ht1 & Hr1 & Hc1 & Ha1 & Hs1 & Hp1).
  destruct (IH (execute_row cfg st r))
    as (rows' & a2 & Ht2 & Hr2 & Hc2 & Ha2 & Hs2 & Hp2).
  exists (r' :: rows'), (a1 ++ a2). split; [|split; [|split; [|split; [|split]]]].
  - rewrite Ht2, Ht1, <- app_assoc. done.
  - by constructor.
  - rewrite Hc2, Hc1, <- app_assoc. done.
  - apply Forall_app. split.
    + destruct Ha1 as [->|[Hst ->]]; [constructor|].
      repeat constructor. exists r. split; [by left|done].
    + eapply Forall_impl; [exact Ha2|].
      intros a (r0 & Hin & Hrest). exists r0. split; [by right|done].
  - rewrite Hs2, Hs1. simpl.
    destruct (counted_as_skipped r); simpl; lia.
  - rewrite Hp2, Hp1. simpl.
    destruct (is_pending (row_status r)); simpl; lia.
Qed.

Lemma execute_rows_length cfg rows st :
  length (ex_tree (execute_rows cfg rows st)) =
  (length (ex_tree st) + length rows)%nat.
Proof.
  destruct (execute_rows_run cfg rows st) as (rows' & _ & Ht & Hr & _).
  rewrite Ht, length_app. by rewrite (Forall2_length _ _ _ Hr).
Qed.

(** The rows written by a prefix of the loop are not touched later. *)
Lemma execute_rows_prefix cfg rows st i r' :
  ex_tree st = [] ->
  (i < length rows)%nat ->
  ex_tree (execute_rows cfg (take (S i) rows) st) !! i = Some r' ->
  ex_tree (execute_rows cfg rows st) !! i = Some r'.
Proof.
  intros Hst Hi Hl.
  rewrite <- (take_drop (S i) rows) at 1. rewrite execute_rows_app.
  destruct (execute_rows_run cfg (drop (S i) rows)
              (execute_rows cfg (take (S i) rows) st))
    as (rows' & _ & Ht & _).
  rewrite Ht. by apply lookup_app_l_Some.
Qed.
End ExecuteFacts.

Section ExecuteClaims.
Context `{Runtime}.
Implicit Types (cfg : config) (st : execute_state) (r : tree_row).

Lemma execute_prefix_row cfg rows st i r r' :
  ex_tree st = [] ->
  rows !! i = Some r ->
  ex_tree (execute_row cfg (execute_rows cfg (take i rows) st) r) =
    ex_tree (execute_rows cfg (take i rows) st) ++ [r'] ->
  ex_tree (execute_rows cfg rows st) !! i = Some r'.
Proof.
  intros Hst Hi Hrow.
  pose proof (lookup_lt_Some _ _ _ Hi) as Hlt.
  apply execute_rows_prefix; [done..|].
  rewrite (take_S_r _ _ _ Hi), execute_rows_snoc, Hrow.
  pose proof (execute_rows_length cfg (take i rows) st) as Hlen.
  rewrite Hst, length_take in Hlen. simpl in Hlen.
  rewrite lookup_app_r by lia.
  replace (i - _)%nat with 0%nat by lia. done.
Qed.

(** C9, as the code has it. When every record is successful, skipped or
    failed, a call of execute makes no call to the file system, changes
    neither the session nor the file system, and ends on the warning that
    nothing is pending: the loop and its counters are not reached, and no
    summary is produced. *)
Theorem execute_nothing_pending cfg (confirmed : bool) (w : World)
    (app : session) :
  Forall (fun r => is_terminal (row_status r) = true) (tree app) ->
  calls_made (execute_rename cfg confirmed w app) = [] ∧
  after_world (execute_rename cfg confirmed w app) = w ∧
  after_session (execute_rename cfg confirmed w app) = app ∧
  ending (execute_rename cfg confirmed w app) = NoPendingItems.
Proof.
  intros Hall. unfold execute_rename.
  assert (List.filter (fun r => is_pending (row_status r)) (tree app) = [])
    as ->; [|done].
  induction Hall as [|r rest Hr Hrest IH]; simpl; [done|].
  destruct (row_status r); try done.
Qed.

(** On a table that holds no successful and no failed record, as a fresh
    preview does, the skipped count is the number of records that are not
    pending. *)
Lemma skipped_count_without_terminal (rows : list tree_row) :
  Forall (fun r => is_success (row_status r) = false ∧
                   is_error (row_status r) = false) rows ->
  List.filter counted_as_skipped rows =
  List.filter (fun r => negb (is_pending (row_status r))) rows.
Proof.
  induction 1 as [|r rest [Hs He] Hrest IH]; simpl; [done|].
  unfold counted_as_skipped at 1. rewrite Hs, He, IH.
  by destruct (is_pending (row_status r)).
Qed.
End ExecuteClaims.

Lemma execute_nothing_pending_witness :
  calls_made (@execute_rename sim_runtime scenario_config true scenario_world
                finished_session) = [] ∧
  after_world (@execute_rename sim_runtime scenario_config true
                 scenario_world finished_session) = scenario_world ∧
  after_session (@execute_rename sim_runtime scenario_config true
                   scenario_world finished_session) = finished_session ∧
  ending (@execute_rename sim_runtime scenario_config true scenario_world
            finished_session) = NoPendingItems.
Proof.
  apply (@execute_nothing_pending sim_runtime scenario_config true
           scenario_world finished_session).
  repeat constructor.
Defined.

(** C9, as stated, fails: on a table whose records are all successful,
    skipped or failed the call ends on the warning and gives no summary,
    so none with three zero counts. *)
Lemma no_summary_when_nothing_pending :
  ending (@execute_rename sim_runtime scenario_config true scenario_world
            finished_session) = NoPendingItems ∧
  ending (@execute_rename sim_runtime scenario_config true scenario_world
            finished_session) ≠ Completed no_counts.
Proof. split; [vm_compute; reflexivity|vm_compute; discriminate]. Qed.

(* ===================================================================== *)
(** ** Sanitizer: blank input, fixed points, truncation *)
(* ===================================================================== *)

Lemma remove_chars_Forall_and (P : N -> Prop) cls s :
  Forall P s -> Forall (fun c => P c ∧ cls c = false) (remove_chars cls s).
Proof.
  unfold remove_chars. induction 1 as [|c t Hc Ht IH]; simpl; [constructor|].
  destruct (cls c) eqn:E; simpl; auto.
Qed.

Lemma lstrip_all_space s :
  Forall (fun c => is_space c = true) s -> lstrip s = [].
Proof. induction 1 as [|c t Hc Ht IH]; simpl; [done|]. by rewrite Hc. Qed.

Lemma clean_blank x : Forall blank_char x -> clean x = [].
Proof.
  intros Hx. unfold clean, strip. rewrite lstrip_all_space; [done|].
  apply collapse_ws_Forall; [done|]. apply collapse_dots_Forall.
  eapply Forall_impl.
  { apply remove_chars_Forall_and, remove_chars_Forall_and, Hx. }
  intros c [[Hb Hr] Hc]. simpl in *.
  destruct Hb as [Hb|[Hb|Hb]]; congruence.
Qed.

(** X1. A name made only of characters that the cleaning deletes or trims
    (reserved characters, control characters, white space), the empty
    name included, is replaced by the fallback label. *)
Theorem sanitize_blank_is_unnamed (x : str) :
  Forall blank_char x -> _sanitize_filename x = UNNAMED.
Proof.
  intros Hx. unfold _sanitize_filename.
  destruct (is_empty x); [done|].
  rewrite (clean_blank x Hx). reflexivity.
Qed.

Lemma sanitize_blank_is_unnamed_witness :
  _sanitize_filename (lit " <?>  * ") = UNNAMED.
Proof.
  apply sanitize_blank_is_unnamed.
  repeat constructor; vm_compute; tauto.
Defined.

Lemma clean_is_clean_name x : clean_name (clean x).
Proof.
  pose proof (lstrip_suffix
                (collapse_ws (collapse_dots
                   (remove_chars control_char
                      (remove_chars reserved_char x))))) as [pre E].
  split; [apply clean_safe|]. split; [|split; [|split]].
  - unfold clean, strip. apply rstrip_no_double_dot.
    eapply (no_double_dot_app_r pre). rewrite <- E.
    apply collapse_ws_no_double_dot, collapse_dots_no_double_dot.
  - unfold clean, strip. apply rstrip_ws_normal.
    eapply (ws_normal_app_r pre). rewrite <- E.
    apply collapse_ws_ws_normal.
  - unfold clean, strip.
    destruct (head_is is_space (rstrip (lstrip _))) eqn:Eh; [|done].
    apply head_is_rstrip in Eh. by rewrite lstrip_head in Eh.
  - unfold clean, strip. apply rstrip_idem.
Qed.

Lemma clean_fixed s : clean_name s -> clean s = s.
Proof.
  intros (Hsafe & Hdd & Hws & Hhead & Hr). unfold clean.
  rewrite (remove_chars_id reserved_char).
  2:{ eapply Forall_impl; [exact Hsafe|]. by intros c [? ?]. }
  rewrite (remove_chars_id control_char).
  2:{ eapply Forall_impl; [exact Hsafe|]. by intros c [? ?]. }
  rewrite (collapse_dots_id _ Hdd), (collapse_ws_id _ Hws).
  by apply strip_id.
Qed.

(** The cleaning steps never make a name longer. *)
Lemma remove_chars_length cls s :
  (length (remove_chars cls s) <= length s)%nat.
Proof.
  unfold remove_chars. induction s as [|c t IH]; simpl; [lia|].
  destruct (cls c); simpl; lia.
Qed.

Lemma collapse_dots_length s : (length (collapse_dots s) <= length s)%nat.
Proof.
  induction s as [|c t IH]; [done|].
  cbn [collapse_dots]. destruct t as [|d t']; [done|].
  destruct (is_dot c && is_dot d); cbn [length] in *; lia.
Qed.

Lemma collapse_ws_length s : (length (collapse_ws s) <= length s)%nat.
Proof.
  induction s as [|c t IH]; [done|].
  rewrite collapse_ws_cons. destruct (is_space c).
  - destruct t as [|d t']; [done|].
    destruct (is_space d); cbn [length] in *; lia.
  - cbn [length]. lia.
Qed.

Lemma lstrip_length s : (length (lstrip s) <= length s)%nat.
Proof.
  induction s as [|c t IH]; simpl; [lia|].
  destruct (is_space c); simpl; lia.
Qed.

Lemma rstrip_length s : (length (rstrip s) <= length s)%nat.
Proof.
  induction s as [|c t IH]; simpl; [lia|].
  destruct (rstrip t); [destruct (is_space c)|]; simpl in *; lia.
Qed.

Lemma clean_length x : len (clean x) <= len x.
Proof.
  unfold clean, strip, len.
  pose proof (remove_chars_length reserved_char x).
  pose proof (remove_chars_length control_char
                (remove_chars reserved_char x)).
  pose proof (collapse_dots_length
                (remove_chars control_char (remove_chars reserved_char x))).
  pose proof (collapse_ws_length
                (collapse_dots (remove_chars control_char
                                  (remove_chars reserved_char x)))).
  pose proof (lstrip_length
                (collapse_ws (collapse_dots
                   (remove_chars control_char
                      (remove_chars reserved_char x))))).
  pose proof (rstrip_length
                (lstrip (collapse_ws (collapse_dots
                   (remove_chars control_char
                      (remove_chars reserved_char x)))))).
  lia.
Qed.

Lemma UNNAMED_clean_name : clean_name UNNAMED.
Proof.
  split; [apply UNNAMED_safe|]. vm_compute.
  repeat split; try done; intros; discriminate.
Qed.

(** X2. The names the sanitizer returns unchanged are exactly the
    non-empty names of at most 255 code points that are already clean: no
    reserved or control character, no two adjacent dots, white space only
    as single spaces, none at either end. *)
Theorem sanitize_fixed_points (s : str) :
  _sanitize_filename s = s <->
  s ≠ [] ∧ len s <= MAX_FILENAME_LENGTH ∧ clean_name s.
Proof.
  split.
  - intros Hfix.
    assert (s ≠ []) as Hne.
    { intros ->. vm_compute in Hfix. discriminate. }
    assert (len s <= MAX_FILENAME_LENGTH) as Hlen.
    { rewrite <- Hfix. unfold _sanitize_filename.
      destruct (is_empty s); [by vm_compute|].
      destruct (is_empty (limit_length (clean s)));
        [by vm_compute|apply limit_length_le]. }
    split; [done|]. split; [done|].
    pose proof (clean_length s) as Hcl.
    rewrite sanitize_short in Hfix by lia.
    destruct s as [|c r]; [done|]. cbn [is_empty is_empty_list] in Hfix.
    destruct (clean (c :: r)) as [|c' r'] eqn:E.
    + cbn [is_empty is_empty_list] in Hfix. rewrite <- Hfix.
      apply UNNAMED_clean_name.
    + cbn [is_empty is_empty_list] in Hfix. rewrite <- Hfix, <- E.
      apply clean_is_clean_name.
  - intros (Hne & Hlen & Hclean).
    pose proof (clean_fixed s Hclean) as Hfix.
    rewrite sanitize_short by (rewrite Hfix; done).
    rewrite Hfix. by destruct s.
Qed.

Lemma sanitize_fixed_points_witness :
  _sanitize_filename (lit "ab.c d.txt") = lit "ab.c d.txt".
Proof.
  apply (proj2 (sanitize_fixed_points (lit "ab.c d.txt"))).
  split; [discriminate|]. split; [vm_compute; discriminate|].
  split; [repeat constructor|].
  vm_compute. repeat split; try done; intros; discriminate.
Defined.

(** X3. A cleaned name longer than 255 code points is cut to exactly 255:
    when its extension is shorter than 255 the extension is kept whole and
    the part before it is cut; otherwise the whole name is cut. *)
Theorem sanitize_truncation (x name ext : str) :
  splitext (clean x) = (name, ext) ->
  MAX_FILENAME_LENGTH < len (clean x) ->
  len (_sanitize_filename x) = MAX_FILENAME_LENGTH ∧
  (len ext < MAX_FILENAME_LENGTH ->
     _sanitize_filename x =
       take (Z.to_nat (MAX_FILENAME_LENGTH - len ext)) name ++ ext) ∧
  (MAX_FILENAME_LENGTH <= len ext ->
     _sanitize_filename x = take 255 (clean x)).
Proof.
  intros Hsplit Hlong.
  assert (x ≠ []) as Hx.
  { intros ->. vm_compute in Hlong. discriminate. }
  pose proof (splitext_app _ _ _ Hsplit) as Happ.
  assert (len (clean x) = len name + len ext) as Hlen.
  { rewrite Happ. unfold len. rewrite length_app. lia. }
  assert (forall l : str, length l = 255%nat ->
            (if is_empty l then UNNAMED else l) = l) as Hkeep.
  { intros [|c l] Hl; [done|done]. }
  unfold _sanitize_filename. destruct x as [|c0 x']; [done|].
  cbn [is_empty is_empty_list]. fold (is_empty (limit_length (clean (c0 :: x')))).
  unfold limit_length. rewrite Hsplit.
  destruct (Z.ltb_spec MAX_FILENAME_LENGTH (len (clean (c0 :: x'))));
    [|lia].
  unfold MAX_FILENAME_LENGTH, len in *.
  destruct (Z.ltb_spec 0 (255 - Z.of_nat (length ext))).
  - assert (length (take (Z.to_nat (255 - Z.of_nat (length ext))) name
                    ++ ext) = 255%nat) as Hl.
    { rewrite length_app, length_take. lia. }
    rewrite (Hkeep _ Hl). rewrite Hl.
    split; [lia|]. split; [done|lia].
  - assert (length (take (Z.to_nat 255) (clean (c0 :: x'))) = 255%nat)
      as Hl.
    { rewrite length_take. lia. }
    rewrite (Hkeep _ Hl). rewrite Hl.
    split; [lia|]. split; [lia|done].
Qed.

Lemma sanitize_truncation_witness :
  len (_sanitize_filename (repeat 97%N 300 ++ lit ".txt")) = 255 ∧
  _sanitize_filename (repeat 97%N 300 ++ lit ".txt") =
    take (Z.to_nat (255 - len (lit ".txt"))) (repeat 97%N 300) ++ lit ".txt".
Proof.
  destruct (sanitize_truncation (repeat 97%N 300 ++ lit ".txt")
              (repeat 97%N 300) (lit ".txt")) as (Hl & Hk & _).
  - vm_compute. reflexivity.
  - vm_compute. reflexivity.
  - split; [exact Hl|]. apply Hk. vm_compute. reflexivity.
Defined.

(* ===================================================================== *)
(** ** Matching: what the loop computes *)
(* ===================================================================== *)

Lemma group_of_dict_append (d : dict (list str)) name x k :
  group_of (dict_append d name x) k =
  if str_eqb k name then group_of d k ++ [x] else group_of d k.
Proof.
  unfold group_of. induction d as [|[k' l] t IH]; cbn [dict_append dict_get].
  - destruct (str_eqb k name); reflexivity.
  - unfold str_eqb in *.
    destruct (bool_decide_reflect (name = k')) as [->|Hn];
      cbn [dict_get]; unfold str_eqb.
    + destruct (bool_decide_reflect (k = k')); reflexivity.
    + destruct (bool_decide_reflect (k = k')) as [->|Hk].
      * rewrite bool_decide_eq_false_2 by done. reflexivity.
      * exact IH.
Qed.

Lemma all_matched_dict_append (d : dict (list str)) name x :
  all_matched (dict_append d name x) ≡ₚ x :: all_matched d.
Proof.
  unfold all_matched. induction d as [|[k' l] t IH]; simpl; [done|].
  destruct (str_eqb name k'); simpl.
  - rewrite <- app_assoc. simpl.
    by rewrite <- Permutation_middle.
  - rewrite IH. by rewrite <- Permutation_middle.
Qed.

Lemma dict_keys_dict_append (d : dict (list str)) name x :
  dict_keys (dict_append d name x) =
  if bool_decide (name ∈ dict_keys d) then dict_keys d
  else dict_keys d ++ [name].
Proof.
  unfold dict_keys. induction d as [|[k' l] t IH]; simpl; [done|].
  unfold str_eqb. destruct (bool_decide_reflect (name = k')) as [->|Hn]; simpl.
  - rewrite bool_decide_eq_true_2 by (by left). done.
  - rewrite IH. destruct (bool_decide_reflect (name ∈ List.map fst t)).
    + rewrite bool_decide_eq_true_2 by (by right). done.
    + rewrite bool_decide_eq_false_2; [done|].
      rewrite elem_of_cons. tauto.
Qed.

Lemma elem_of_dict_append (d : dict (list str)) name x k l :
  (k, l) ∈ dict_append d name x ->
  (k, l) ∈ d ∨ (k = name ∧ exists l0, l = l0 ++ [x]).
Proof.
  induction d as [|[k' l'] t IH]; simpl.
  - intros Hin%list_elem_of_singleton. injection Hin as -> ->.
    right. split; [done|]. by exists [].
  - unfold str_eqb. destruct (bool_decide_reflect (name = k')) as [->|Hn].
    + rewrite !elem_of_cons. intros [[= -> ->]|Hin]; [|by left; right].
      right. split; [done|]. by exists l'.
    + rewrite !elem_of_cons. intros [Heq|Hin]; [by left; left|].
      destruct (IH Hin) as [?|?]; [left; by right|by right].
Qed.

Lemma filter_nil_iff {A} (f : A -> bool) (l : list A) :
  List.filter f l = [] <-> forall x, x ∈ l -> f x = false.
Proof.
  induction l as [|y t IH]; simpl.
  { split; [by intros _ x ?%not_elem_of_nil|done]. }
  destruct (f y) eqn:E.
  - split; [done|]. intros Hall. rewrite Hall in E; [done|by left].
  - rewrite IH. split.
    + intros Hall x [->|Hx]%elem_of_cons; auto.
    + intros Hall x Hx. apply Hall. by right.
Qed.

Lemma filter_partition_perm {A} (f : A -> bool) (l : list A) :
  List.filter f l ++ List.filter (fun x => negb (f x)) l ≡ₚ l.
Proof.
  induction l as [|x t IH]; simpl; [done|].
  destruct (f x); simpl.
  - by rewrite IH.
  - rewrite <- Permutation_middle. by rewrite IH.
Qed.

Lemma find_split {A} (f : A -> bool) (l : list A) x :
  List.find f l = Some x ->
  exists pre post, l = pre ++ x :: post ∧
                   Forall (fun y => f y = false) pre ∧ f x = true.
Proof.
  induction l as [|y t IH]; simpl; [done|].
  destruct (f y) eqn:E.
  - intros [= <-]. exists [], t. done.
  - intros (pre & post & -> & Hpre & Hx)%IH.
    exists (y :: pre), post. split; [done|]. split; [by constructor|done].
Qed.

Lemma existsb_perm {A} (f : A -> bool) (l1 l2 : list A) :
  l1 ≡ₚ l2 -> existsb f l1 = existsb f l2.
Proof.
  induction 1 as [|x l1 l2 _ IH|x y l|l1 l2 l3 _ IH1 _ IH2]; simpl.
  - done.
  - by rewrite IH.
  - destruct (f x), (f y); done.
  - congruence.
Qed.

Lemma find_none_existsb {A} (f : A -> bool) (l : list A) :
  match List.find f l with Some _ => true | None => false end = existsb f l.
Proof. induction l as [|x t IH]; simpl; [done|]. by destruct (f x). Qed.

(** Keys of one length keep the order they have in the mapping. *)
Lemma insert_sorted_len_stable (n : Z) x (l : list str) :
  List.filter (fun k => len k =? n)
    (insert_sorted (fun y x => len x <? len y) x l) =
  List.filter (fun k => len k =? n) (x :: l).
Proof.
  induction l as [|y t IH]; [done|].
  cbn [insert_sorted]. destruct (Z.ltb_spec (len x) (len y)); [|done].
  cbn [List.filter] in *.
  destruct (Z.eqb_spec (len y) n), (Z.eqb_spec (len x) n);
    try lia; by rewrite IH.
Qed.

Section MatchFacts.
Context `{Runtime}.
Implicit Types (mt : match_type) (names items : list str) (st : match_state).

Lemma has_match_existsb mt names x :
  has_match mt names x = existsb (fun k => match_found mt k x) names.
Proof. unfold has_match, first_match. apply find_none_existsb. Qed.

Lemma match_item_so_far mt names items st x :
  matched_so_far mt names items st ->
  matched_so_far mt names (items ++ [x]) (match_item mt names st x).
Proof.
  intros (Hun & Hpr & Hgr & Hnd & Hwf & Hex).
  unfold match_item. fold (first_match mt names x).
  destruct (bool_decide_reflect (x ∈ ms_processed st)) as [Hin|Hout].
  { apply Hpr in Hin as [Hin Hm].
    split; [|split; [|split; [|split; [|split]]]]; try done.
    - rewrite List.filter_app. simpl. rewrite Hm. simpl.
      by rewrite app_nil_r.
    - intros y. rewrite Hpr, elem_of_app, list_elem_of_singleton.
      split; [tauto|]. intros [[?| ->] ?]; done.
    - intros k y Hy. destruct (Hgr k y Hy). split; [|done].
      apply elem_of_app. by left.
    - intros Hnd'. apply NoDup_app in Hnd' as (_ & Hdisj & _).
      destruct (Hdisj x Hin). by left. }
  destruct (first_match mt names x) as [name|] eqn:Efm.
  - assert (has_match mt names x = true) as Hm
      by (unfold has_match; by rewrite Efm).
    assert (name ∈ names ∧ match_found mt name x = true) as [Hname Hf].
    { unfold first_match in Efm. apply find_some in Efm as [Hi Hf].
      split; [by apply list_elem_of_In|done]. }
    split; [|split; [|split; [|split; [|split]]]]; simpl.
    + rewrite List.filter_app. simpl. rewrite Hm. simpl.
      by rewrite app_nil_r.
    + intros y. rewrite elem_of_union, elem_of_singleton, Hpr,
        elem_of_app, list_elem_of_singleton.
      split; [intros [->|[? ?]]; tauto|].
      intros [[?| ->] ?]; [by right|by left].
    + intros k y. rewrite group_of_dict_append. unfold str_eqb.
      destruct (bool_decide_reflect (k = name)) as [->|Hk].
      * rewrite elem_of_app, list_elem_of_singleton.
        intros [Hy| ->].
        -- destruct (Hgr name y Hy). split; [|done].
           apply elem_of_app. by left.
        -- split; [|done]. apply elem_of_app. right.
           by apply list_elem_of_singleton.
      * intros Hy. destruct (Hgr k y Hy). split; [|done].
        apply elem_of_app. by left.
    + rewrite dict_keys_dict_append.
      destruct (bool_decide_reflect (name ∈ dict_keys (ms_matched st)));
        [done|].
      apply NoDup_app. split; [done|]. split; [|apply NoDup_singleton].
      intros y Hy ->%list_elem_of_singleton. done.
    + intros k l Hkl. apply elem_of_dict_append in Hkl as [Hkl|[-> [l0 ->]]].
      * by apply Hwf.
      * split; [|done]. by destruct l0.
    + intros Hnd'. pose proof Hnd' as Hnd2.
      apply NoDup_app in Hnd2 as (Hnd0 & _ & _).
      destruct (Hex Hnd0) as [Hg Ha]. split.
      * intros k. rewrite group_of_dict_append, List.filter_app, Hg.
        assert (goes_to mt names k x = str_eqb name k) as Hgo
          by (unfold goes_to; by rewrite Efm).
        cbn [List.filter]. rewrite Hgo. unfold str_eqb.
        destruct (bool_decide_reflect (k = name)) as [->|Hk].
        -- by rewrite bool_decide_eq_true_2.
        -- rewrite bool_decide_eq_false_2 by congruence.
           by rewrite app_nil_r.
      * rewrite all_matched_dict_append, List.filter_app, Ha. simpl.
        rewrite Hm. by rewrite <- Permutation_cons_append.
  - assert (has_match mt names x = false) as Hm
      by (unfold has_match; by rewrite Efm).
    split; [|split; [|split; [|split; [|split]]]]; simpl; try done.
    + rewrite List.filter_app. simpl. rewrite Hm. simpl. by rewrite Hun.
    + intros y. rewrite Hpr, elem_of_app, list_elem_of_singleton.
      split; [tauto|]. intros [[?| ->] ?]; [done|congruence].
    + intros k y Hy. destruct (Hgr k y Hy). split; [|done].
      apply elem_of_app. by left.
    + intros Hnd'. pose proof Hnd' as Hnd2.
      apply NoDup_app in Hnd2 as (Hnd0 & _ & _).
      destruct (Hex Hnd0) as [Hg Ha]. split.
      * intros k. rewrite List.filter_app, Hg.
        assert (goes_to mt names k x = false) as Hgo
          by (unfold goes_to; by rewrite Efm).
        cbn [List.filter]. rewrite Hgo. by rewrite app_nil_r.
      * rewrite List.filter_app. simpl. rewrite Hm. by rewrite app_nil_r.
Qed.

Lemma match_items_so_far mt (mapping : dict str) items :
  matched_so_far mt (sorted_len_desc (dict_keys mapping)) items
                 (match_items mt mapping items).
Proof.
  unfold match_items.
  induction items as [|x items IH] using rev_ind.
  - simpl. split; [done|]. split.
    { intros x. split; [by intros ?%not_elem_of_empty|].
      by intros [?%not_elem_of_nil _]. }
    split; [by intros k x ?%not_elem_of_nil|].
    split; [constructor|]. split; [by intros k l ?%not_elem_of_nil|].
    intros _. split; [done|done].
  - rewrite fold_left_app. simpl. by apply match_item_so_far.
Qed.
End MatchFacts.

Lemma sorted_len_desc_stable (n : Z) (l : list str) :
  List.filter (fun k => len k =? n) (sorted_len_desc l) =
  List.filter (fun k => len k =? n) l.
Proof.
  unfold sorted_len_desc, sorted_by.
  induction l as [|x t IH]; [done|].
  cbn [foldr]. rewrite insert_sorted_len_stable.
  cbn [List.filter]. by rewrite IH.
Qed.

(** X4. The order in which the keys are tried: the keys of the mapping,
    the longer before the shorter, and keys of one length in the order
    they have in the mapping. *)
Theorem key_order (keys : list str) :
  sorted_len_desc keys ≡ₚ keys ∧
  StronglySorted (fun a b => len b <= len a) (sorted_len_desc keys) ∧
  forall n, List.filter (fun k => len k =? n) (sorted_len_desc keys) =
            List.filter (fun k => len k =? n) keys.
Proof.
  split; [apply sorted_len_desc_perm|].
  split; [apply sorted_len_desc_sorted|].
  intros n. apply sorted_len_desc_stable.
Qed.

Section MatchClaims.
Context `{Runtime}.
Implicit Types (mt : match_type) (items : list str) (mapping : dict str).

(** X5. The unmatched entries are the entries that no key of the mapping
    matches, in the order of the listing (an entry listed twice is kept
    twice). *)
Theorem unmatched_entries mt mapping items :
  ms_unmatched (match_items mt mapping items) =
  List.filter
    (fun x => negb (existsb (fun k => match_found mt k x)
                            (dict_keys mapping))) items.
Proof.
  destruct (match_items_so_far mt mapping items) as (Hun & _).
  rewrite Hun. apply filter_ext. intros x.
  rewrite has_match_existsb.
  by rewrite (existsb_perm _ _ _ (sorted_len_desc_perm (dict_keys mapping))).
Qed.

(** X6. An entry is put in the group of a key only if that key is in the
    mapping and matches it, and no longer key of the mapping matches it. *)
Theorem longest_key_wins mt mapping items k x :
  x ∈ group_of (ms_matched (match_items mt mapping items)) k ->
  x ∈ items ∧ k ∈ dict_keys mapping ∧ match_found mt k x = true ∧
  forall k', k' ∈ dict_keys mapping -> len k < len k' ->
             match_found mt k' x = false.
Proof.
  intros Hx.
  destruct (match_items_so_far mt mapping items) as (_ & _ & Hgr & _).
  destruct (Hgr k x Hx) as [Hin Hfm]. unfold first_match in Hfm.
  apply find_split in Hfm as (pre & post & Hs & Hpre & Hk).
  pose proof (sorted_len_desc_perm (dict_keys mapping)) as Hperm.
  pose proof (sorted_len_desc_sorted (dict_keys mapping)) as Hsorted.
  rewrite Hs in Hperm, Hsorted.
  split; [done|]. split; [|split; [done|]].
  - rewrite <- Hperm. apply elem_of_app. right. by left.
  - intros k' Hk' Hlen. rewrite <- Hperm in Hk'.
    apply StronglySorted_app_1_r in Hsorted.
    apply StronglySorted_inv in Hsorted as [_ Hpost].
    rewrite elem_of_app, elem_of_cons in Hk'.
    destruct Hk' as [Hk'|[->|Hk']].
    + rewrite Forall_forall in Hpre. by apply Hpre.
    + lia.
    + rewrite Forall_forall in Hpost. specialize (Hpost k' Hk'). lia.
Qed.

(** X7. [matched_files] after the scan: each key occurs once, is a key of
    the mapping, and has at least one entry. *)
Theorem matched_files_well_formed mt mapping items :
  let matched := ms_matched (match_items mt mapping items) in
  NoDup (dict_keys matched) ∧
  forall k l, (k, l) ∈ matched -> l ≠ [] ∧ k ∈ dict_keys mapping.
Proof.
  destruct (match_items_so_far mt mapping items)
    as (_ & _ & _ & Hnd & Hwf & _).
  split; [done|]. intros k l Hkl. destruct (Hwf k l Hkl) as [Hl Hk].
  split; [done|]. by rewrite <- (sorted_len_desc_perm (dict_keys mapping)).
Qed.

(** X8. When the listing has no repeated name, the scan splits it: the
    group of a key holds, in listing order, the entries whose first
    matching key (longest first) is that key, and the groups together with
    the unmatched entries hold every entry exactly once. *)
Theorem scan_partitions_listing mt mapping items :
  NoDup items ->
  let st := match_items mt mapping items in
  (forall k, group_of (ms_matched st) k =
             List.filter
               (goes_to mt (sorted_len_desc (dict_keys mapping)) k) items) ∧
  all_matched (ms_matched st) ++ ms_unmatched st ≡ₚ items ∧
  NoDup (all_matched (ms_matched st) ++ ms_unmatched st).
Proof.
  intros Hnd st.
  destruct (match_items_so_far mt mapping items)
    as (Hun & _ & _ & _ & _ & Hex).
  destruct (Hex Hnd) as [Hg Ha]. fold st in Hun, Hg, Ha.
  assert (all_matched (ms_matched st) ++ ms_unmatched st ≡ₚ items) as Hp.
  { rewrite Ha, Hun. apply filter_partition_perm. }
  split; [done|]. split; [done|]. by rewrite Hp.
Qed.

(** X9. Under the substring test an empty key matches every entry: when
    the mapping holds the empty key (a blank cell of the table gives one)
    no entry is left unmatched. *)
Theorem empty_key_matches_all mapping items :
  lower [] = [] ->
  [] ∈ dict_keys mapping ->
  ms_unmatched (match_items Contains mapping items) = [].
Proof.
  intros Hlow Hin.
  destruct (match_items_so_far Contains mapping items) as (Hun & _).
  rewrite Hun. apply filter_nil_iff. intros x _.
  apply negb_false_iff. rewrite has_match_existsb.
  apply existsb_exists. exists []. split.
  - apply list_elem_of_In.
    by rewrite (sorted_len_desc_perm (dict_keys mapping)).
  - unfold match_found. rewrite Hlow. by destruct (lower x).
Qed.
End MatchClaims.

Lemma longest_key_wins_witness :
  lit "Anna_report.pdf" ∈
    [lit "Anna_report.pdf"; lit "Andy.txt"; lit "Bob.txt"] ∧
  lit "Anna" ∈ [lit "An"; lit "Anna"] ∧
  @match_found sim_runtime Contains (lit "Anna") (lit "Anna_report.pdf")
    = true ∧
  forall k', k' ∈ [lit "An"; lit "Anna"] -> len (lit "Anna") < len k' ->
             @match_found sim_runtime Contains k' (lit "Anna_report.pdf")
             = false.
Proof.
  apply (@longest_key_wins sim_runtime Contains
           [(lit "An", lit "a.pdf"); (lit "Anna", lit "b.pdf")]
           [lit "Anna_report.pdf"; lit "Andy.txt"; lit "Bob.txt"]
           (lit "Anna") (lit "Anna_report.pdf")).
  vm_compute. by left.
Defined.

Lemma scan_partitions_listing_witness :
  all_matched
    (ms_matched (@match_items sim_runtime Contains
                   [(lit "An", lit "a.pdf"); (lit "Anna", lit "b.pdf")]
                   [lit "Anna_report.pdf"; lit "Andy.txt"; lit "Bob.txt"]))
  ++ ms_unmatched (@match_items sim_runtime Contains
                   [(lit "An", lit "a.pdf"); (lit "Anna", lit "b.pdf")]
                   [lit "Anna_report.pdf"; lit "Andy.txt"; lit "Bob.txt"])
  ≡ₚ [lit "Anna_report.pdf"; lit "Andy.txt"; lit "Bob.txt"].
Proof.
  apply (@scan_partitions_listing sim_runtime Contains
           [(lit "An", lit "a.pdf"); (lit "Anna", lit "b.pdf")]
           [lit "Anna_report.pdf"; lit "Andy.txt"; lit "Bob.txt"]).
  apply (bool_decide_unpack _). vm_compute. exact I.
Defined.

Lemma empty_key_matches_all_witness :
  ms_unmatched (@match_items sim_runtime Contains
                  [([], lit "x.pdf"); (lit "An", lit "a.pdf")]
                  [lit "Bob.txt"; lit "Andy.txt"]) = [].
Proof.
  apply (@empty_key_matches_all sim_runtime
           [([], lit "x.pdf"); (lit "An", lit "a.pdf")]
           [lit "Bob.txt"; lit "Andy.txt"]).
  - reflexivity.
  - vm_compute. by left.
Defined.

(* ===================================================================== *)
(** ** Validation: when the load succeeds, and the second check *)
(* ===================================================================== *)

Lemma duplicated_select {A} (h : A -> str) (df : list A) :
  select df (duplicated (List.map h df)) =
  List.filter (fun r => (1 <? occurrences (h r) (List.map h df))%nat) df.
Proof.
  unfold duplicated.
  apply (select_map_map
           (fun x => (1 <? occurrences x (List.map h df))%nat) h).
Qed.

Lemma value_twice {A} (h : A -> str) (df : list A) (v : str) :
  (1 < occurrences v (List.map h df))%nat <->
  exists a b ra rb, a ≠ b ∧ df !! a = Some ra ∧ df !! b = Some rb ∧
                    h ra = v ∧ h rb = v.
Proof.
  rewrite occurrences_twice. split.
  - intros (a & b & Hab & Ha & Hb).
    change (List.map ?f ?l) with (f <$> l) in Ha, Hb.
    apply list_lookup_fmap_Some in Ha as (ra & Hra & Ea).
    apply list_lookup_fmap_Some in Hb as (rb & Hrb & Eb).
    exists a, b, ra, rb. done.
  - intros (a & b & ra & rb & Hab & Ha & Hb & Ea & Eb).
    exists a, b. split; [done|].
    change (List.map ?f ?l) with (f <$> l).
    rewrite !list_lookup_fmap, Ha, Hb. simpl. by rewrite Ea, Eb.
Qed.

(** The mask selects nothing exactly when the column has no repetition. *)
Lemma no_duplicated_iff {A} (h : A -> str) (df : list A) :
  select df (duplicated (List.map h df)) = [] <-> NoDup (List.map h df).
Proof.
  rewrite duplicated_select, filter_nil_iff. split.
  - intros Hall. apply NoDup_alt. intros i j v Hi Hj.
    destruct (decide (i = j)) as [|Hne]; [done|].
    change (List.map ?f ?l) with (f <$> l) in Hi, Hj.
    apply list_lookup_fmap_Some in Hi as (ri & Hri & Ei).
    apply list_lookup_fmap_Some in Hj as (rj & Hrj & Ej).
    assert ((1 <? occurrences (h ri) (List.map h df))%nat = false) as Hocc.
    { apply Hall. by eapply list_elem_of_lookup_2. }
    apply Nat.ltb_ge in Hocc.
    assert (1 < occurrences (h ri) (List.map h df))%nat; [|lia].
    apply value_twice. exists i, j, ri, rj. repeat split; try done.
    congruence.
  - intros Hnd x Hx. apply Nat.ltb_ge.
    destruct (Nat.le_gt_cases (occurrences (h x) (List.map h df)) 1)
      as [|Hgt]; [done|].
    apply value_twice in Hgt as (a & b & ra & rb & Hab & Ha & Hb & Ea & Eb).
    destruct Hab. eapply (proj1 (NoDup_alt _) Hnd).
    + change (List.map ?f ?l) with (f <$> l).
      rewrite list_lookup_fmap, Ha. simpl. by rewrite Ea.
    + change (List.map ?f ?l) with (f <$> l).
      rewrite list_lookup_fmap, Hb. simpl. by rewrite Eb.
Qed.

Lemma dict_get_elem_of {V} (d : dict V) k v :
  NoDup (dict_keys d) -> (dict_get d k = Some v <-> (k, v) ∈ d).
Proof.
  unfold dict_keys. induction d as [|[k' v'] t IH]; simpl.
  { intros _. split; [done|by intros ?%not_elem_of_nil]. }
  intros Hnd. apply NoDup_cons in Hnd as [Hk' Hnd]. unfold str_eqb.
  destruct (bool_decide_reflect (k = k')) as [->|Hne].
  - rewrite elem_of_cons. split.
    + intros [= ->]. by left.
    + intros [[= ->]|Hin]; [done|].
      destruct Hk'. apply list_elem_of_In, in_map_iff.
      exists (k', v). split; [done|]. by apply list_elem_of_In.
  - rewrite (IH Hnd), elem_of_cons. split; [by right|].
    intros [[= -> ->]|Hin]; done.
Qed.

Lemma sort_values_perm (df : list (str * str)) : sort_values df ≡ₚ df.
Proof. apply sorted_by_perm. Qed.

Lemma sort_values_sorted (df : list (str * str)) :
  StronglySorted (fun x y => str_le x.2 y.2) (sort_values df).
Proof.
  apply (sorted_by_sorted (fun y x : str * str => str_ltb y.2 x.2)).
  - intros x y. apply str_ltb_asym.
  - intros a b c. apply str_le_trans.
Qed.

Lemma StronglySorted_map {A B} (R : A -> A -> Prop) (R' : B -> B -> Prop)
    (f : A -> B) (l : list A) :
  (forall x y, R x y -> R' (f x) (f y)) ->
  StronglySorted R l -> StronglySorted R' (List.map f l).
Proof.
  intros Hf. induction 1 as [|x t Ht IH Hx]; simpl; constructor; [done|].
  apply Forall_forall. intros y Hy.
  apply list_elem_of_In, in_map_iff in Hy as (z & <- & Hz).
  apply Hf. rewrite Forall_forall in Hx. by apply Hx, list_elem_of_In.
Qed.

Section ValidationClaims.
Context `{Runtime}.

(** X10. The load succeeds exactly when, among the rows with both cells
    present, the trimmed keys differ pairwise even with case ignored and
    the trimmed target names differ pairwise; the mapping is then these
    rows, in order, one entry per row. *)
Theorem load_succeeds_iff (rows : list raw_row) (m : dict str) :
  let df := strip_columns (dropna rows) in
  load_mapping rows = inr m <->
  m = df ∧ NoDup (List.map (fun r => lower r.1) df) ∧
  NoDup (List.map snd df).
Proof.
  intros df. unfold load_mapping, build_mapping. fold df.
  pose proof (no_duplicated_iff (fun r : str * str => lower r.1) df) as Hk.
  pose proof (no_duplicated_iff (snd : str * str -> str) df) as Ht.
  destruct (select df (duplicated (List.map (fun r => lower r.1) df)))
    as [|r0 t0] eqn:E1; cbn [is_empty_list negb].
  2:{ split; [done|]. intros (_ & Hnd & _). apply Hk in Hnd. done. }
  destruct (select df (duplicated (List.map snd df)))
    as [|r1 t1] eqn:E2; cbn [is_empty_list negb].
  2:{ split; [done|]. intros (_ & _ & Hnd). apply Ht in Hnd. done. }
  assert (NoDup (dict_keys df)) as Hnd.
  { apply (keys_distinct df). exact E1. }
  rewrite (dict_of_distinct_rows df []) by done. simpl.
  split.
  - intros [= <-]. split; [done|]. split; [by apply Hk|by apply Ht].
  - by intros (-> & _ & _).
Qed.

(** X11. When the keys pass the first check and two rows have the same
    target name, the load fails with the target collision error.  The
    error lists, as the pair of the target name and the key, the rows
    whose target name occurs in another row: each such row once, the
    target names in ascending order, whatever the order of the table.
    No mapping is assigned, and matches and table stay empty. *)
Theorem duplicate_targets_rejected (cfg : config) (rows : list raw_row)
    (source_items : list str) (app : session)
    (a b : nat) (ra rb : str * str) :
  let df := strip_columns (dropna rows) in
  NoDup (List.map (fun r => lower r.1) df) ->
  a ≠ b -> df !! a = Some ra -> df !! b = Some rb -> ra.2 = rb.2 ->
  exists conflicts,
    load_mapping rows = inl (DuplicateTarget conflicts) ∧
    StronglySorted (fun x y => str_le x.1 y.1) conflicts ∧
    conflicts ≡ₚ
      List.map (fun r => (r.2, r.1))
               (select df (duplicated (List.map snd df))) ∧
    (forall t k, (t, k) ∈ conflicts <->
       exists i j rj, i ≠ j ∧ df !! i = Some (k, t) ∧ df !! j = Some rj ∧
                      rj.2 = t) ∧
    load_files cfg rows source_items app =
      ({| file_mapping := file_mapping app; matched_files := [];
          tree := [] |}, Some (DuplicateTarget conflicts)).
Proof.
  intros df Hkeys Hab Ha Hb Heq.
  set (dups := List.filter
         (fun r : str * str =>
            (1 <? occurrences r.2 (List.map snd df))%nat) df).
  assert (select df (duplicated (List.map snd df)) = dups) as Hsel
    by apply (duplicated_select snd).
  assert (ra ∈ dups) as Hra.
  { apply list_elem_of_In, filter_In. split.
    - by eapply list_elem_of_In, list_elem_of_lookup_2.
    - apply Nat.ltb_lt, (value_twice snd). exists a, b, ra, rb. done. }
  assert (load_mapping rows =
          inl (DuplicateTarget
                 (List.map (fun r => (r.2, r.1)) (sort_values dups))))
    as Hload.
  { unfold load_mapping, build_mapping. fold df.
    apply (no_duplicated_iff (fun r : str * str => lower r.1)) in Hkeys.
    rewrite Hkeys. cbn [is_empty_list negb].
    rewrite Hsel.
    destruct dups; [by apply not_elem_of_nil in Hra|done]. }
  exists (List.map (fun r => (r.2, r.1)) (sort_values dups)).
  rewrite Hsel.
  split; [done|]. split; [|split].
  { eapply StronglySorted_map; [|apply sort_values_sorted]. done. }
  { apply Permutation_map, sort_values_perm. }
  split; [|unfold load_files; by rewrite Hload].
  intros t k.
  assert ((t, k) ∈ List.map (fun r : str * str => (r.2, r.1))
                            (sort_values dups) <-> (k, t) ∈ dups) as ->.
  { rewrite <- (sort_values_perm dups) at 2.
    change (List.map ?f ?l) with (f <$> l).
    rewrite list_elem_of_fmap. split.
    - by intros ([k0 t0] & [= -> ->] & Hr).
    - intros Hr. by exists (k, t). }
  split.
  - intros Hr.
    apply list_elem_of_In, filter_In in Hr as [Hr Hocc].
    apply list_elem_of_In, list_elem_of_lookup in Hr as [i Hi].
    apply Nat.ltb_lt, (value_twice snd) in Hocc
      as (x & y & rx & ry & Hxy & Hx & Hy & Ex & Ey).
    simpl in Ex, Ey.
    destruct (decide (x = i)) as [->|Hne].
    + exists i, y, ry. done.
    + exists i, x, rx. done.
  - intros (i & j & rj & Hij & Hi & Hj & Hl).
    apply list_elem_of_In, filter_In. split.
    + by eapply list_elem_of_In, list_elem_of_lookup_2.
    + apply Nat.ltb_lt, (value_twice snd). exists i, j, (k, t), rj. done.
Qed.

(** X12. After a successful load, looking a key up in the mapping gives a
    target name exactly when some row with both cells present has that
    key and that target name once trimmed; any other key has no entry. *)
Theorem mapping_lookup (rows : list raw_row) (m : dict str) (k v : str) :
  load_mapping rows = inr m ->
  (dict_get m k = Some v <->
   exists k0 v0, (Some k0, Some v0) ∈ rows ∧ k = strip k0 ∧ v = strip v0).
Proof.
  intros Hload. unfold load_mapping in Hload.
  apply build_mapping_ok in Hload as [-> Hnd].
  rewrite (dict_get_elem_of _ k v Hnd). apply elem_of_trimmed_rows.
Qed.
End ValidationClaims.

Lemma load_succeeds_iff_witness :
  @load_mapping sim_runtime
    [(Some (lit " An "), Some (lit "a.pdf")); (None, Some (lit "c.pdf"));
     (Some (lit "Bob"), Some (lit "b.pdf"))]
  = inr [(lit "An", lit "a.pdf"); (lit "Bob", lit "b.pdf")].
Proof.
  apply (proj2 (@load_succeeds_iff sim_runtime
                  [(Some (lit " An "), Some (lit "a.pdf"));
                   (None, Some (lit "c.pdf"));
                   (Some (lit "Bob"), Some (lit "b.pdf"))]
                  [(lit "An", lit "a.pdf"); (lit "Bob", lit "b.pdf")])).
  split; [vm_compute; reflexivity|].
  split; apply (bool_decide_unpack _); vm_compute; exact I.
Defined.

Lemma duplicate_targets_rejected_witness :
  exists conflicts,
    @load_mapping sim_runtime
      [(Some (lit "An"), Some (lit "z.pdf"));
       (Some (lit "Bob"), Some (lit "a.pdf"));
       (Some (lit "Cy"), Some (lit "m.pdf"));
       (Some (lit "Di"), Some (lit "z.pdf"));
       (Some (lit "Ed"), Some (lit "a.pdf"))]
    = inl (DuplicateTarget conflicts) ∧
    conflicts = [(lit "a.pdf", lit "Bob"); (lit "a.pdf", lit "Ed");
                 (lit "z.pdf", lit "An"); (lit "z.pdf", lit "Di")].
Proof.
  destruct (@duplicate_targets_rejected sim_runtime scenario_config
              [(Some (lit "An"), Some (lit "z.pdf"));
               (Some (lit "Bob"), Some (lit "a.pdf"));
               (Some (lit "Cy"), Some (lit "m.pdf"));
               (Some (lit "Di"), Some (lit "z.pdf"));
               (Some (lit "Ed"), Some (lit "a.pdf"))]
              [] empty_session 0%nat 3%nat
              (lit "An", lit "z.pdf") (lit "Di", lit "z.pdf"))
    as (conflicts & Hload & _).
  - apply (bool_decide_unpack _). vm_compute. exact I.
  - lia.
  - vm_compute. reflexivity.
  - vm_compute. reflexivity.
  - vm_compute. reflexivity.
  - exists conflicts. split; [exact Hload|].
    vm_compute in Hload. injection Hload as <-. reflexivity.
Defined.

Lemma mapping_lookup_witness :
  dict_get [(lit "An", lit "a.pdf")] (lit "An") = Some (lit "a.pdf") <->
  exists k0 v0, (Some k0, Some v0) ∈
                  [(Some (lit " An "), Some (lit "a.pdf "))] ∧
                lit "An" = strip k0 ∧ lit "a.pdf" = strip v0.
Proof.
  apply (@mapping_lookup sim_runtime
           [(Some (lit " An "), Some (lit "a.pdf "))]
           [(lit "An", lit "a.pdf")] (lit "An") (lit "a.pdf")).
  vm_compute. reflexivity.
Defined.

(* ===================================================================== *)
(** ** Preview: the rows of the table *)
(* ===================================================================== *)

Lemma sanitized_name_valid (x : str) :
  _sanitize_filename x ≠ [] ∧
  len (_sanitize_filename x) <= MAX_FILENAME_LENGTH ∧
  Forall safe_char (_sanitize_filename x).
Proof.
  unfold _sanitize_filename.
  destruct (is_empty x).
  { split; [done|]. split; [by vm_compute|apply UNNAMED_safe]. }
  destruct (limit_length (clean x)) as [|c r] eqn:E; simpl.
  { split; [done|]. split; [by vm_compute|apply UNNAMED_safe]. }
  split; [done|]. rewrite <- E. split.
  - apply limit_length_le.
  - apply limit_length_Forall, clean_safe.
Qed.

Lemma map_from_lookups {A B} (f : A -> B) (rows : list A) (items : list B) :
  length rows = length items ->
  (forall i item, items !! i = Some item ->
     exists r, rows !! i = Some r ∧ f r = item) ->
  List.map f rows = items.
Proof.
  intros Hlen Hall. apply list_eq. intros i.
  change (List.map f rows) with (f <$> rows). rewrite list_lookup_fmap.
  destruct (items !! i) as [item|] eqn:Ei.
  - destruct (Hall i item Ei) as (r & -> & <-). done.
  - apply lookup_ge_None in Ei.
    rewrite (proj2 (lookup_ge_None rows i)) by lia. done.
Qed.

Section PreviewRows.
Context `{Runtime}.
Implicit Types (cfg : config) (w : World) (st : preview_state).

Lemma preview_entries_index cfg w name n base items :
  forall i0 st,
    item_index (preview_entries cfg w name n base i0 items st) =
    item_index st + Z.of_nat (length items).
Proof.
  induction items as [|item rest IH]; intros i0 st; simpl; [lia|].
  rewrite IH. unfold preview_entry, emit. simpl. lia.
Qed.

(** The rows of a group whose entries are skipped. *)
Lemma skip_entries_rows name base items :
  forall st,
  exists rows,
    preview_tree (skip_entries name base items st) =
      preview_tree st ++ rows ∧
    length rows = length items ∧
    item_index (skip_entries name base items st) =
      item_index st + Z.of_nat (length items) ∧
    target_filenames_in_preview (skip_entries name base items st) =
      target_filenames_in_preview st ∧
    forall i item, items !! i = Some item ->
      rows !! i =
        Some {| row_index := item_index st + Z.of_nat i; row_key := name;
                row_source := item; row_target := base;
                row_status := STATUS_SKIPPED |}.
Proof.
  unfold skip_entries.
  induction items as [|item rest IH]; intros st.
  { exists []. simpl. rewrite app_nil_r. repeat split; try done; lia. }
  cbn [fold_left].
  destruct (IH (emit st (target_filenames_in_preview st) name item base
                     STATUS_SKIPPED))
    as (rows & Htree & Hlen & Hidx & Hres & Hrows).
  eexists (_ :: rows). split; [|split; [|split; [|split]]].
  - rewrite Htree. unfold emit. simpl. rewrite <- app_assoc. reflexivity.
  - simpl. by rewrite Hlen.
  - rewrite Hidx. unfold emit. simpl. lia.
  - rewrite Hres. done.
  - intros [|i] item' Hi.
    + injection Hi as <-. simpl. do 2 f_equal. lia.
    + simpl in Hi. rewrite lookup_cons_ne_0 by lia.
      rewrite Nat.pred_succ, (Hrows i item' Hi). unfold emit. simpl.
      do 2 f_equal. lia.
Qed.

(** The rows of one group, whichever way it is handled. *)
Lemma preview_group_rows cfg w mapping st name items :
  exists rows,
    preview_tree (preview_group cfg w mapping st (name, items)) =
      preview_tree st ++ rows ∧
    length rows = length items ∧
    item_index (preview_group cfg w mapping st (name, items)) =
      item_index st + Z.of_nat (length items) ∧
    forall i item, items !! i = Some item ->
      exists r, rows !! i = Some r ∧ row_key r = name ∧
                row_source r = item ∧
                row_index r = item_index st + Z.of_nat i.
Proof.
  unfold preview_group. destruct (_ && _).
  - destruct (skip_entries_rows name (base_target_name_of cfg mapping name)
                items st) as (rows & Ht & Hl & Hi & _ & Hr).
    exists rows. repeat split; try done.
    intros i item Hitem. eexists. split; [by apply Hr|done].
  - destruct (preview_entries_rows cfg w name (length items)
                (base_target_name_of cfg mapping name) items 0 st)
      as (rows & Ht & Hl & Hr).
    exists rows. split; [done|]. split; [done|].
    split; [apply preview_entries_index|].
    intros i item Hitem.
    destruct (Hr i item Hitem) as (r & ? & ? & ? & ? & _). eauto.
Qed.

Lemma preview_fold_rows cfg w mapping groups :
  forall st,
  exists rows,
    preview_tree (fold_left (preview_group cfg w mapping) groups st) =
      preview_tree st ++ rows ∧
    item_index (fold_left (preview_group cfg w mapping) groups st) =
      item_index st + Z.of_nat (length rows) ∧
    List.map row_source rows = all_matched groups ∧
    List.map row_key rows = all_matched_keys groups ∧
    forall j r, rows !! j = Some r ->
                row_index r = item_index st + Z.of_nat j.
Proof.
  induction groups as [|[name items] rest IH]; intros st.
  { exists []. simpl. rewrite app_nil_r. repeat split; try done; lia. }
  cbn [fold_left].
  destruct (preview_group_rows cfg w mapping st name items)
    as (r1 & Ht1 & Hl1 & Hi1 & Hr1).
  destruct (IH (preview_group cfg w mapping st (name, items)))
    as (r2 & Ht2 & Hi2 & Hs2 & Hk2 & Hr2).
  exists (r1 ++ r2). split; [|split; [|split; [|split]]].
  - rewrite Ht2, Ht1, <- app_assoc. done.
  - rewrite Hi2, Hi1, length_app. lia.
  - rewrite List.map_app, Hs2. unfold all_matched.
    cbn [List.map concat fst snd]. f_equal.
    apply map_from_lookups; [done|].
    intros i item Hitem.
    destruct (Hr1 i item Hitem) as (r & ? & ? & ? & ?). eauto.
  - rewrite List.map_app, Hk2. unfold all_matched_keys.
    cbn [List.map concat fst snd]. f_equal.
    apply map_from_lookups; [by rewrite length_map|].
    intros i k Hk. change (List.map ?f ?l) with (f <$> l) in Hk.
    apply list_lookup_fmap_Some in Hk as (item & -> & Hitem).
    destruct (Hr1 i item Hitem) as (r & ? & ? & ? & ?). eauto.
  - intros j r Hj. apply lookup_app_Some in Hj as [Hj|[Hge Hj]].
    + pose proof (lookup_lt_Some _ _ _ Hj) as Hlt. rewrite Hl1 in Hlt.
      destruct (lookup_lt_is_Some_2 items j Hlt) as [item Hitem].
      destruct (Hr1 j item Hitem) as (r' & Hr' & _ & _ & Hidx).
      congruence.
    + rewrite (Hr2 _ r Hj), Hi1, <- Hl1. lia.
Qed.

(** Whatever holds of every row an entry can give and of every skipped
    row holds of every row of the preview. *)
Lemma preview_rows_Forall cfg w mapping groups (Q : tree_row -> Prop) :
  (forall idx name item n base i reserved,
     Q {| row_index := idx; row_key := name; row_source := item;
          row_target := final_target_name_of cfg n base i;
          row_status := resolve_status cfg w reserved
                          (final_target_name_of cfg n base i) |}) ->
  (forall idx name item base,
     Q {| row_index := idx; row_key := name; row_source := item;
          row_target := base; row_status := STATUS_SKIPPED |}) ->
  Forall Q (preview_tree (preview_groups cfg w mapping groups)).
Proof.
  intros Hentry Hskip. unfold preview_groups.
  assert (Forall Q (preview_tree
            {| target_filenames_in_preview := ∅; item_index := 1;
               preview_tree := [] |})) as Hinit by constructor.
  revert Hinit. generalize {| target_filenames_in_preview := ∅;
                              item_index := 1; preview_tree := [] |}.
  induction groups as [|[name items] rest IH]; intros st Hst; [done|].
  cbn [fold_left]. apply IH. unfold preview_group.
  destruct (_ && _).
  - unfold skip_entries. revert st Hst.
    induction items as [|item more IHi]; intros st Hst; [done|].
    cbn [fold_left]. apply IHi. unfold emit. simpl.
    apply Forall_app. split; [done|]. repeat constructor. apply Hskip.
  - generalize 0%nat. generalize (length items) at 1. revert st Hst.
    induction items as [|item more IHi]; intros st Hst n i0; [done|].
    cbn [preview_entries]. apply IHi. unfold preview_entry, emit. simpl.
    apply Forall_app. split; [done|]. repeat constructor. apply Hentry.
Qed.
End PreviewRows.

Section PreviewExtras.
Context `{Runtime}.
Implicit Types (cfg : config) (w : World) (st : preview_state)
  (app : session).

(** X13. The table after a preview: first one row per matched entry,
    group after group in the order of [matched_files] and entry after
    entry in the order of the group, each with its key and numbered from
    1; then the unmatched rows the table held before. *)
Theorem preview_table_layout cfg w app :
  matched_files app ≠ [] ->
  exists rows,
    tree (generate_preview cfg w app) =
      rows ++ List.filter (fun r => is_unmatched (row_status r)) (tree app) ∧
    List.map row_source rows = all_matched (matched_files app) ∧
    List.map row_key rows = all_matched_keys (matched_files app) ∧
    forall j r, rows !! j = Some r -> row_index r = Z.of_nat j + 1.
Proof.
  intros Hne. rewrite generate_preview_tree by done.
  unfold preview_groups.
  destruct (preview_fold_rows cfg w (file_mapping app) (matched_files app)
              {| target_filenames_in_preview := ∅; item_index := 1;
                 preview_tree := [] |})
    as (rows & Ht & _ & Hs & Hk & Hi).
  simpl in Ht, Hi. exists rows. rewrite Ht.
  split; [done|]. split; [done|]. split; [done|].
  intros j r Hj. rewrite (Hi j r Hj). lia.
Qed.

(** X14. Under the skip policy, a key with more than one entry gives one
    row per entry, each marked skipped and showing the unnumbered target
    name of the key; none of them reserves a name. *)
Theorem skip_policy_rows cfg w (mapping : dict str) st (name : str)
    (items : list str) :
  duplicate_handling_var cfg = Skip ->
  (1 < length items)%nat ->
  let st' := preview_group cfg w mapping st (name, items) in
  target_filenames_in_preview st' = target_filenames_in_preview st ∧
  exists rows,
    preview_tree st' = preview_tree st ++ rows ∧
    length rows = length items ∧
    forall i item, items !! i = Some item ->
      rows !! i =
        Some {| row_index := item_index st + Z.of_nat i; row_key := name;
                row_source := item;
                row_target := base_target_name_of cfg mapping name;
                row_status := STATUS_SKIPPED |}.
Proof.
  intros Hdup Hlen st'. subst st'. unfold preview_group.
  rewrite Hdup. apply Nat.ltb_lt in Hlen. rewrite Hlen.
  cbn [is_skip andb].
  destruct (skip_entries_rows name (base_target_name_of cfg mapping name)
              items st) as (rows & Ht & Hl & _ & Hres & Hr).
  split; [done|]. exists rows. done.
Qed.

Lemma resolve_status_cases cfg w (reserved : gset str) (c : str) :
  resolve_status cfg w reserved c = STATUS_PENDING ∨
  resolve_status cfg w reserved c = STATUS_PREVIEW_CONFLICT ∨
  resolve_status cfg w reserved c = STATUS_TARGET_EXISTS.
Proof.
  unfold resolve_status. destruct (in_preview reserved c); [by right; left|].
  destruct (path_exists w _); [by right; right|by left].
Qed.

Lemma pending_row_facts cfg w app j r :
  matched_files app ≠ [] ->
  tree (generate_preview cfg w app) !! j = Some r ->
  row_status r = STATUS_PENDING ->
  path_exists w (path_join (target_folder_path cfg) (row_target r))
    = false ∧
  forall i r', (i < j)%nat ->
    tree (generate_preview cfg w app) !! i = Some r' ->
    row_status r' = STATUS_PENDING ->
    lower (row_target r') ≠ lower (row_target r).
Proof.
  intros Hne Hj Hp.
  assert (row_status r ≠ STATUS_UNMATCHED) as Hunm by (by rewrite Hp).
  destruct (generated_row cfg w app j r Hne Hj Hunm) as [Hrow Htake].
  destruct (preview_groups_inv cfg w (file_mapping app) (matched_files app))
    as [_ Hrows].
  destruct (Hrows j r Hrow) as [Hs|Hs]; [congruence|].
  rewrite Hp in Hs. unfold resolve_status in Hs.
  destruct (in_preview _ _) eqn:Ein; [done|].
  destruct (path_exists _ _) eqn:Ex; [done|].
  split; [done|]. intros i r' Hlt Hi Hp' Heq.
  assert (in_preview
            (list_to_set
               (pending_targets
                  (take j (preview_tree
                             (preview_groups cfg w (file_mapping app)
                                             (matched_files app))))))
            (row_target r) = true) as Hin; [|congruence].
  apply in_preview_spec, clash_spec. exists i, r'.
  split; [done|]. split; [|done].
  rewrite <- (lookup_take_lt _ j i) in Hi by lia.
  rewrite Htake in Hi. by rewrite lookup_take_lt in Hi by lia.
Qed.

(** X15. In a generated table no two pending rows have the same target
    name, even with case ignored, and no pending row has a target name
    that the target folder held when the preview was made. *)
Theorem pending_targets_collision_free cfg w app :
  matched_files app ≠ [] ->
  let table := tree (generate_preview cfg w app) in
  (forall i j ri rj,
     table !! i = Some ri -> table !! j = Some rj ->
     row_status ri = STATUS_PENDING -> row_status rj = STATUS_PENDING ->
     lower (row_target ri) = lower (row_target rj) -> i = j) ∧
  (forall j r,
     table !! j = Some r -> row_status r = STATUS_PENDING ->
     path_exists w (path_join (target_folder_path cfg) (row_target r))
       = false).
Proof.
  intros Hne table. split.
  - intros i j ri rj Hi Hj Hpi Hpj Heq.
    destruct (Nat.lt_trichotomy i j) as [Hlt|[->|Hlt]]; [|done|].
    + destruct (pending_row_facts cfg w app j rj Hne Hj Hpj) as [_ Hno].
      destruct (Hno i ri Hlt Hi Hpi Heq).
    + destruct (pending_row_facts cfg w app i ri Hne Hi Hpi) as [_ Hno].
      destruct (Hno j rj Hlt Hj Hpj). done.
  - intros j r Hj Hp.
    by destruct (pending_row_facts cfg w app j r Hne Hj Hp).
Qed.

(** X16. In a generated table every row that is pending, a preview
    conflict or target-exists carries a sanitized target name: not empty,
    at most 255 code points, without reserved or control characters; and
    no row is marked successful or failed. *)
Theorem preview_rows_well_formed cfg w app :
  matched_files app ≠ [] ->
  forall j r, tree (generate_preview cfg w app) !! j = Some r ->
    row_status r ≠ STATUS_SUCCESS ∧
    (forall detail, row_status r ≠ STATUS_ERROR detail) ∧
    (row_status r = STATUS_PENDING ∨
     row_status r = STATUS_PREVIEW_CONFLICT ∨
     row_status r = STATUS_TARGET_EXISTS ->
       row_target r ≠ [] ∧ len (row_target r) <= 255 ∧
       Forall safe_char (row_target r)).
Proof.
  intros Hne j r Hj. rewrite generate_preview_tree in Hj by done.
  apply lookup_app_Some in Hj as [Hj|[_ Hj]].
  - assert (Forall
              (fun r => row_status r ≠ STATUS_SUCCESS ∧
                 (forall detail, row_status r ≠ STATUS_ERROR detail) ∧
                 (row_status r = STATUS_PENDING ∨
                  row_status r = STATUS_PREVIEW_CONFLICT ∨
                  row_status r = STATUS_TARGET_EXISTS ->
                    row_target r ≠ [] ∧ len (row_target r) <= 255 ∧
                    Forall safe_char (row_target r)))
              (preview_tree (preview_groups cfg w (file_mapping app)
                                            (matched_files app)))) as Hall.
    { apply preview_rows_Forall.
      - intros idx name item n base i reserved. simpl.
        destruct (resolve_status_cases cfg w reserved
                    (final_target_name_of cfg n base i)) as [E|[E|E]];
          fold (resolve_status cfg w reserved
                  (final_target_name_of cfg n base i)); rewrite E;
          (split; [done|]); (split; [done|]);
          intros _; apply sanitized_name_valid.
      - intros idx name item base. simpl.
        split; [done|]. split; [done|]. intros [?|[?|?]]; done. }
    exact (Forall_lookup_1 _ _ _ _ Hall Hj).
  - apply list_elem_of_lookup_2, list_elem_of_In, filter_In in Hj.
    destruct Hj as [_ Hu]. destruct (row_status r); try done.
    split; [done|]. split; [done|]. intros [?|[?|?]]; done.
Qed.

(** X17. Making the preview again on the result changes nothing, as long
    as the settings and the target folder are the same: the carried-over
    unmatched rows are neither lost nor doubled. *)
Theorem generate_preview_idempotent cfg w app :
  generate_preview cfg w (generate_preview cfg w app) =
  generate_preview cfg w app.
Proof.
  destruct (matched_files app) as [|g gs] eqn:Em.
  { unfold generate_preview. rewrite Em. simpl. by rewrite Em. }
  assert (matched_files app ≠ []) as Hne by (by rewrite Em).
  unfold generate_preview at 1.
  assert (matched_files (generate_preview cfg w app) = matched_files app)
    as Hm by (unfold generate_preview; by rewrite Em).
  assert (file_mapping (generate_preview cfg w app) = file_mapping app)
    as Hf by (unfold generate_preview; by rewrite Em).
  rewrite Hm, Hf. rewrite Em at 1. cbn [is_empty_list].
  rewrite (generate_preview_tree cfg w app Hne).
  unfold generate_preview. rewrite Em. cbn [is_empty_list].
  rewrite <- Em. f_equal. f_equal.
  rewrite List.filter_app.
  assert (List.filter (fun r => is_unmatched (row_status r))
            (preview_tree (preview_groups cfg w (file_mapping app)
                                          (matched_files app))) = [])
    as ->.
  { apply filter_nil_iff. apply Forall_forall.
    apply (preview_rows_Forall cfg w (file_mapping app) (matched_files app)
             (fun r => is_unmatched (row_status r) = false)).
    - intros idx name item n base i reserved. simpl.
      by destruct (resolve_status_cases cfg w reserved
                     (final_target_name_of cfg n base i)) as [E|[E|E]]; rewrite E.
    - done. }
  simpl. clear. induction (tree app) as [|r t IH]; simpl; [done|].
  destruct (is_unmatched (row_status r)) eqn:E; simpl; [|done].
  by rewrite E, IH.
Qed.
End PreviewExtras.

Lemma preview_table_layout_witness :
  exists rows,
    tree (@generate_preview sim_runtime scenario_config []
            {| file_mapping := file_mapping bob_session;
               matched_files := matched_files bob_session;
               tree := [mk_row 1 "N/A" "zed.txt" "" STATUS_UNMATCHED] |}) =
      rows ++ [mk_row 1 "N/A" "zed.txt" "" STATUS_UNMATCHED] ∧
    List.map row_source rows = [lit "bob1.pdf"; lit "bob2.pdf"] ∧
    List.map row_key rows = [lit "Bob"; lit "Bob"] ∧
    forall j r, rows !! j = Some r -> row_index r = Z.of_nat j + 1.
Proof.
  apply (@preview_table_layout sim_runtime scenario_config []
           {| file_mapping := file_mapping bob_session;
              matched_files := matched_files bob_session;
              tree := [mk_row 1 "N/A" "zed.txt" "" STATUS_UNMATCHED] |}).
  vm_compute. discriminate.
Defined.

Lemma skip_policy_rows_witness :
  exists rows,
    preview_tree
      (@preview_group sim_runtime
         {| source_folder_path := lit "in"; target_folder_path := lit "out";
            rename_mode_var := ModeFile; match_type_var := Contains;
            duplicate_handling_var := Skip; compress_folder_var := false;
            compress_format_var := Zip |}
         [] (file_mapping bob_session)
         {| target_filenames_in_preview := ∅; item_index := 1;
            preview_tree := [] |}
         (lit "Bob", [lit "bob1.pdf"; lit "bob2.pdf"])) = [] ++ rows ∧
    length rows = 2%nat ∧
    forall i item, [lit "bob1.pdf"; lit "bob2.pdf"] !! i = Some item ->
      rows !! i =
        Some {| row_index := 1 + Z.of_nat i; row_key := lit "Bob";
                row_source := item; row_target := lit "Bob.pdf";
                row_status := STATUS_SKIPPED |}.
Proof.
  apply (@skip_policy_rows sim_runtime
           {| source_folder_path := lit "in"; target_folder_path := lit "out";
              rename_mode_var := ModeFile; match_type_var := Contains;
              duplicate_handling_var := Skip; compress_folder_var := false;
              compress_format_var := Zip |}
           [] (file_mapping bob_session)
           {| target_filenames_in_preview := ∅; item_index := 1;
              preview_tree := [] |}
           (lit "Bob") [lit "bob1.pdf"; lit "bob2.pdf"]).
  - reflexivity.
  - simpl. lia.
Defined.

Lemma pending_targets_collision_free_witness :
  @path_exists sim_runtime []
    (path_join (lit "out")
       (row_target (mk_row 1 "A" "a.txt" "Report.pdf" STATUS_PENDING)))
  = false.
Proof.
  apply (proj2 (@pending_targets_collision_free sim_runtime scenario_config
                  [] report_session ltac:(vm_compute; discriminate))
           0%nat (mk_row 1 "A" "a.txt" "Report.pdf" STATUS_PENDING)).
  - vm_compute. reflexivity.
  - reflexivity.
Defined.

Lemma preview_rows_well_formed_witness :
  row_target (mk_row 1 "A" "a.txt" "Report.pdf" STATUS_PENDING) ≠ [] ∧
  len (row_target (mk_row 1 "A" "a.txt" "Report.pdf" STATUS_PENDING))
    <= 255 ∧
  Forall safe_char
    (row_target (mk_row 1 "A" "a.txt" "Report.pdf" STATUS_PENDING)).
Proof.
  apply (@preview_rows_well_formed sim_runtime scenario_config []
           report_session ltac:(vm_compute; discriminate) 0%nat
           (mk_row 1 "A" "a.txt" "Report.pdf" STATUS_PENDING)).
  - vm_compute. reflexivity.
  - by left.
Defined.

(* ===================================================================== *)
(** ** Execution: how a call ends, and what it leaves *)
(* ===================================================================== *)

Lemma pending_filter_nil (rows : list tree_row) :
  List.filter (fun r => is_pending (row_status r)) rows = [] <->
  existsb (fun r => is_pending (row_status r)) rows = false.
Proof.
  induction rows as [|r t IH]; simpl; [done|].
  destruct (is_pending (row_status r)); simpl; [done|exact IH].
Qed.

Section ExecuteExtras.
Context `{Runtime}.
Implicit Types (cfg : config) (st : execute_state) (r : tree_row)
  (app : session).

(** A call that ends on the summary went through every guard. *)
Lemma execute_completed_inv cfg confirmed (w : World) app counts :
  ending (execute_rename cfg confirmed w app) = Completed counts ->
  exists w1,
    execute_enabled app = true ∧ confirmed = true ∧
    missing_tool cfg w = None ∧
    perform (MakeDirs (target_folder_path cfg)) w = (w1, None) ∧
    let st := execute_rows cfg (tree app)
                {| ex_world := w1;
                   ex_calls := [MakeDirs (target_folder_path cfg)];
                   ex_counts := no_counts; ex_tree := [] |} in
    execute_rename cfg confirmed w app =
      {| after_session :=
           {| file_mapping := file_mapping app;
              matched_files := matched_files app; tree := ex_tree st |};
         after_world := ex_world st; calls_made := ex_calls st;
         ending := Completed (ex_counts st) |}.
Proof.
  unfold execute_rename, execute_enabled.
  destruct (List.filter _ (tree app)) as [|x l] eqn:Ef; [done|].
  cbn [is_empty_list].
  destruct confirmed; [|done]. cbn [negb].
  destruct (missing_tool cfg w); [done|].
  destruct (perform _ w) as [w1 [msg|]]; [done|].
  intros _. exists w1. repeat split; try done.
  destruct (existsb _ (tree app)) eqn:Ee; [done|].
  apply pending_filter_nil in Ee. congruence.
Qed.

(** The loop leaves, in place of each row, a row that a relation [R]
    allows, whenever the loop body does. *)
Lemma execute_rows_Forall2 cfg (R : tree_row -> tree_row -> Prop) :
  (forall st r, exists r',
      ex_tree (execute_row cfg st r) = ex_tree st ++ [r'] ∧ R r r') ->
  forall rows st, exists rows',
    ex_tree (execute_rows cfg rows st) = ex_tree st ++ rows' ∧
    Forall2 R rows rows'.
Proof.
  intros Hstep. induction rows as [|r rest IH]; intros st.
  { exists []. simpl. by rewrite app_nil_r. }
  change (execute_rows cfg (r :: rest) st)
    with (execute_rows cfg rest (execute_row cfg st r)).
  destruct (Hstep st r) as (r' & Ht1 & Hr1).
  destruct (IH (execute_row cfg st r)) as (rows' & Ht2 & Hr2).
  exists (r' :: rows'). split; [|by constructor].
  rewrite Ht2, Ht1, <- app_assoc. done.
Qed.

(** What the loop body leaves in place of a row, in full. *)
Lemma execute_row_outcome cfg st r :
  exists r',
    ex_tree (execute_row cfg st r) = ex_tree st ++ [r'] ∧
    row_index r' = row_index r ∧ row_key r' = row_key r ∧
    row_source r' = row_source r ∧ row_target r' = row_target r ∧
    row_status r' ≠ STATUS_PENDING ∧
    (row_status r ≠ STATUS_PENDING -> r' = r) ∧
    (row_status r = STATUS_PENDING ->
       row_status r' = STATUS_SUCCESS ∨
       exists detail, row_status r' = STATUS_ERROR detail ∧
                      (length detail <= 60)%nat).
Proof.
  destruct (is_pending (row_status r)) eqn:Hp.
  - assert (row_status r = STATUS_PENDING) as Hst
      by (by destruct (row_status r)).
    assert (forall st' w' calls msg,
              exists r',
                ex_tree (fail_row st' w' calls r msg) =
                  ex_tree st' ++ [r'] ∧
                row_index r' = row_index r ∧ row_key r' = row_key r ∧
                row_source r' = row_source r ∧
                row_target r' = row_target r ∧
                row_status r' ≠ STATUS_PENDING ∧
                (row_status r ≠ STATUS_PENDING -> r' = r) ∧
                (row_status r = STATUS_PENDING ->
                   row_status r' = STATUS_SUCCESS ∨
                   exists detail, row_status r' = STATUS_ERROR detail ∧
                                  (length detail <= 60)%nat)) as Hfail.
    { intros st' w' calls msg.
      exists (set_status r (STATUS_ERROR (take 60 msg))).
      split; [reflexivity|].
      cbn [set_status row_index row_key row_source row_target row_status].
      repeat split; try done. right. exists (take 60 msg).
      split; [done|]. rewrite length_take. lia. }
    unfold execute_row. rewrite Hp. cbn [negb].
    destruct (path_exists (ex_world st) (dst_path_of cfg r));
      [apply Hfail|].
    destruct (path_exists (ex_world st) (src_path_of cfg r)); cbn [negb];
      [|apply Hfail].
    destruct (perform _ _) as [w' [msg|]]; [apply Hfail|].
    exists (set_status r STATUS_SUCCESS). split; [reflexivity|].
    cbn [set_status row_index row_key row_source row_target row_status].
    repeat split; try done. by left.
  - rewrite (execute_row_not_pending cfg st r Hp). simpl.
    exists r. split; [done|]. repeat split; try done.
    + by destruct (row_status r).
    + intros E. rewrite E in Hp. done.
Qed.

(** X18. After a run that ends on the summary no record is pending: each
    record keeps its number, key, source and target; a record that was
    not pending is unchanged; a record that was pending is successful or
    failed, the error text of a failed one having at most 60 code points.
    The execute button is then disabled, and a further call of execute,
    whatever the settings and the file system, makes no call and ends on
    the nothing-pending warning. *)
Theorem completed_run_leaves_nothing_pending cfg confirmed (w : World) app
    counts :
  ending (execute_rename cfg confirmed w app) = Completed counts ->
  let app' := after_session (execute_rename cfg confirmed w app) in
  Forall2
    (fun r r' =>
       row_index r' = row_index r ∧ row_key r' = row_key r ∧
       row_source r' = row_source r ∧ row_target r' = row_target r ∧
       row_status r' ≠ STATUS_PENDING ∧
       (row_status r ≠ STATUS_PENDING -> r' = r) ∧
       (row_status r = STATUS_PENDING ->
          row_status r' = STATUS_SUCCESS ∨
          exists detail, row_status r' = STATUS_ERROR detail ∧
                         (length detail <= 60)%nat))
    (tree app) (tree app') ∧
  execute_enabled app' = false ∧
  forall cfg2 confirmed2 (w2 : World),
    execute_rename cfg2 confirmed2 w2 app' =
    unchanged app' w2 NoPendingItems.
Proof.
  intros Hend app'.
  destruct (execute_completed_inv cfg confirmed w app counts Hend)
    as (w1 & _ & _ & _ & _ & He).
  cbv zeta in He. subst app'. rewrite He. cbn [after_session tree].
  destruct (execute_rows_Forall2 cfg _ (execute_row_outcome cfg)
              (tree app)
              {| ex_world := w1;
                 ex_calls := [MakeDirs (target_folder_path cfg)];
                 ex_counts := no_counts; ex_tree := [] |})
    as (rows' & Ht & Hr).
  cbn [ex_tree] in Ht. rewrite app_nil_l in Ht. rewrite Ht.
  assert (List.filter (fun r => is_pending (row_status r)) rows' = [])
    as Hnone.
  { apply filter_nil_iff. intros r' Hr'.
    apply list_elem_of_lookup in Hr' as [i Hi].
    destruct (Forall2_lookup_r _ _ _ _ _ Hr Hi)
      as (r & _ & _ & _ & _ & _ & Hnp & _).
    by destruct (row_status r'). }
  split; [exact Hr|]. split.
  - unfold execute_enabled. cbn [tree]. by apply pending_filter_nil.
  - intros cfg2 confirmed2 w2. unfold execute_rename. cbn [tree].
    by rewrite Hnone.
Qed.

(** X19. A call that does not end on the summary leaves the session as it
    was and has copied or archived nothing: either no call at all was
    made and the file system is untouched, or the one call made was the
    creation of the target folder, which failed. *)
Theorem aborted_run_changes_nothing cfg confirmed (w : World) app :
  (forall counts,
     ending (execute_rename cfg confirmed w app) ≠ Completed counts) ->
  after_session (execute_rename cfg confirmed w app) = app ∧
  ((calls_made (execute_rename cfg confirmed w app) = [] ∧
    after_world (execute_rename cfg confirmed w app) = w) ∨
   (calls_made (execute_rename cfg confirmed w app) =
      [MakeDirs (target_folder_path cfg)] ∧
    exists message,
      ending (execute_rename cfg confirmed w app) =
        TargetFolderError message)).
Proof.
  unfold execute_rename.
  destruct (is_empty_list _); [intros _; split; [done|by left]|].
  destruct (negb confirmed); [intros _; split; [done|by left]|].
  destruct (missing_tool cfg w); [intros _; split; [done|by left]|].
  destruct (perform _ w) as [w1 [msg|]].
  - intros _. split; [done|]. right. split; [done|]. by exists msg.
  - intros Hno. destruct (Hno _ eq_refl).
Qed.

(** X20. The archiver is looked up before anything else is done: when a
    record is pending, the user confirms, and the 7z or rar tool that the
    settings need is not found, the call ends on the missing-dependency
    error naming the tool, with no call made, not even the creation of
    the target folder. *)
Theorem missing_archiver_stops_run cfg (w : World) app (tool : str) :
  execute_enabled app = true ->
  required_tool cfg = Some tool ->
  which w tool = false ->
  execute_rename cfg true w app = unchanged app w (DependencyMissing tool).
Proof.
  intros Hen Htool Hwhich. unfold execute_rename, execute_enabled in *.
  destruct (List.filter _ (tree app)) eqn:Ef.
  { apply pending_filter_nil in Ef. congruence. }
  cbn [is_empty_list negb]. unfold missing_tool. by rewrite Htool, Hwhich.
Qed.

(** X21. The execute button and the first guard of execute agree: the
    button is disabled exactly when a call would end on the
    nothing-pending warning.  And when the preview button is disabled
    (no match), a call of preview leaves the session as it is. *)
Theorem buttons_agree_with_guards cfg confirmed (w : World) app :
  (execute_enabled app = false <->
   ending (execute_rename cfg confirmed w app) = NoPendingItems) ∧
  (preview_enabled app = false -> generate_preview cfg w app = app).
Proof.
  split.
  - unfold execute_rename, execute_enabled.
    rewrite <- pending_filter_nil.
    destruct (List.filter _ (tree app)) eqn:Ef; [done|].
    cbn [is_empty_list]. split; [done|].
    destruct (negb confirmed); [done|].
    destruct (missing_tool cfg w); [done|].
    by destruct (perform _ w) as [w1 [msg|]].
  - unfold preview_enabled, generate_preview.
    by destruct (is_empty_list (matched_files app)).
Qed.

(** X22. Right after a load nothing can be executed: whether the load
    succeeded or not, the table holds no pending row (only unmatched
    ones, numbered from 1, one per unmatched entry in listing order). *)
Theorem nothing_pending_after_load cfg (rows : list raw_row)
    (source_items : list str) app :
  let app' := (load_files cfg rows source_items app).1 in
  execute_enabled app' = false ∧
  Forall (fun r => row_status r = STATUS_UNMATCHED ∧ row_target r = [] ∧
                   row_key r = NOT_AVAILABLE) (tree app') ∧
  forall j r, tree app' !! j = Some r -> row_index r = Z.of_nat j + 1.
Proof.
  intros app'. subst app'. unfold load_files.
  destruct (load_mapping rows) as [err|mapping]; cbn [fst tree].
  { split; [done|]. split; [constructor|]. intros j r Hj. done. }
  unfold unmatched_rows, execute_enabled. cbn [tree].
  split; [|split].
  - apply pending_filter_nil, filter_nil_iff. intros r Hr.
    apply list_elem_of_lookup in Hr as [j Hj].
    apply list_lookup_imap_Some in Hj as (x & _ & ->). done.
  - apply Forall_forall. intros r Hr.
    apply list_elem_of_lookup in Hr as [j Hj].
    apply list_lookup_imap_Some in Hj as (x & _ & ->). done.
  - intros j r Hj.
    apply list_lookup_imap_Some in Hj as (x & _ & ->). done.
Qed.
End ExecuteExtras.

Lemma completed_run_leaves_nothing_pending_witness :
  execute_enabled
    (after_session (@execute_rename sim_runtime scenario_config true
                      scenario_world mixed_session)) = false.
Proof.
  apply (@completed_run_leaves_nothing_pending sim_runtime scenario_config
           true scenario_world mixed_session
           {| success_count := 1; skip_count := 1; error_count := 0 |}).
  vm_compute. reflexivity.
Defined.

Lemma aborted_run_changes_nothing_witness :
  after_session (@execute_rename sim_runtime scenario_config false
                   scenario_world mixed_session) = mixed_session.
Proof.
  apply (@aborted_run_changes_nothing sim_runtime scenario_config false
           scenario_world mixed_session).
  intros counts. vm_compute. discriminate.
Defined.

Lemma missing_archiver_stops_run_witness :
  @execute_rename no_tools_runtime archive_config true scenario_world
    mixed_session =
  @unchanged no_tools_runtime mixed_session scenario_world
    (DependencyMissing (lit "7z.exe")).
Proof.
  apply (@missing_archiver_stops_run no_tools_runtime archive_config
           scenario_world mixed_session (lit "7z.exe")).
  - reflexivity.
  - reflexivity.
  - reflexivity.
Defined.

(* ===================================================================== *)
(** ** The operation log and the folder options *)
(* ===================================================================== *)

(** X23. [operation_log] is a window on the messages logged since it was
    last empty: it holds the last 1000 of them, oldest first, and so never
    more than 1000 lines. *)
Theorem operation_log_keeps_last (messages : list str) :
  fold_left log_operation messages [] =
    drop (length messages - MAX_LOG_LINES) messages ∧
  (length (fold_left log_operation messages []) <= MAX_LOG_LINES)%nat.
Proof.
  assert (fold_left log_operation messages [] =
          drop (length messages - MAX_LOG_LINES) messages) as Hlog.
  { induction messages as [|m msgs IH] using rev_ind; [done|].
    rewrite fold_left_app. cbn [fold_left]. rewrite IH.
    unfold log_operation, MAX_LOG_LINES.
    rewrite !length_app, length_drop. cbn [length].
    destruct (Nat.ltb_spec 1000 (length msgs - (length msgs - 1000) + 1)).
    - assert (1000 <= length msgs)%nat by lia.
      rewrite drop_app_le by (rewrite length_drop; lia).
      rewrite drop_drop.
      rewrite drop_app_le by lia. f_equal. f_equal. lia.
    - replace (length msgs - 1000)%nat with 0%nat by lia.
      replace (length msgs + 1 - 1000)%nat with 0%nat by lia.
      done. }
  split; [done|]. rewrite Hlog, length_drop. unfold MAX_LOG_LINES. lia.
Qed.

Lemma fold_left_pointwise {A B} (f g : A -> B -> A) (l : list B) :
  (forall a x, f a x = g a x) ->
  forall a, fold_left f l a = fold_left g l a.
Proof.
  intros Hfg. induction l as [|x t IH]; intros a; simpl; [done|].
  by rewrite Hfg, IH.
Qed.

Section FolderOptions.
Context `{Runtime}.

Lemma preview_entries_file_mode src tgt mt dup comp fmt (w : World)
    name n base items :
  forall i st,
    preview_entries
      {| source_folder_path := src; target_folder_path := tgt;
         rename_mode_var := ModeFile; match_type_var := mt;
         duplicate_handling_var := dup; compress_folder_var := false;
         compress_format_var := fmt |} w name n base i items st =
    preview_entries
      {| source_folder_path := src; target_folder_path := tgt;
         rename_mode_var := ModeFile; match_type_var := mt;
         duplicate_handling_var := dup; compress_folder_var := comp;
         compress_format_var := fmt |} w name n base i items st.
Proof.
  induction items as [|item rest IH]; intros i st; [done|].
  cbn [preview_entries]. rewrite IH. reflexivity.
Qed.

(** X24. Unticking the compression box outside the folder mode, as the
    interface does, changes nothing in what follows: in the file mode the
    box is ignored by the preview and by the execution, which give the
    same result with the box ticked or not. *)
Theorem folder_options_state_is_neutral (cfg : config) (confirmed : bool)
    (w : World) (app : session) :
  is_compressing (_update_folder_options_state cfg) = is_compressing cfg ∧
  generate_preview (_update_folder_options_state cfg) w app =
    generate_preview cfg w app ∧
  execute_rename (_update_folder_options_state cfg) confirmed w app =
    execute_rename cfg confirmed w app.
Proof.
  destruct cfg as [src tgt mode mt dup comp fmt].
  destruct mode; [|done].
  unfold _update_folder_options_state.
  cbn [rename_mode_var source_folder_path target_folder_path match_type_var
       duplicate_handling_var compress_format_var].
  split; [by destruct comp|]. split.
  - assert (forall mapping groups,
              preview_groups
                {| source_folder_path := src; target_folder_path := tgt;
                   rename_mode_var := ModeFile; match_type_var := mt;
                   duplicate_handling_var := dup;
                   compress_folder_var := false;
                   compress_format_var := fmt |} w mapping groups =
              preview_groups
                {| source_folder_path := src; target_folder_path := tgt;
                   rename_mode_var := ModeFile; match_type_var := mt;
                   duplicate_handling_var := dup;
                   compress_folder_var := comp;
                   compress_format_var := fmt |} w mapping groups) as Hg.
    { intros mapping groups. unfold preview_groups.
      apply fold_left_pointwise. intros st [name items].
      unfold preview_group. cbn [duplicate_handling_var].
      destruct (_ && _); [reflexivity|].
      apply preview_entries_file_mode. }
    unfold generate_preview. by rewrite Hg.
  - destruct comp; [|done].
    unfold execute_rename.
    destruct (is_empty_list _); [done|].
    destruct (negb confirmed); [done|].
    change (missing_tool _ w) with (@None str).
    cbn [target_folder_path].
    destruct (perform _ w) as [w1 [msg|]]; [done|].
    unfold execute_rows.
    rewrite (fold_left_pointwise
               (execute_row
                  {| source_folder_path := src; target_folder_path := tgt;
                     rename_mode_var := ModeFile; match_type_var := mt;
                     duplicate_handling_var := dup;
                     compress_folder_var := false;
                     compress_format_var := fmt |})
               (execute_row
                  {| source_folder_path := src; target_folder_path := tgt;
                     rename_mode_var := ModeFile; match_type_var := mt;
                     duplicate_handling_var := dup;
                     compress_folder_var := true;
                     compress_format_var := fmt |})); [done|].
    intros st r. reflexivity.
Qed.
End FolderOptions.

Section AfterPreview.
Context `{Runtime}.

Lemma generated_table_no_terminal (cfg : config) (w : World)
    (app : session) :
  matched_files app ≠ [] ->
  Forall (fun r => is_success (row_status r) = false ∧
                   is_error (row_status r) = false)
         (tree (generate_preview cfg w app)).
Proof.
  intros Hne. rewrite generate_preview_tree by done.
  apply Forall_app. split.
  - apply preview_rows_Forall.
    + intros idx name item n base i reserved. simpl.
      destruct (resolve_status_cases cfg w reserved
                  (final_target_name_of cfg n base i)) as [E|[E|E]];
        by rewrite E.
    + done.
  - apply Forall_forall. intros r Hr.
    apply list_elem_of_In, filter_In in Hr as [_ Hu].
    by destruct (row_status r).
Qed.

(** X25. When execute is run on a table that a preview has just made and
    reaches its summary, the three counts add up to the number of rows
    of the table: the skipped count is the number of rows that were not
    pending, and the successes and the errors together are the number of
    rows that were pending. *)
Theorem summary_counts_every_row (cfg cfg2 : config) (w w2 : World)
    (app : session) (confirmed : bool) (counts : summary) :
  matched_files app ≠ [] ->
  let table := tree (generate_preview cfg w app) in
  ending (execute_rename cfg2 confirmed w2 (generate_preview cfg w app)) =
    Completed counts ->
  skip_count counts =
    Z.of_nat (length (List.filter
                        (fun r => negb (is_pending (row_status r))) table)) ∧
  success_count counts + error_count counts =
    Z.of_nat (length (List.filter
                        (fun r => is_pending (row_status r)) table)) ∧
  success_count counts + skip_count counts + error_count counts =
    Z.of_nat (length table).
Proof.
  intros Hne table Hend.
  destruct (execute_completed_inv cfg2 confirmed w2 _ counts Hend)
    as (w1 & _ & _ & _ & _ & He).
  cbv zeta in He. rewrite He in Hend. cbn [ending] in Hend.
  injection Hend as <-. fold table.
  destruct (execute_rows_run cfg2 table
              {| ex_world := w1;
                 ex_calls := [MakeDirs (target_folder_path cfg2)];
                 ex_counts := no_counts; ex_tree := [] |})
    as (rows' & acts & _ & _ & _ & _ & Hs & Hp).
  cbn [ex_counts no_counts skip_count success_count error_count] in Hs, Hp.
  rewrite (skipped_count_without_terminal table) in Hs
    by (apply generated_table_no_terminal; done).
  pose proof (filter_partition_perm
                (fun r => is_pending (row_status r)) table) as Hperm.
  apply Permutation_length in Hperm. rewrite length_app in Hperm.
  split; [lia|]. split; [lia|]. lia.
Qed.
End AfterPreview.

Lemma summary_counts_every_row_witness :
  skip_count {| success_count := 0; skip_count := 1; error_count := 1 |} =
    Z.of_nat
      (length (List.filter
                 (fun r => negb (is_pending (row_status r)))
                 (tree (@generate_preview sim_runtime scenario_config []
                          report_session)))) ∧
  success_count {| success_count := 0; skip_count := 1; error_count := 1 |}
  + error_count {| success_count := 0; skip_count := 1; error_count := 1 |} =
    Z.of_nat
      (length (List.filter
                 (fun r => is_pending (row_status r))
                 (tree (@generate_preview sim_runtime scenario_config []
                          report_session)))) ∧
  success_count {| success_count := 0; skip_count := 1; error_count := 1 |}
  + skip_count {| success_count := 0; skip_count := 1; error_count := 1 |}
  + error_count {| success_count := 0; skip_count := 1; error_count := 1 |} =
    Z.of_nat
      (length (tree (@generate_preview sim_runtime scenario_config []
                       report_session))).
Proof.
  apply (@summary_counts_every_row sim_runtime scenario_config
           scenario_config [] scenario_world report_session true
           {| success_count := 0; skip_count := 1; error_count := 1 |}).
  - vm_compute. discriminate.
  - vm_compute. reflexivity.
Defined.

(* ===================================================================== *)
(** ** Paths and shapes of names *)
(* ===================================================================== *)

Lemma rfind_from_none cls p i acc :
  Forall (fun c => cls c = false) p -> rfind_from cls p i acc = acc.
Proof.
  intros Hp. revert i acc.
  induction Hp as [|c t Hc Ht IH]; intros i acc; simpl; [done|].
  rewrite Hc. apply IH.
Qed.

Lemma rfind_from_spec cls p i acc :
  rfind_from cls p i acc = acc ∨
  exists k c, p !! k = Some c ∧ cls c = true ∧
              rfind_from cls p i acc = i + Z.of_nat k.
Proof.
  revert i acc. induction p as [|c t IH]; intros i acc; simpl; [by left|].
  destruct (IH (i + 1) (if cls c then i else acc))
    as [E|(k & d & Hk & Hd & E)].
  - destruct (cls c) eqn:Ec; [|by left].
    right. exists 0%nat, c. rewrite E. split; [done|]. split; [done|lia].
  - right. exists (S k), d. rewrite E. split; [done|]. split; [done|lia].
Qed.

(** The extension that [splitext] gives is empty or starts with a dot. *)
Lemma splitext_ext p :
  (splitext p).2 = [] ∨ exists e, (splitext p).2 = DOT :: e.
Proof.
  unfold splitext. destruct (_ && _) eqn:E; [|by left]. right. simpl.
  apply andb_true_iff in E as [Hlt _]. apply Z.ltb_lt in Hlt.
  unfold rfind in *.
  destruct (rfind_from_spec is_sep p 0 (-1)) as [Es|(ks & cs & _ & _ & Es)];
    rewrite Es in Hlt;
    (destruct (rfind_from_spec is_dot p 0 (-1))
       as [Ed|(k & c & Hk & Hc & Ed)]; rewrite Ed in *; [lia|]);
    replace (Z.to_nat (0 + Z.of_nat k)) with k by lia;
    rewrite (drop_S _ _ _ Hk); apply N.eqb_eq in Hc; subst c; eauto.
Qed.

(** A string is left by [rstrip] when it does not end with a space. *)
Lemma rstrip_fixed_iff s :
  rstrip s = s <->
  match last s with Some c => is_space c = false | None => True end.
Proof.
  induction s as [|c t IH]; [done|].
  destruct t as [|d t'].
  { simpl. destruct (is_space c); split; done. }
  rewrite last_cons_cons.
  change (rstrip (c :: d :: t'))
    with (match rstrip (d :: t') with
          | [] => if is_space c then [] else [c]
          | r => c :: r
          end).
  destruct (rstrip (d :: t')) as [|n r] eqn:E.
  - split.
    + by destruct (is_space c).
    + intros Hl. apply IH in Hl. done.
  - rewrite <- IH. split; congruence.
Qed.

Lemma no_double_dot_app_l a b : no_double_dot (a ++ b) -> no_double_dot a.
Proof.
  induction a as [|c a' IH]; [done|]. simpl. intros [Hc Ht].
  split; [|by apply IH].
  destruct a'; [by rewrite andb_false_r|done].
Qed.

Lemma no_double_dot_join a b :
  no_double_dot a -> no_double_dot b -> head_is is_dot b = false ->
  no_double_dot (a ++ b).
Proof.
  intros Ha Hb Hh. induction a as [|c a' IH]; [done|].
  destruct Ha as [Hc Ha]. simpl. split; [|by apply IH].
  destruct a'; [simpl; rewrite Hh; apply andb_false_r|done].
Qed.

Lemma no_double_dot_plain a b :
  Forall (fun c => is_dot c = false) a -> no_double_dot b ->
  no_double_dot (a ++ b).
Proof.
  intros Ha Hb. induction Ha as [|c a' Hc Ha IH]; [done|].
  simpl. split; [by rewrite Hc|done].
Qed.

Lemma ws_normal_app_l a b : ws_normal (a ++ b) -> ws_normal a.
Proof.
  induction a as [|c a' IH]; [done|]. simpl. intros [Hc Ht].
  split; [|by apply IH].
  intros Hs. destruct (Hc Hs) as [-> Hh]. split; [done|].
  by destruct a'.
Qed.

Lemma ws_normal_join a b :
  ws_normal a -> ws_normal b -> head_is is_space b = false ->
  ws_normal (a ++ b).
Proof.
  intros Ha Hb Hh. induction a as [|c a' IH]; [done|].
  destruct Ha as [Hc Ha]. simpl. split; [|by apply IH].
  intros Hs. destruct (Hc Hs) as [-> Hh']. split; [done|].
  by destruct a'.
Qed.

Lemma ws_normal_plain a b :
  Forall (fun c => is_space c = false) a -> ws_normal b ->
  ws_normal (a ++ b).
Proof.
  intros Ha Hb. induction Ha as [|c a' Hc Ha IH]; [done|].
  simpl. split; [|done]. intros Hs. congruence.
Qed.

(** [str(n)] is a non-empty string of digits. *)
Lemma decimal_Forall (P : N -> Prop) (n : nat) :
  Forall P (lit "0123456789") -> Forall P (decimal n).
Proof.
  intros Hd.
  assert (forall u, Forall P (lit (NilEmpty.string_of_uint u))) as Hu.
  { rewrite Forall_forall in Hd.
    induction u; [constructor|..];
      (constructor; [apply Hd; vm_compute; set_solver|exact IHu]). }
  unfold decimal, NilZero.string_of_uint.
  destruct (Nat.to_uint n) eqn:E; try (rewrite <- E; apply Hu).
  rewrite Forall_forall in Hd.
  constructor; [apply Hd; vm_compute; set_solver|constructor].
Qed.

Lemma decimal_nonempty (n : nat) : decimal n ≠ [].
Proof.
  unfold decimal, NilZero.string_of_uint.
  by destruct (Nat.to_uint n).
Qed.

(** Putting an underscore and digits before the extension of a clean
    name gives a clean name. *)
Lemma numbered_clean (base d : str) :
  clean_name base -> d ≠ [] ->
  Forall (fun c => safe_char c ∧ is_dot c = false ∧ is_space c = false) d ->
  clean_name ((splitext base).1 ++ lit "_" ++ d ++ (splitext base).2).
Proof.
  intros (Hsafe & Hdd & Hws & Hhead & Hr) Hne Hd.
  pose proof (splitext_ext base) as Hext.
  destruct (splitext base) as [main ext] eqn:E.
  apply splitext_app in E. subst base. cbn [fst snd] in *.
  apply Forall_app in Hsafe as [Hsm Hse].
  set (mid := lit "_" ++ d).
  assert (Forall (fun c => safe_char c ∧ is_dot c = false ∧
                           is_space c = false) mid) as Hmid.
  { apply Forall_app. split; [|done]. repeat constructor. }
  change (main ++ lit "_" ++ d ++ ext) with (main ++ (lit "_" ++ d) ++ ext).
  fold mid.
  split; [|split; [|split; [|split]]].
  - apply Forall_app. split; [done|]. apply Forall_app. split; [|done].
    eapply Forall_impl; [exact Hmid|]. by intros c (? & _).
  - apply no_double_dot_join.
    + by eapply no_double_dot_app_l.
    + apply no_double_dot_plain.
      * eapply Forall_impl; [exact Hmid|]. by intros c (_ & ? & _).
      * by eapply no_double_dot_app_r.
    + done.
  - apply ws_normal_join.
    + by eapply ws_normal_app_l.
    + apply ws_normal_plain.
      * eapply Forall_impl; [exact Hmid|]. by intros c (_ & _ & ?).
      * by eapply ws_normal_app_r.
    + done.
  - by destruct main.
  - apply rstrip_fixed_iff. rewrite !last_app.
    destruct Hext as [->|[e ->]].
    + cbn [last]. destruct (last mid) as [c|] eqn:El.
      * apply last_Some_elem_of in El.
        rewrite Forall_forall in Hmid. by apply Hmid in El as (_ & _ & ?).
      * apply last_None in El. done.
    + apply rstrip_fixed_iff in Hr. rewrite last_app in Hr.
      destruct (last (DOT :: e)) eqn:El; [done|by apply last_None in El].
Qed.

(** A name without reserved characters has no folder part. *)
Lemma basename_plain p : Forall safe_char p -> basename p = p.
Proof.
  intros Hp. unfold basename.
  assert (drop_drive p = p) as ->.
  { destruct p as [|a [|c rest]]; [done..|]. simpl.
    apply Forall_cons in Hp as [_ Hp]. apply Forall_cons in Hp as [[Hc _] _].
    destruct (N.eqb_spec c COLON) as [->|]; [done|done]. }
  unfold rfind. rewrite rfind_from_none; [done|].
  eapply Forall_impl; [exact Hp|]. intros c [Hc _].
  unfold is_sep.
  destruct (N.eqb_spec c SEP) as [->|]; [done|].
  destruct (N.eqb_spec c ALTSEP) as [->|]; done.
Qed.

(* ===================================================================== *)
(** ** The sanitizer applied to its own result *)
(* ===================================================================== *)

(** A name that is cut is cut to the full length. *)
Lemma limit_length_full s :
  MAX_FILENAME_LENGTH < len s -> len (limit_length s) = MAX_FILENAME_LENGTH.
Proof.
  unfold limit_length, len, MAX_FILENAME_LENGTH. intros Hlong.
  destruct (splitext s) as [name ext] eqn:E.
  apply splitext_app in E.
  assert (length s = length name + length ext)%nat as Hl
    by (by rewrite E, length_app).
  destruct (Z.ltb_spec 255 (Z.of_nat (length s))); [|lia].
  destruct (Z.ltb_spec 0 (255 - Z.of_nat (length ext))).
  - rewrite length_app, length_take. lia.
  - rewrite length_take. lia.
Qed.

Lemma sanitize_of_clean_name s :
  s ≠ [] -> len s <= MAX_FILENAME_LENGTH -> clean_name s ->
  _sanitize_filename s = s.
Proof.
  intros Hne Hlen Hclean.
  pose proof (clean_fixed s Hclean) as Hfix.
  rewrite sanitize_short by (rewrite Hfix; done).
  rewrite Hfix. by destruct s.
Qed.

Lemma sanitize_short_clean x :
  len (clean x) <= MAX_FILENAME_LENGTH -> clean_name (_sanitize_filename x).
Proof.
  intros Hlen. rewrite sanitize_short by done.
  destruct (is_empty x); [apply UNNAMED_clean_name|].
  destruct (is_empty (clean x));
    [apply UNNAMED_clean_name|apply clean_is_clean_name].
Qed.

Lemma sanitize_fixed_is_clean s : _sanitize_filename s = s -> clean_name s.
Proof.
  intros Hfix.
  assert (len s <= MAX_FILENAME_LENGTH) as Hlen.
  { rewrite <- Hfix. apply sanitized_name_valid. }
  pose proof (clean_length s) as Hcl.
  rewrite <- Hfix. apply sanitize_short_clean. lia.
Qed.

(** A sanitized name shorter than the full length was not cut. *)
Lemma sanitize_clean_unless_full x :
  len (_sanitize_filename x) < MAX_FILENAME_LENGTH ->
  clean_name (_sanitize_filename x).
Proof.
  destruct (Z.le_gt_cases (len (clean x)) MAX_FILENAME_LENGTH) as [Hs|Hl].
  { intros _. by apply sanitize_short_clean. }
  unfold _sanitize_filename.
  destruct (is_empty x); [intros _; apply UNNAMED_clean_name|].
  pose proof (limit_length_full (clean x)) as Hfull.
  destruct (limit_length (clean x)) as [|c r] eqn:E.
  - intros _. apply UNNAMED_clean_name.
  - cbn [is_empty is_empty_list]. lia.
Qed.

(** Cutting keeps white space single and away from the head. *)
Lemma limit_length_shape s :
  ws_normal s -> head_is is_space s = false ->
  ws_normal (limit_length s) ∧ head_is is_space (limit_length s) = false.
Proof.
  intros Hws Hhead. unfold limit_length.
  pose proof (splitext_ext s) as Hext.
  destruct (splitext s) as [name ext] eqn:E.
  apply splitext_app in E. cbn [snd] in Hext.
  destruct (MAX_FILENAME_LENGTH <? len s); [|done].
  destruct (0 <? MAX_FILENAME_LENGTH - len ext).
  - set (k := Z.to_nat (MAX_FILENAME_LENGTH - len ext)).
    assert (s = take k name ++ drop k name ++ ext) as Hs
      by (by rewrite app_assoc, take_drop).
    assert (head_is is_space ext = false) as Hhe
      by (by destruct Hext as [->|[e ->]]).
    split.
    + apply ws_normal_join; [|by apply (ws_normal_app_r name); rewrite <- E|done].
      rewrite Hs in Hws. by apply ws_normal_app_l in Hws.
    + destruct (take k name) as [|c l] eqn:Et; [done|].
      by rewrite Hs in Hhead.
  - set (k := Z.to_nat MAX_FILENAME_LENGTH).
    rewrite <- (take_drop k s) in Hws, Hhead.
    split; [by apply ws_normal_app_l in Hws|].
    by destruct (take k s).
Qed.

Lemma sanitize_shape x :
  ws_normal (_sanitize_filename x) ∧
  head_is is_space (_sanitize_filename x) = false.
Proof.
  destruct UNNAMED_clean_name as (_ & _ & Hu1 & Hu2 & _).
  unfold _sanitize_filename. destruct (is_empty x); [done|].
  destruct (clean_is_clean_name x) as (_ & _ & Hws & Hh & _).
  destruct (limit_length_shape (clean x) Hws Hh) as [H1 H2].
  by destruct (limit_length (clean x)).
Qed.

(** C6, as the code has it. Sanitizing the result again gives the same
    name exactly when the result is a clean name, and the result is one
    exactly when it has no two adjacent dots and no white space at its
    end (the other marks of a clean name, no reserved or control
    character, white space only as single spaces and none at the head,
    it always has).  Every result that was not cut is a clean name, so
    the sanitizer is idempotent on every input whose cleaned form has at
    most 255 code points. *)
Theorem sanitize_idempotent_iff_clean (x : str) :
  (_sanitize_filename (_sanitize_filename x) = _sanitize_filename x <->
   clean_name (_sanitize_filename x)) ∧
  (_sanitize_filename (_sanitize_filename x) = _sanitize_filename x <->
   no_double_dot (_sanitize_filename x) ∧
   rstrip (_sanitize_filename x) = _sanitize_filename x) ∧
  (len (clean x) <= MAX_FILENAME_LENGTH ->
   _sanitize_filename (_sanitize_filename x) = _sanitize_filename x).
Proof.
  assert (clean_name (_sanitize_filename x) ->
          _sanitize_filename (_sanitize_filename x) = _sanitize_filename x)
    as Hback.
  { intros Hclean.
    apply sanitize_of_clean_name; [| |done]; apply sanitized_name_valid. }
  split; [|split].
  - split; [apply sanitize_fixed_is_clean|exact Hback].
  - split.
    + intros Hfix. apply sanitize_fixed_is_clean in Hfix.
      destruct Hfix as (_ & Hdd & _ & _ & Hr). done.
    + intros [Hdd Hr]. apply Hback.
      destruct (sanitize_shape x) as [Hws Hh].
      split; [apply sanitized_name_valid|done].
  - intros Hlen. by apply Hback, sanitize_short_clean.
Qed.

Lemma sanitize_idempotent_iff_clean_witness :
  _sanitize_filename (_sanitize_filename (repeat 97%N 300 ++ lit ".txt")) =
  _sanitize_filename (repeat 97%N 300 ++ lit ".txt").
Proof.
  apply (proj2 (proj1 (sanitize_idempotent_iff_clean
                         (repeat 97%N 300 ++ lit ".txt")))).
  assert (_sanitize_filename (repeat 97%N 300 ++ lit ".txt") =
          repeat 97%N 251 ++ lit ".txt") as -> by (vm_compute; reflexivity).
  split; [repeat constructor|].
  vm_compute. repeat split; try done; intros; discriminate.
Defined.

(* ===================================================================== *)
(** ** Numbered names *)
(* ===================================================================== *)

Section Numbering.
Context `{Runtime}.

(** Without compression, a numbered name of at most 255 code points
    comes from a base name that was not cut, hence a clean one. *)
Lemma base_clean_when_numbered_fits cfg (mapping : dict str) name i :
  let base := base_target_name_of cfg mapping name in
  is_compressing cfg = false ->
  len ((splitext base).1 ++ lit "_" ++ decimal (i + 1) ++
       (splitext base).2) <= MAX_FILENAME_LENGTH ->
  clean_name base.
Proof.
  intros base Hc Hlen.
  assert (len base < MAX_FILENAME_LENGTH) as Hshort.
  { destruct (splitext base) as [main ext] eqn:E.
    apply splitext_app in E. rewrite E. cbn [fst snd] in Hlen.
    unfold len in *. rewrite !length_app in Hlen. rewrite length_app.
    simpl in Hlen. lia. }
  assert (base = _sanitize_filename
                   (default UNNAMED (dict_get mapping name))) as Hb.
  { subst base. unfold base_target_name_of, is_compressing in *.
    destruct (rename_mode_var cfg); [done|].
    destruct (compress_folder_var cfg); done. }
  rewrite Hb in Hshort |- *.
  by apply sanitize_clean_unless_full.
Qed.
End Numbering.

(** C3, as the code has it. With numbered duplicates, a key with more
    than one entry gives its i-th entry (from 0) the name made of the base
    without extension, an underscore, i+1 and the extension, passed
    through the sanitizer once more.  The entry receives the numbered
    name itself when that name has at most 255 code points and the base
    name is one the sanitizer leaves as it is, which it always is, at
    that length, unless folders are compressed; the name received never
    has more than 255 code points, so a longer numbered name is not
    received as it is.  With the key Bob mapped to Bob.pdf and the entries bob1.pdf and
    bob2.pdf, the preview shows Bob_1.pdf and Bob_2.pdf, both pending. *)
Theorem suffix_numbering :
  (forall (R : Runtime) (cfg : config) (w : World) (mapping : dict str)
          (st : preview_state) (name : str) (items : list str),
     duplicate_handling_var cfg = Suffix ->
     (1 < length items)%nat ->
     let base := base_target_name_of cfg mapping name in
     let numbered i :=
       (splitext base).1 ++ lit "_" ++ decimal (i + 1) ++
       (splitext base).2 in
     let st' := preview_group cfg w mapping st (name, items) in
     exists rows,
       preview_tree st' = preview_tree st ++ rows ∧
       length rows = length items ∧
       forall i item, items !! i = Some item ->
         exists r, rows !! i = Some r ∧ row_key r = name ∧
                   row_source r = item ∧
                   row_index r = item_index st + Z.of_nat i ∧
                   row_target r =
                     _sanitize_filename (basename (numbered i)) ∧
                   len (row_target r) <= MAX_FILENAME_LENGTH ∧
                   (len (numbered i) <= MAX_FILENAME_LENGTH ->
                    is_compressing cfg = false ∨
                    _sanitize_filename base = base ->
                    row_target r = numbered i)) ∧
  tree (@generate_preview sim_runtime scenario_config [] bob_session) =
    [mk_row 1 "Bob" "bob1.pdf" "Bob_1.pdf" STATUS_PENDING;
     mk_row 2 "Bob" "bob2.pdf" "Bob_2.pdf" STATUS_PENDING].
Proof.
  split; [|by vm_compute].
  intros R cfg w mapping st name items Hdup Hlen base numbered st'.
  subst st'. unfold preview_group. fold base. rewrite Hdup.
  cbn [is_skip]. rewrite andb_false_r.
  destruct (preview_entries_rows cfg w name (length items) base items 0 st)
    as (rows & Htree & Hl & Hrows).
  exists rows. split; [done|]. split; [done|].
  intros i item Hi.
  assert (candidate_name Suffix (length items) base i = numbered i)
    as Hcand.
  { unfold candidate_name. apply Nat.ltb_lt in Hlen. rewrite Hlen.
    cbn [is_suffix andb]. subst numbered. by destruct (splitext base). }
  destruct (Hrows i item Hi) as (r & Hr & Hk & Hs & Hidx & Ht).
  assert (row_target r = _sanitize_filename (basename (numbered i)))
    as Htarget.
  { rewrite Ht. unfold final_target_name_of. rewrite Hdup.
    cbn [Nat.add]. by rewrite Hcand. }
  exists r. repeat split; try done.
  { rewrite Htarget. apply sanitized_name_valid. }
  intros Hfits Hbase. rewrite Htarget.
  assert (clean_name base) as Hclean.
  { destruct Hbase as [Hc|Hfix].
    - by apply (base_clean_when_numbered_fits cfg mapping name i).
    - by apply sanitize_fixed_is_clean. }
  assert (clean_name (numbered i)) as Hnum.
  { apply numbered_clean; [done|apply decimal_nonempty|].
    apply decimal_Forall. repeat constructor. }
  rewrite basename_plain by apply Hnum.
  apply sanitize_of_clean_name; [|done|done].
  subst numbered. cbv beta. by destruct (splitext base).1.
Qed.

Lemma suffix_numbering_witness :
  exists rows,
    preview_tree
      (@preview_group sim_runtime scenario_config [] (file_mapping bob_session)
         {| target_filenames_in_preview := ∅; item_index := 1;
            preview_tree := [] |}
         (lit "Bob", [lit "bob1.pdf"; lit "bob2.pdf"])) = [] ++ rows ∧
    length rows = 2%nat ∧
    exists r, rows !! 1%nat = Some r ∧ row_source r = lit "bob2.pdf" ∧
              row_index r = 2 ∧ row_target r = lit "Bob_2.pdf".
Proof.
  destruct (proj1 suffix_numbering sim_runtime scenario_config []
              (file_mapping bob_session)
              {| target_filenames_in_preview := ∅; item_index := 1;
                 preview_tree := [] |}
              (lit "Bob") [lit "bob1.pdf"; lit "bob2.pdf"])
    as (rows & Htree & Hlen & Hrows).
  - reflexivity.
  - simpl. lia.
  - exists rows. split; [exact Htree|]. split; [exact Hlen|].
    destruct (Hrows 1%nat (lit "bob2.pdf"))
      as (r & Hr & _ & Hs & Hi & _ & _ & Ht).
    + reflexivity.
    + exists r. split; [exact Hr|]. split; [exact Hs|]. split; [exact Hi|].
      apply Ht; [vm_compute; discriminate|by left].
Defined.

(** C3, as stated, fails: with a target name of 255 code points the
    numbered names of the two entries are cut back to the target name
    itself; both entries receive it, without a number, and the second is
    a preview conflict. *)
Lemma number_lost_by_truncation :
  let app := (@load_files sim_runtime scenario_config long_name_rows
                bob_listing empty_session).1 in
  len long_name = 255 ∧
  tree (@generate_preview sim_runtime scenario_config [] app) =
    [{| row_index := 1; row_key := lit "Bob"; row_source := lit "bob1.pdf";
        row_target := long_name; row_status := STATUS_PENDING |};
     {| row_index := 2; row_key := lit "Bob"; row_source := lit "bob2.pdf";
        row_target := long_name;
        row_status := STATUS_PREVIEW_CONFLICT |}].
Proof. split; vm_compute; reflexivity. Qed.

(* ===================================================================== *)
(** ** The rows that reach validation *)
(* ===================================================================== *)

Lemma dropna_present (rows : list raw_row) :
  dropna (List.filter cells_present rows) = dropna rows.
Proof.
  induction rows as [|[[k|] [v|]] t IH]; simpl; [done| |done..].
  unfold dropna in *. simpl. by rewrite IH.
Qed.

Section PresentRows.
Context `{Runtime}.

(** C5, as the code has it. The rows with a missing cell are dropped,
    then both fields are trimmed, and validation sees nothing else: the
    outcome of the load, error or mapping, is the one of the table
    without the rows that have a missing cell; a collision error names
    only keys and target names of rows with both cells present; and a
    mapping that passes validation is exactly these rows, trimmed, in
    order.  (A field that is empty after trimming is not dropped.) *)
Theorem mapping_from_present_rows (rows : list raw_row) :
  let present := List.filter cells_present rows in
  load_mapping rows = load_mapping present ∧
  (forall cfg source_items app,
     load_files cfg rows source_items app =
     load_files cfg present source_items app) ∧
  (forall names k,
     load_mapping rows = inl (DuplicateKey names) -> k ∈ names ->
     exists k0 v0, (Some k0, Some v0) ∈ rows ∧ k = strip k0) ∧
  (forall conflicts t k,
     load_mapping rows = inl (DuplicateTarget conflicts) ->
     (t, k) ∈ conflicts ->
     exists k0 v0, (Some k0, Some v0) ∈ rows ∧ k = strip k0 ∧
                   t = strip v0) ∧
  (forall m,
     load_mapping rows = inr m ->
     m = strip_columns (dropna rows) ∧
     NoDup (dict_keys m) ∧
     forall k v, (k, v) ∈ m <->
       exists k0 v0, (Some k0, Some v0) ∈ rows ∧ k = strip k0 ∧
                     v = strip v0).
Proof.
  intros present.
  assert (load_mapping rows = load_mapping present) as Hsame.
  { unfold load_mapping, present. by rewrite dropna_present. }
  split; [done|]. split; [|split; [|split]].
  - intros cfg source_items app. unfold load_files. by rewrite Hsame.
  - intros names k Hload Hk.
    unfold load_mapping, build_mapping in Hload.
    set (df := strip_columns (dropna rows)) in *.
    rewrite name_duplicates_spec in Hload.
    set (dups := List.filter _ df) in Hload.
    destruct (negb (is_empty_list dups)).
    2:{ by destruct (negb (is_empty_list (select df _))). }
    injection Hload as <-.
    rewrite sorted_perm, elem_of_unique in Hk.
    change (List.map ?f ?l) with (f <$> l) in Hk.
    apply list_elem_of_fmap in Hk as ([k1 v1] & -> & Hr).
    apply list_elem_of_In, filter_In in Hr as [Hr _].
    apply list_elem_of_In, elem_of_trimmed_rows in Hr
      as (k0 & v0 & Hin & -> & _).
    by exists k0, v0.
  - intros conflicts t k Hload Htk.
    unfold load_mapping, build_mapping in Hload.
    set (df := strip_columns (dropna rows)) in *.
    destruct (negb (is_empty_list (select df (duplicated
                (List.map (fun r => lower r.1) df))))); [done|].
    destruct (negb (is_empty_list (select df (duplicated
                (List.map snd df))))); [|done].
    injection Hload as <-.
    change (List.map ?f ?l) with (f <$> l) in Htk.
    apply list_elem_of_fmap in Htk as ([k1 v1] & [= -> ->] & Hr).
    rewrite sort_values_perm, (duplicated_select snd) in Hr.
    apply list_elem_of_In, filter_In in Hr as [Hr _].
    apply list_elem_of_In, elem_of_trimmed_rows in Hr
      as (k0 & v0 & Hin & -> & ->).
    by exists k0, v0.
  - intros m Hload. unfold load_mapping in Hload.
    apply build_mapping_ok in Hload as [-> Hnd].
    split; [done|]. split; [done|]. apply elem_of_trimmed_rows.
Qed.
End PresentRows.

Lemma mapping_from_present_rows_witness :
  @load_mapping sim_runtime
    [(Some (lit " k "), Some (lit "x.pdf")); (Some (lit "K"), None)]
  = inr [(lit "k", lit "x.pdf")].
Proof.
  rewrite (proj1 (@mapping_from_present_rows sim_runtime
                    [(Some (lit " k "), Some (lit "x.pdf"));
                     (Some (lit "K"), None)])).
  vm_compute. reflexivity.
Defined.

(* ===================================================================== *)
(** ** The tables the tool can hold *)
(* ===================================================================== *)

Section ReachableFacts.
Context `{Runtime}.
Implicit Types (cfg : config) (app : session).

(** A call of execute that does not end on the summary returns the
    session it was given. *)
Lemma execute_session_cases cfg confirmed (w : World) app :
  after_session (execute_rename cfg confirmed w app) = app ∨
  exists counts, ending (execute_rename cfg confirmed w app) =
                 Completed counts.
Proof.
  unfold execute_rename.
  destruct (is_empty_list _); [by left|].
  destruct (negb confirmed); [by left|].
  destruct (missing_tool cfg w); [by left|].
  destruct (perform _ w) as [w1 [msg|]]; [by left|].
  right. by eexists.
Qed.

(** A call of execute that ends on the summary leaves no pending row. *)
Lemma completed_no_pending cfg confirmed (w : World) app counts :
  ending (execute_rename cfg confirmed w app) = Completed counts ->
  existsb (fun r => is_pending (row_status r))
          (tree (after_session (execute_rename cfg confirmed w app))) =
  false.
Proof.
  intros Hend.
  destruct (execute_completed_inv cfg confirmed w app counts Hend)
    as (w1 & _ & _ & _ & _ & He).
  cbv zeta in He. rewrite He. cbn [after_session tree].
  destruct (execute_rows_run cfg (tree app)
              {| ex_world := w1;
                 ex_calls := [MakeDirs (target_folder_path cfg)];
                 ex_counts := no_counts; ex_tree := [] |})
    as (rows' & acts & Ht & Hr & _).
  cbn [ex_tree] in Ht. rewrite app_nil_l in Ht. rewrite Ht.
  apply pending_filter_nil, filter_nil_iff. intros r' Hr'.
  apply list_elem_of_lookup in Hr' as [i Hi].
  destruct (Forall2_lookup_r _ _ _ _ _ Hr Hi) as (r & _ & Hres).
  unfold row_result in Hres.
  destruct (is_pending (row_status r)) eqn:Ep.
  - destruct Hres as (s & -> & [->|[detail ->]]); done.
  - by subst r'.
Qed.

(** Whatever the user has done, a table that holds a pending row holds
    no successful and no failed row: a load leaves unmatched rows only, a
    preview rebuilds the table without such rows, and an execution that
    marks rows as successful or failed leaves no row pending. *)
Lemma reachable_table_shape app :
  reachable app ->
  existsb (fun r => is_pending (row_status r)) (tree app) = true ->
  Forall (fun r => is_success (row_status r) = false ∧
                   is_error (row_status r) = false) (tree app).
Proof.
  induction 1 as [|confirmed app _ IH|cfg rows items app _ _
                  |mapping app _ _|cfg w app _ IH|cfg confirmed w app _ IH];
    try done.
  - by destruct confirmed.
  - intros _. unfold load_files.
    destruct (load_mapping rows); cbn [fst tree]; [constructor|].
    apply Forall_forall. intros r Hr.
    apply list_elem_of_lookup in Hr as [j Hj].
    apply list_lookup_imap_Some in Hj as (x & _ & ->). done.
  - destruct (matched_files app) as [|g gs] eqn:E.
    + unfold generate_preview. rewrite E. exact IH.
    + intros _. apply generated_table_no_terminal. by rewrite E.
  - destruct (execute_session_cases cfg confirmed w app)
      as [->|[counts Hend]]; [exact IH|].
    rewrite (completed_no_pending _ _ _ _ _ Hend). done.
Qed.

(** C8. In a run that reaches the loop (a pending record, the
    confirmation given, the archiver found, the target folder made):
    apart from making the target folder, a call is made only for a
    pending record; for each pending record the two checks are made on
    the file system as it is at that moment, an existing destination or a
    missing source failing the record without any call; every other
    record is left as it is.  The summary counts as skipped the records
    that are neither pending, nor successful, nor failed; on every table
    that the tool can hold these are all the records that are not
    pending. *)
Theorem execute_acts_on_pending cfg (w w1 : World) (app : session) :
  let e := execute_rename cfg true w app in
  let init := {| ex_world := w1;
                 ex_calls := [MakeDirs (target_folder_path cfg)];
                 ex_counts := no_counts; ex_tree := [] |} in
  let before i := execute_rows cfg (take i (tree app)) init in
  (exists r, r ∈ tree app ∧ row_status r = STATUS_PENDING) ->
  missing_tool cfg w = None ->
  perform (MakeDirs (target_folder_path cfg)) w = (w1, None) ->
  exists counts acts,
    ending e = Completed counts ∧
    calls_made e = MakeDirs (target_folder_path cfg) :: acts ∧
    Forall (fun a => exists r, r ∈ tree app ∧
                               row_status r = STATUS_PENDING ∧
                               a = record_action cfg r) acts ∧
    length (tree (after_session e)) = length (tree app) ∧
    (forall i r, tree app !! i = Some r ->
       row_status r ≠ STATUS_PENDING ->
       tree (after_session e) !! i = Some r) ∧
    (forall i r, tree app !! i = Some r ->
       row_status r = STATUS_PENDING ->
       let dst := path_exists (ex_world (before i)) (dst_path_of cfg r) in
       let src := path_exists (ex_world (before i)) (src_path_of cfg r) in
       (dst = true ->
          tree (after_session e) !! i =
            Some (set_status r (STATUS_ERROR (take 60 MSG_TARGET_EXISTS))) ∧
          ex_calls (before (S i)) = ex_calls (before i) ∧
          ex_world (before (S i)) = ex_world (before i)) ∧
       (dst = false -> src = false ->
          tree (after_session e) !! i =
            Some (set_status r (STATUS_ERROR (take 60 MSG_SOURCE_MISSING))) ∧
          ex_calls (before (S i)) = ex_calls (before i) ∧
          ex_world (before (S i)) = ex_world (before i)) ∧
       (dst = false -> src = true ->
          ex_calls (before (S i)) =
            ex_calls (before i) ++ [record_action cfg r] ∧
          exists s, tree (after_session e) !! i = Some (set_status r s) ∧
                    (s = STATUS_SUCCESS ∨
                     exists detail, s = STATUS_ERROR detail))) ∧
    skip_count counts =
      Z.of_nat (length (List.filter counted_as_skipped (tree app))) ∧
    (reachable app ->
       skip_count counts =
         Z.of_nat (length (List.filter
                             (fun r => negb (is_pending (row_status r)))
                             (tree app)))) ∧
    success_count counts + error_count counts =
      Z.of_nat (length (List.filter (fun r => is_pending (row_status r))
                                    (tree app))).
Proof.
  intros e init before (rp & Hrp & Hpend) Htool Hmk.
  assert (List.filter (fun r => is_pending (row_status r)) (tree app) ≠ [])
    as Hsome.
  { intros Ef.
    assert (rp ∈ List.filter (fun r => is_pending (row_status r))
                             (tree app)) as Hin;
      [|rewrite Ef in Hin; by apply not_elem_of_nil in Hin].
    apply list_elem_of_In, filter_In. split.
    - by apply list_elem_of_In.
    - by rewrite Hpend. }
  assert (e = {| after_session :=
                   {| file_mapping := file_mapping app;
                      matched_files := matched_files app;
                      tree := ex_tree (execute_rows cfg (tree app) init) |};
                 after_world := ex_world (execute_rows cfg (tree app) init);
                 calls_made := ex_calls (execute_rows cfg (tree app) init);
                 ending :=
                   Completed (ex_counts (execute_rows cfg (tree app) init))
              |}) as He.
  { subst e. unfold execute_rename.
    destruct (List.filter _ (tree app)) as [|x l] eqn:Ef; [done|].
    simpl. rewrite Htool, Hmk. done. }
  destruct (execute_rows_run cfg (tree app) init)
    as (rows' & acts & Ht & Hr & Hc & Ha & Hs & Hp).
  simpl in Ht, Hc, Hs, Hp.
  exists (ex_counts (execute_rows cfg (tree app) init)), acts.
  rewrite He. cbn [ending calls_made after_session after_world tree].
  split; [done|]. split; [done|]. split; [done|].
  split; [rewrite Ht; symmetry; by eapply Forall2_length|].
  split; [|split; [|split; [lia|split; [|lia]]]].
  - intros i r Hi Hnp. rewrite Ht.
    destruct (Forall2_lookup_l _ _ _ _ _ Hr Hi) as (r' & Hi' & Hres).
    unfold row_result in Hres.
    destruct (is_pending (row_status r)) eqn:Ep.
    + by destruct (row_status r).
    + by subst r'.
  - intros i r Hi Hst. cbv zeta.
    assert (is_pending (row_status r) = true) as Ep by (by rewrite Hst).
    assert (before (S i) = execute_row cfg (before i) r) as Hstep.
    { subst before. cbv beta.
      by rewrite (take_S_r _ _ _ Hi), execute_rows_snoc. }
    rewrite Hstep. split; [|split].
    + intros Hd.
      rewrite (execute_row_target_exists cfg (before i) r Ep Hd).
      split; [|done].
      apply (execute_prefix_row cfg (tree app) init i r); [done..|].
      fold (before i).
      by rewrite (execute_row_target_exists cfg (before i) r Ep Hd).
    + intros Hd Hsrc.
      rewrite (execute_row_source_missing cfg (before i) r Ep Hd Hsrc).
      split; [|done].
      apply (execute_prefix_row cfg (tree app) init i r); [done..|].
      fold (before i).
      by rewrite (execute_row_source_missing cfg (before i) r Ep Hd Hsrc).
    + intros Hd Hsrc.
      destruct (execute_row_attempt cfg (before i) r Ep Hd Hsrc)
        as (Hcalls & s & Htree & Hs').
      split; [done|]. exists s. split; [|done].
      by apply (execute_prefix_row cfg (tree app) init i r).
  - intros Hreach.
    rewrite <- (skipped_count_without_terminal (tree app)); [lia|].
    apply reachable_table_shape; [done|].
    destruct (existsb _ (tree app)) eqn:Ee; [done|].
    by apply pending_filter_nil in Ee.
Qed.
End ReachableFacts.

Lemma execute_acts_on_pending_witness :
  let loaded := (@load_files sim_runtime scenario_config bob_rows
                   bob_and_other_listing empty_session).1 in
  let app := @generate_preview sim_runtime scenario_config [] loaded in
  exists counts acts,
    ending (@execute_rename sim_runtime scenario_config true scenario_world
              app) = Completed counts ∧
    calls_made (@execute_rename sim_runtime scenario_config true
                  scenario_world app) = MakeDirs (lit "out") :: acts ∧
    length (tree app) = 2%nat ∧
    success_count counts + error_count counts = 1 ∧
    skip_count counts = 1.
Proof.
  intros loaded app.
  destruct (@execute_acts_on_pending sim_runtime scenario_config
              scenario_world (lit "out" :: scenario_world) app)
    as (counts & acts & He & Hc & _ & _ & _ & _ & _ & Hs & Hp).
  - exists (mk_row 1 "Bob" "bob1.pdf" "Bob.pdf" STATUS_PENDING).
    split; [by left|reflexivity].
  - reflexivity.
  - reflexivity.
  - exists counts, acts. split; [exact He|]. split; [exact Hc|].
    split; [reflexivity|]. split; [rewrite Hp; reflexivity|].
    rewrite Hs; [reflexivity|].
    apply (@reachable_preview sim_runtime), (@reachable_load sim_runtime).
    apply (@reachable_start sim_runtime).
Defined.
